(** * Gradient construction of caffe2/python/core.py

    A shallow embedding of the [IR] class and of [GradientRegistry]
    (core.py, lines 345-974): the SSA replay of the forward operators, the
    bookkeeping of gradient generators, the synthesis of accumulation
    operators and the backward-pass driver; and of the functions on the
    versions of the blobs of a net that follow them (lines 977-1061).

    Python dictionaries are finite maps ([gmap]); the exceptions the code
    raises are the left summand of a small result monad; the protobuf
    operator messages that gradient rules return are mutable objects that
    are shared between the list of emitted operators and the generator
    records, so they live in an explicit heap and are named by their index
    in it. *)

From Stdlib Require Import String Ascii ZArith QArith List DecimalString DecimalNat.
From stdpp Require Import base option list gmap strings fin_maps sorting.

Local Open Scope nat_scope.
#[local] Set Warnings "-clear-no-such-hyp".


(** ** Protobuf messages *)

(** caffe2_pb2.DeviceOption, a proto2 message: every field is optional and
    equality of messages compares the fields that are set (the fields are
    those that [DeviceOption], core.py:103-109, assigns). *)
Record DeviceOption := mkDeviceOption {
  device_type : option Z;
  cuda_gpu_id : option Z;
  random_seed : option Z
}.

#[export] Instance DeviceOption_eq_dec : EqDecision DeviceOption.
Proof. solve_decision. Defined.

(** The default instance that reading an unset message field returns. *)
Definition default_device_option : DeviceOption := mkDeviceOption None None None.

(** The value of an argument built by utils.MakeArgument. *)
Inductive ArgValue :=
| ArgFloat (f : Q)
| ArgInt (i : Z).

Record Argument := mkArgument { arg_name : string; arg_value : ArgValue }.

(** caffe2_pb2.OperatorDef, with the fields this module reads or writes.
    [device_option = None] is [not op.HasField('device_option')]. *)
Record OperatorDef := mkOperatorDef {
  type : string;
  name : string;
  input : list string;
  output : list string;
  device_option : option DeviceOption;
  arg : list Argument
}.

(** [op.device_option] read as an attribute. *)
Definition device_option_of (op : OperatorDef) : DeviceOption :=
  default default_device_option (device_option op).

Definition set_output (op : OperatorDef) (outs : list string) : OperatorDef :=
  mkOperatorDef (type op) (name op) (input op) outs (device_option op) (arg op).

Definition set_device_option (op : OperatorDef) (d : DeviceOption) : OperatorDef :=
  mkOperatorDef (type op) (name op) (input op) (output op) (Some d) (arg op).

(** ** Gradient wrappers: [None], a dense name, or a [GradientSlice] *)

Inductive Grad :=
| Dense (g : string)
| GradientSlice (indices values : string).

#[export] Instance Grad_eq_dec : EqDecision Grad.
Proof. solve_decision. Defined.

(** ** Exceptions and the result monad *)

Inductive Exn :=
  (* CheckGradientOperatorInput *)
| GradientNameVersion (grad_op_input : string) (expected : nat)
    (original_name : string) (current : nat)
| OutputVersion (grad_op_input : string) (expected current : nat)
| InputVersion (grad_op_input : string) (expected current : nat)
| NotInScope (grad_op_input : string) (forward_op : OperatorDef)
  (* _VerifyGradientGenerators, and its wrapper in DoGradientAccumulation *)
| MixedSparseDense
| GradNamesDiffer
| DeviceOptionsDiffer
| FailedToVerify (input_name : string) (err : Exn)
  (* _CheckSumOpsConflict *)
| SumOpsConflict
  (* GradientRegistry.GetGradientForOp *)
| NoGradientRegistered (op_type : string) (native : Exn)
  (* built-in exceptions *)
| KeyError (key : string)
| IndexError
| AssertionError
| TypeError (msg : string)
| ValueError (msg : string)
| OtherException (msg : string)
  (* not a Python exception: an address outside the heap, which no run of
     the code produces *)
| Dangling (r : nat).

(** [isinstance(e, RuntimeError)]. *)
Definition is_RuntimeError (e : Exn) : bool :=
  match e with
  | GradientNameVersion _ _ _ _ | OutputVersion _ _ _ | InputVersion _ _ _
  | NotInScope _ _ | MixedSparseDense | GradNamesDiffer | DeviceOptionsDiffer
  | FailedToVerify _ _ | SumOpsConflict => true
  | _ => false
  end.

Definition is_KeyError (e : Exn) : bool :=
  match e with KeyError _ => true | _ => false end.

Inductive Res (A : Type) :=
| Ok (a : A)
| Raise (e : Exn).
Arguments Ok {A} a.
Arguments Raise {A} e.

Definition bind {A B} (m : Res A) (k : A -> Res B) : Res B :=
  match m with Ok a => k a | Raise e => Raise e end.

Notation "'let*' x ':=' m 'in' k" := (bind m (fun x => k))
  (at level 10, x pattern, m at level 100, k at level 200).

Definition assert (b : bool) : Res unit :=
  if b then Ok tt else Raise AssertionError.

(** [l[i]] on a list or repeated field. *)
Definition index {A} (l : list A) (i : nat) : Res A :=
  match l !! i with Some x => Ok x | None => Raise IndexError end.

(** [d[k]] on a plain dict with string keys. *)
Definition getitem {A} (d : gmap string A) (k : string) : Res A :=
  match d !! k with Some x => Ok x | None => Raise (KeyError k) end.

(** ** Strings *)

(** ['{}'.format(n)] and ['%d' % n] for a non-negative integer. *)
Definition str_nat (n : nat) : string := NilEmpty.string_of_uint (Nat.to_uint n).

(** [s.endswith(suffix)]. *)
Definition endswith (s suffix : string) : bool :=
  let n := String.length s in
  let k := String.length suffix in
  (k <=? n) && String.eqb (substring (n - k) k s) suffix.

(** [remove_suffix] local to _GetSumOpOutputName: [s[:-len(suffix)]], where
    the slice [s[:-0]] is the empty string. *)
Definition remove_suffix (s suffix : string) : string :=
  if endswith s suffix then
    match String.length suffix with
    | 0 => ""
    | k => substring 0 (String.length s - k) s
    end
  else s.

(** ** The IR *)

Record OpSSA := mkOpSSA {
  op : OperatorDef;
  in_versions : gmap string nat;
  out_versions : gmap string nat
}.

(** A gradient operator is referred to by its address in the heap. *)
Abbreviation ref := nat.
Abbreviation Heap := (list OperatorDef).

Inductive Generator :=
| GradGenMeta (grad_op : option ref) (idx : nat) (gradient : string)
| SparseGradGenMeta (grad_op_indices : option ref) (idx_indices : nat)
    (grad_op_values : option ref) (idx_values : nat)
    (gradient : string * string).

Definition is_dense (g : Generator) : bool :=
  match g with GradGenMeta _ _ _ => true | _ => false end.

(** The state of an [IR] object.  [input_usages] and [gradient_generators]
    are nested defaultdicts whose membership is never tested, so they are
    maps from (blob, version) that read as the empty list where unset.
    [frontier] is a [defaultdict(int)] whose membership [Play] does test:
    reading a missing key inserts it with 0. *)
Record IR := mkIR {
  ssa : list OpSSA;
  input_usages : gmap (string * nat) (list nat);
  frontier : gmap string nat;
  gradient_frontier : gmap string nat;
  gradient_generators : gmap (string * nat) (list Generator)
}.

Definition usages_of (u : gmap (string * nat) (list nat)) (s : string) (v : nat)
  : list nat := default [] (u !! (s, v)).

Definition generators_of (gg : gmap (string * nat) (list Generator))
  (s : string) (v : nat) : list Generator := default [] (gg !! (s, v)).

(** [self.frontier[s]]: the value, and the dict after the read. *)
Definition frontier_read (fr : gmap string nat) (s : string)
  : gmap string nat * nat :=
  match fr !! s with
  | Some v => (fr, v)
  | None => (<[s := 0]> fr, 0)
  end.

Definition frontier_value (fr : gmap string nat) (s : string) : nat :=
  default 0 (fr !! s).

(** The loop over [op.input] of [Play]; [pos] is [len(self.ssa)]. *)
Fixpoint play_inputs (pos : nat) (ins : list string)
  (st : gmap string nat * gmap string nat * gmap (string * nat) (list nat))
  : gmap string nat * gmap string nat * gmap (string * nat) (list nat) :=
  match ins with
  | [] => st
  | s :: rest =>
      let '(in_v, fr, usages) := st in
      let '(fr1, v) := frontier_read fr s in
      play_inputs pos rest
        (<[s := v]> in_v, fr1, <[(s, v) := usages_of usages s v ++ [pos]]> usages)
  end.

(** The loop over [op.output] of [Play]. *)
Fixpoint play_outputs (outs : list string)
  (st : gmap string nat * gmap string nat)
  : gmap string nat * gmap string nat :=
  match outs with
  | [] => st
  | s :: rest =>
      let '(out_v, fr) := st in
      let fr1 := match fr !! s with
                 | Some v => <[s := v + 1]> fr
                 | None => fr
                 end in
      let '(fr2, v) := frontier_read fr1 s in
      play_outputs rest (<[s := v]> out_v, fr2)
  end.

Definition Play (ir : IR) (o : OperatorDef) : IR :=
  let '(in_v, fr1, usages) :=
    play_inputs (length (ssa ir)) (input o) (∅, frontier ir, input_usages ir) in
  let '(out_v, fr2) := play_outputs (output o) (∅, fr1) in
  mkIR (ssa ir ++ [mkOpSSA o in_v out_v]) usages fr2
       (gradient_frontier ir) (gradient_generators ir).

Definition empty_IR : IR := mkIR [] ∅ ∅ ∅ ∅.

(** [IR.__init__]. *)
Definition IR_init (operators : list OperatorDef) : IR :=
  fold_left Play operators empty_IR.

(** ** Blob arguments and CreateOperator *)

(** What the callers pass as a blob: a raw string or a [BlobReference]. *)
Inductive Blob :=
| Str (s : string)
| BlobReference (s : string).

Definition str (b : Blob) : string :=
  match b with Str s | BlobReference s => s end.

(** The [inputs] and [outputs] arguments: a single blob or a list of them
    (the code targets Python 2, where [map] returns a list). *)
Inductive Blobs :=
| One (b : Blob)
| Many (l : list Blob).

(** [GetIndexFromGradientList]. *)
Fixpoint GetIndexFromGradientList_from (i : nat) (g_list : list (option Grad))
  (n : string) : option nat :=
  match g_list with
  | [] => None
  | g :: rest =>
      match g with
      | Some (Dense d) =>
          if decide (d = n) then Some i
          else GetIndexFromGradientList_from (S i) rest n
      | Some (GradientSlice gi gv) =>
          if decide (gi = n ∨ gv = n) then Some i
          else GetIndexFromGradientList_from (S i) rest n
      | None => GetIndexFromGradientList_from (S i) rest n
      end
  end.

Definition GetIndexFromGradientList (g_list : list (option Grad)) (n : string)
  : option nat := GetIndexFromGradientList_from 0 g_list n.

(** [not g] for a gradient wrapper: [None] and the empty string are false. *)
Definition falsy (g : option Grad) : bool :=
  match g with
  | None => true
  | Some (Dense d) => bool_decide (d = EmptyString)
  | Some (GradientSlice _ _) => false
  end.

(** Insertion-ordered dict from (blob, version) to a list, as
    [sparse_generators] of BuildGradientGenerators is used: append to the
    list at a key, creating the key at the end when it is new. *)
Fixpoint alist_append {A} (k : string * nat) (x : A)
  (d : list ((string * nat) * list A)) : list ((string * nat) * list A) :=
  match d with
  | [] => [(k, [x])]
  | (k', l) :: rest =>
      if decide (k' = k) then (k', l ++ [x]) :: rest
      else (k', l) :: alist_append k x rest
  end.

Definition append_generator (gg : gmap (string * nat) (list Generator))
  (s : string) (v : nat) (g : Generator) : gmap (string * nat) (list Generator) :=
  <[(s, v) := generators_of gg s v ++ [g]]> gg.

Definition set_frontier (ir : IR) (fr : gmap string nat) : IR :=
  mkIR (ssa ir) (input_usages ir) fr (gradient_frontier ir) (gradient_generators ir).

Definition set_gradient_frontier (ir : IR) (gf : gmap string nat) : IR :=
  mkIR (ssa ir) (input_usages ir) (frontier ir) gf (gradient_generators ir).

Definition set_gradient_generators (ir : IR)
  (gg : gmap (string * nat) (list Generator)) : IR :=
  mkIR (ssa ir) (input_usages ir) (frontier ir) (gradient_frontier ir) gg.

(** [IR.CheckGradientOperatorInput]; the IR it returns differs from [ir]
    only by the keys that reading [self.frontier] inserted. *)
Definition CheckGradientOperatorInput (ir : IR) (grad_op_input : string)
  (g_output : list (option Grad)) (fwd_op_idx : nat)
  (locally_generated_blobs : list string) : Res IR :=
  let* e := index (ssa ir) fwd_op_idx in
  match GetIndexFromGradientList g_output grad_op_input with
  | Some original_index =>
      let* original_name := index (output (op e)) original_index in
      let* ov := getitem (out_versions e) original_name in
      let* gf := getitem (gradient_frontier ir) original_name in
      if decide (ov ≠ gf)
      then Raise (GradientNameVersion grad_op_input ov original_name gf)
      else Ok ir
  | None =>
      match out_versions e !! grad_op_input with
      | Some ov =>
          let '(fr, v) := frontier_read (frontier ir) grad_op_input in
          if decide (v ≠ ov)
          then Raise (OutputVersion grad_op_input ov v)
          else Ok (set_frontier ir fr)
      | None =>
          match in_versions e !! grad_op_input with
          | Some iv =>
              let '(fr, v) := frontier_read (frontier ir) grad_op_input in
              if decide (v ≠ iv)
              then Raise (InputVersion grad_op_input iv v)
              else Ok (set_frontier ir fr)
          | None =>
              if decide (grad_op_input ∈ locally_generated_blobs)
              then Ok ir
              else Raise (NotInScope grad_op_input (op e))
          end
      end
  end.

(** The generator that AppendSparseGenerators appends for one key. *)
Definition merge_sparse (generators : list Generator) : Res Generator :=
  match generators with
  | [generator] => Ok generator
  | _ =>
      let* _ := assert (bool_decide (length generators = 2)) in
      match generators with
      | [SparseGradGenMeta op1_i idx1_i op1_v idx1_v g1;
         SparseGradGenMeta op2_i idx2_i op2_v idx2_v g2] =>
          let* _ := assert (bool_decide (g1 = g2)) in
          let* _ := assert (bool_decide (op1_i = None ∨ op2_i = None)) in
          let* _ := assert (bool_decide (op1_v = None ∨ op2_v = None)) in
          let* _ := assert (bool_decide (idx1_i = 0 ∨ idx2_i = 0)) in
          let* _ := assert (bool_decide (idx1_v = 0 ∨ idx2_v = 0)) in
          Ok (SparseGradGenMeta
                (match op1_i with Some o => Some o | None => op2_i end)
                (idx1_i + idx2_i)
                (match op1_v with Some o => Some o | None => op2_v end)
                (idx1_v + idx2_v)
                g1)
      | _ => Raise (ValueError "need more than 3 values to unpack")
      end
  end.

(** [IR.AppendSparseGenerators]. *)
Fixpoint AppendSparseGenerators (ir : IR)
  (sparse_generators : list ((string * nat) * list Generator)) : Res IR :=
  match sparse_generators with
  | [] => Ok ir
  | ((n, version), generators) :: rest =>
      let* generator := merge_sparse generators in
      AppendSparseGenerators
        (set_gradient_generators ir
           (append_generator (gradient_generators ir) n version generator))
        rest
  end.

(** Step (1) of BuildGradientGenerators: check every input of a gradient
    operator. *)
Fixpoint check_inputs (ir : IR) (ins : list string)
  (g_output : list (option Grad)) (fwd_op_idx : nat)
  (locally_generated_blobs : list string) : Res IR :=
  match ins with
  | [] => Ok ir
  | s :: rest =>
      let* ir1 := CheckGradientOperatorInput ir s g_output fwd_op_idx
                    locally_generated_blobs in
      check_inputs ir1 rest g_output fwd_op_idx locally_generated_blobs
  end.

(** Step (2): the loop over [enumerate(grad_op.output)], from index [i]. *)
Fixpoint record_outputs (e : OpSSA) (g_input : list (option Grad))
  (grad_op : ref) (i : nat) (outs : list string)
  (st : gmap (string * nat) (list Generator)
        * list ((string * nat) * list Generator))
  : Res (gmap (string * nat) (list Generator)
         * list ((string * nat) * list Generator)) :=
  match outs with
  | [] => Ok st
  | out :: rest =>
      let '(gg, sparse_generators) := st in
      match GetIndexFromGradientList g_input out with
      | Some input_index =>
          let* input_name := index (input (op e)) input_index in
          let* input_version := getitem (in_versions e) input_name in
          let* g := index g_input input_index in
          match g with
          | Some (GradientSlice gi gv) =>
              let* m :=
                if decide (gi = out)
                then Ok (SparseGradGenMeta (Some grad_op) i None 0 (gi, gv))
                else let* _ := assert (bool_decide (gv = out)) in
                     Ok (SparseGradGenMeta None 0 (Some grad_op) i (gi, gv)) in
              record_outputs e g_input grad_op (S i) rest
                (gg, alist_append (input_name, input_version) m sparse_generators)
          | Some (Dense d) =>
              record_outputs e g_input grad_op (S i) rest
                (append_generator gg input_name input_version
                   (GradGenMeta (Some grad_op) i d),
                 sparse_generators)
          | None =>
              (* not reached: the index found is that of a wrapper *)
              Raise (TypeError "NoneType")
          end
      | None => record_outputs e g_input grad_op (S i) rest st
      end
  end.

(** The loop over [gradient_ops]; the operator at position k of the list
    is the object at address [addr + k]. *)
Fixpoint build_ops (e : OpSSA) (fwd_op_idx : nat)
  (g_output g_input : list (option Grad)) (addr : ref)
  (gradient_ops : list OperatorDef)
  (st : IR * list string * list ((string * nat) * list Generator))
  : Res (IR * list string * list ((string * nat) * list Generator)) :=
  match gradient_ops with
  | [] => Ok st
  | grad_op :: rest =>
      let '(ir, locally_generated_blobs, sparse_generators) := st in
      let* ir1 := check_inputs ir (input grad_op) g_output fwd_op_idx
                    locally_generated_blobs in
      let locally_generated_blobs1 := locally_generated_blobs ++ output grad_op in
      let* (gg, sparse_generators1) :=
        record_outputs e g_input addr 0 (output grad_op)
          (gradient_generators ir1, sparse_generators) in
      build_ops e fwd_op_idx g_output g_input (S addr) rest
        (set_gradient_generators ir1 gg, locally_generated_blobs1,
         sparse_generators1)
  end.

(** Step (4): gradients passed through from the inputs. *)
Fixpoint passthrough (e : OpSSA) (locally_generated_blobs : list string)
  (input_index : nat) (g_input : list (option Grad))
  (gg : gmap (string * nat) (list Generator))
  : Res (gmap (string * nat) (list Generator)) :=
  match g_input with
  | [] => Ok gg
  | g :: rest =>
      let* input_name := index (input (op e)) input_index in
      let* input_version := getitem (in_versions e) input_name in
      let gg1 :=
        if falsy g then gg
        else match g with
             | Some (GradientSlice gi gv) =>
                 if decide ((gi ∉ locally_generated_blobs)
                            ∧ (gv ∉ locally_generated_blobs))
                 then append_generator gg input_name input_version
                        (SparseGradGenMeta None 0 None 0 (gi, gv))
                 else gg
             | Some (Dense d) =>
                 if decide (d ∉ locally_generated_blobs)
                 then append_generator gg input_name input_version
                        (GradGenMeta None 0 d)
                 else gg
             | None => gg
             end in
      passthrough e locally_generated_blobs (S input_index) rest gg1
  end.

(** The last loop: the gradient frontier of every input with a gradient. *)
Fixpoint update_gradient_frontier (e : OpSSA) (i : nat)
  (g_input : list (option Grad)) (gf : gmap string nat)
  : Res (gmap string nat) :=
  match g_input with
  | [] => Ok gf
  | g :: rest =>
      match g with
      | Some _ =>
          let* input_name := index (input (op e)) i in
          let* input_version := getitem (in_versions e) input_name in
          update_gradient_frontier e (S i) rest (<[input_name := input_version]> gf)
      | None => update_gradient_frontier e (S i) rest gf
      end
  end.

(** [IR.BuildGradientGenerators]; [addr] is the address of the first
    operator of [gradient_ops]. *)
Definition BuildGradientGenerators (ir : IR) (fwd_op_idx : nat) (addr : ref)
  (gradient_ops : list OperatorDef) (g_output g_input : list (option Grad))
  : Res IR :=
  let* e := index (ssa ir) fwd_op_idx in
  let* (ir1, locally_generated_blobs, sparse_generators) :=
    build_ops e fwd_op_idx g_output g_input addr gradient_ops (ir, [], []) in
  let* ir2 := AppendSparseGenerators ir1 sparse_generators in
  let* gg := passthrough e locally_generated_blobs 0 g_input
               (gradient_generators ir2) in
  let* gf := update_gradient_frontier e 0 g_input (gradient_frontier ir2) in
  Ok (set_gradient_frontier (set_gradient_generators ir2 gg) gf).

(** ** Objects in the heap *)

Definition deref (heap : Heap) (r : ref) : Res OperatorDef :=
  match heap !! r with Some o => Ok o | None => Raise (Dangling r) end.

(** The name of output [idx] of the operator at [r]. *)
Definition output_at (heap : Heap) (r : ref) (idx : nat) : Res string :=
  let* o := deref heap r in index (output o) idx.

(** [IR._DisambiguateGradOpOutput]: renames the output in place. *)
Definition _DisambiguateGradOpOutput (heap : Heap) (grad_op : ref) (idx cnt : nat)
  : Res (Heap * string * nat) :=
  let* o := deref heap grad_op in
  let* old := index (output o) idx in
  let new := "_" +:+ old +:+ "_autosplit_" +:+ str_nat cnt in
  Ok (<[grad_op := set_output o (<[idx := new]> (output o))]> heap, new, cnt + 1).

(** [IR._CheckSumOpsConflict]. *)
Definition _CheckSumOpsConflict (out_base_name g : string) : Res unit :=
  if decide (out_base_name = g) then Raise SumOpsConflict else Ok tt.

(** [IR._GetSumOpOutputName]. *)
Fixpoint _GetSumOpOutputName (heap : Heap) (generator : list Generator)
  (input_name : string) : Res string :=
  match generator with
  | [] => Ok (input_name +:+ "_grad")
  | GradGenMeta (Some grad_op) idx _ :: _ => output_at heap grad_op idx
  | SparseGradGenMeta (Some op_i) idx_i _ _ _ :: _ =>
      let* o := output_at heap op_i idx_i in Ok (remove_suffix o "_indices")
  | SparseGradGenMeta None _ (Some op_v) idx_v _ :: _ =>
      let* o := output_at heap op_v idx_v in Ok (remove_suffix o "_values")
  | _ :: rest => _GetSumOpOutputName heap rest input_name
  end.

(** The operator whose placement a generator offers to
    _SetSumOpsDeviceOption. *)
Definition placement_op (g : Generator) : option ref :=
  match g with
  | GradGenMeta grad_op _ _ => grad_op
  | SparseGradGenMeta grad_op_indices _ grad_op_values _ _ =>
      match grad_op_values with
      | Some o => Some o
      | None => grad_op_indices
      end
  end.

(** [IR._SetSumOpsDeviceOption]: the operators of [sum_ops] after the call. *)
Fixpoint _SetSumOpsDeviceOption (heap : Heap) (sum_ops : list OperatorDef)
  (generators : list Generator) : Res (list OperatorDef) :=
  match generators with
  | [] => Ok sum_ops
  | generator :: rest =>
      match placement_op generator with
      | Some grad_op =>
          let* o := deref heap grad_op in
          match device_option o with
          | Some d => Ok (map (fun s => set_device_option s d) sum_ops)
          | None => Ok sum_ops
          end
      | None => _SetSumOpsDeviceOption heap sum_ops rest
      end
  end.

(** [IR._VerifyGradientGenerators], after the check on the types: the
    gradient names and the device options that the loop collects. *)
Fixpoint collect_names_devices (heap : Heap) (generator : list Generator)
  : Res (list string * list DeviceOption) :=
  match generator with
  | [] => Ok ([], [])
  | g :: rest =>
      let* (names1, devices1) :=
        match g with
        | GradGenMeta (Some grad_op) _ gradient =>
            let* o := deref heap grad_op in
            Ok ([gradient], [device_option_of o])
        | GradGenMeta None _ _ => Ok ([], [])
        | SparseGradGenMeta grad_op_indices _ grad_op_values _ gradient =>
            let* di :=
              match grad_op_indices with
              | Some r => let* o := deref heap r in Ok [device_option_of o]
              | None => Ok []
              end in
            match grad_op_values with
            | Some r => let* o := deref heap r in
                        Ok ([gradient.2], di ++ [device_option_of o])
            | None => Ok ([], di)
            end
        end in
      let* (names2, devices2) := collect_names_devices heap rest in
      Ok (names1 ++ names2, devices1 ++ devices2)
  end.

Definition mixed (generator : list Generator) : bool :=
  existsb is_dense generator && existsb (fun g => negb (is_dense g)) generator.

Definition _VerifyGradientGenerators (heap : Heap) (generator : list Generator)
  : Res bool :=
  if mixed generator then Raise MixedSparseDense
  else if length generator <? 2 then Ok false
  else
    let* (all_gradient_names, all_device_options) :=
      collect_names_devices heap generator in
    if 1 <? length (remove_dups all_gradient_names) then Raise GradNamesDiffer
    else
      match all_device_options with
      | d0 :: ((_ :: _) as rest) =>
          if forallb (fun d => bool_decide (d = d0)) rest
          then Ok true
          else Raise DeviceOptionsDiffer
      | _ => Ok true
      end.

(** What a gradient rule returns for the operators: [None], a single
    operator, or a list. *)
Inductive RuleOps :=
| OpsNone
| OpsSingle (o : OperatorDef)
| OpsList (l : list OperatorDef).

Abbreviation Rule :=
  (OperatorDef -> list (option Grad) -> Res (RuleOps * list (option Grad))).

(** ** Operators built by this module *)

Section Construction.

(** [scope.CurrentNameScope()] and [scope.CurrentDeviceScope()] at the time
    of the call: the scope module is ambient state of the caller. *)
Variable CurrentNameScope : string.
Variable CurrentDeviceScope : option DeviceOption.

(** [ScopedName]. *)
Definition ScopedName (n : string) : string := CurrentNameScope +:+ n.

(** [_RectifyInputOutput], followed by the [str] that CreateOperator
    applies to every blob: a raw string gets the name scope, a
    BlobReference is taken as it is. *)
Definition rectify_blob (b : Blob) : string :=
  match b with
  | Str s => ScopedName s
  | BlobReference s => s
  end.

Definition _RectifyInputOutput (blobs : Blobs) : list string :=
  match blobs with
  | One b => [rectify_blob b]
  | Many l => map rectify_blob l
  end.

(** [CreateOperator], as this module calls it: without [name],
    [control_input], [device_option], [arg], [engine] or a random seed;
    [kwargs] are the remaining keyword arguments.  Running the operator at
    once in immediate mode is an effect on the workspace, outside this
    model. *)
Definition CreateOperator (operator_type : string) (inputs outputs : Blobs)
  (kwargs : list (string * ArgValue)) : OperatorDef :=
  mkOperatorDef operator_type ""
    (_RectifyInputOutput inputs) (_RectifyInputOutput outputs)
    CurrentDeviceScope
    (map (fun kv => mkArgument kv.1 kv.2) kwargs).

(** The loop of _MakeDenseSumOps. *)
Fixpoint dense_inputs (heap : Heap) (generators : list Generator)
  (out_base_name : string) (cnt : nat) (sum_op_input : list string)
  : Res (Heap * list string) :=
  match generators with
  | [] => Ok (heap, sum_op_input)
  | GradGenMeta (Some grad_op) idx _ :: rest =>
      let* (heap1, out, cnt1) := _DisambiguateGradOpOutput heap grad_op idx cnt in
      dense_inputs heap1 rest out_base_name cnt1 (sum_op_input ++ [out])
  | GradGenMeta None _ g :: rest =>
      let* _ := _CheckSumOpsConflict out_base_name g in
      dense_inputs heap rest out_base_name cnt (sum_op_input ++ [g])
  | SparseGradGenMeta _ _ _ _ _ :: _ =>
      Raise (ValueError "too many values to unpack")
  end.

(** [IR._MakeDenseSumOps]. *)
Definition _MakeDenseSumOps (heap : Heap) (generators : list Generator)
  (out_base_name : string) : Res (Heap * list OperatorDef * Grad) :=
  let* (heap1, sum_op_input) := dense_inputs heap generators out_base_name 0 [] in
  Ok (heap1,
      [CreateOperator "Sum" (Many (map BlobReference sum_op_input))
         (One (BlobReference out_base_name)) []],
      Dense out_base_name).

(** One side (indices or values) of a sparse generator in the loop of
    _MakeSparseSumOps. *)
Definition sparse_side (heap : Heap) (o : option ref) (idx cnt : nat)
  (out_base_name literal : string) : Res (Heap * string * nat) :=
  match o with
  | Some r => _DisambiguateGradOpOutput heap r idx cnt
  | None =>
      let* _ := _CheckSumOpsConflict out_base_name literal in
      Ok (heap, literal, cnt)
  end.

Fixpoint sparse_inputs (heap : Heap) (generators : list Generator)
  (out_base_name : string) (cnt_i cnt_v : nat)
  (indices_concat_input values_concat_input : list string)
  : Res (Heap * list string * list string) :=
  match generators with
  | [] => Ok (heap, indices_concat_input, values_concat_input)
  | SparseGradGenMeta op_i idx_i op_v idx_v g :: rest =>
      let* (heap1, out_i, cnt_i1) :=
        sparse_side heap op_i idx_i cnt_i out_base_name g.1 in
      let* (heap2, out_v, cnt_v1) :=
        sparse_side heap1 op_v idx_v cnt_v out_base_name g.2 in
      sparse_inputs heap2 rest out_base_name cnt_i1 cnt_v1
        (indices_concat_input ++ [out_i]) (values_concat_input ++ [out_v])
  | GradGenMeta _ _ _ :: _ => Raise AssertionError
  end.

(** [IR._MakeSparseSumOps]. *)
Definition _MakeSparseSumOps (heap : Heap) (generators : list Generator)
  (out_base_name : string) : Res (Heap * list OperatorDef * Grad) :=
  let* (heap1, indices_concat_input, values_concat_input) :=
    sparse_inputs heap generators out_base_name 0 0 [] [] in
  let indices_concat_output := out_base_name +:+ "_indices_concat" in
  let indices_concat_split := out_base_name +:+ "_indices_concat_split" in
  let values_concat_output := out_base_name +:+ "_values_concat" in
  let values_concat_split := out_base_name +:+ "_values_concat_split" in
  Ok (heap1,
      [CreateOperator "Concat" (Many (map BlobReference indices_concat_input))
         (Many (map BlobReference [indices_concat_output; indices_concat_split]))
         [("axis", ArgInt 0)];
       CreateOperator "Concat" (Many (map BlobReference values_concat_input))
         (Many (map BlobReference [values_concat_output; values_concat_split]))
         [("axis", ArgInt 0)]],
      GradientSlice indices_concat_output values_concat_output).

(** [IR._MakeSumOps]. *)
Definition _MakeSumOps (heap : Heap) (ir : IR) (input_name : string)
  (input_version : nat) : Res (Heap * list OperatorDef * Grad) :=
  let generators := generators_of (gradient_generators ir) input_name input_version in
  let* out_base_name := _GetSumOpOutputName heap generators input_name in
  let* _ := assert (negb (mixed generators)
                    && negb (bool_decide (generators = []))) in
  let* (heap1, sum_ops, g) :=
    match generators with
    | GradGenMeta _ _ _ :: _ => _MakeDenseSumOps heap generators out_base_name
    | _ => _MakeSparseSumOps heap generators out_base_name
    end in
  let* sum_ops1 := _SetSumOpsDeviceOption heap1 sum_ops generators in
  Ok (heap1, sum_ops1, g).

(** The order in which Python iterates over [set(forward_op.input)]: it
    depends on the hashes of the names. *)
Variable set_order : list string -> list string.

(** The body of the loop of DoGradientAccumulation for one input name:
    [None] is [continue]. *)
Definition accumulate_input (heap : Heap) (ir : IR) (e : OpSSA)
  (fwd_op_idx : nat) (input_name : string)
  : Res (option (Heap * list OperatorDef * Grad)) :=
  let* input_version := getitem (in_versions e) input_name in
  let input_usage := usages_of (input_usages ir) input_name input_version in
  if (length input_usage <=? 1)
     || negb (bool_decide (input_usage !! 0 = Some fwd_op_idx))
  then Ok None
  else
    let generator :=
      generators_of (gradient_generators ir) input_name input_version in
    let* verified :=
      match _VerifyGradientGenerators heap generator with
      | Ok b => Ok b
      | Raise err =>
          if is_RuntimeError err then Raise (FailedToVerify input_name err)
          else Raise err
      end in
    if negb verified then Ok None
    else
      let* r := _MakeSumOps heap ir input_name input_version in
      Ok (Some r).

Fixpoint accumulate (ir : IR) (e : OpSSA) (fwd_op_idx : nat)
  (names : list string)
  (st : Heap * list OperatorDef * gmap string Grad)
  : Res (Heap * list OperatorDef * gmap string Grad) :=
  match names with
  | [] => Ok st
  | input_name :: rest =>
      let '(heap, additional_sum_ops, grad_map) := st in
      let* r := accumulate_input heap ir e fwd_op_idx input_name in
      match r with
      | None => accumulate ir e fwd_op_idx rest st
      | Some (heap1, sum_ops, g) =>
          accumulate ir e fwd_op_idx rest
            (heap1, additional_sum_ops ++ sum_ops, <[input_name := g]> grad_map)
      end
  end.

(** [IR.DoGradientAccumulation]. *)
Definition DoGradientAccumulation (heap : Heap) (ir : IR) (fwd_op_idx : nat)
  : Res (Heap * list OperatorDef * gmap string Grad) :=
  let* e := index (ssa ir) fwd_op_idx in
  accumulate ir e fwd_op_idx (set_order (input (op e))) (heap, [], ∅).

(** [IR._GetInitGradients]; [ys] are the items of the dict. *)
Fixpoint _GetInitGradients (ys : list (Blob * option Grad))
  (st : gmap string (option Grad) * list OperatorDef)
  : Res (gmap string (option Grad) * list OperatorDef) :=
  match ys with
  | [] => Ok st
  | (y, g) :: rest =>
      let '(input_to_grad, gradient_ops) := st in
      match g with
      | None =>
          let autograd_op :=
            CreateOperator "ConstantFill" (Many [y])
              (Many [Str (str y +:+ "_autogen_grad")])
              [("value", ArgFloat 1)] in
          let* g1 := index (output autograd_op) 0 in
          _GetInitGradients rest
            (<[str y := Some (Dense g1)]> input_to_grad,
             gradient_ops ++ [autograd_op])
      | Some g1 =>
          _GetInitGradients rest (<[str y := Some g1]> input_to_grad, gradient_ops)
      end
  end.

(** ** GradientRegistry *)

(** [GradientRegistry._GetGradientForOpCC], the rules of the C++ extension
    module, and the class attribute [gradient_registry_]. *)
Variable _GetGradientForOpCC : Rule.
Variable gradient_registry_ : gmap string Rule.

(** [GradientRegistry.GetGradientForOp]. *)
Definition GetGradientForOp (o : OperatorDef) (g_output : list (option Grad))
  : Res (list OperatorDef * list (option Grad)) :=
  let* (gradient_ops, g_input) :=
    match _GetGradientForOpCC o g_output with
    | Ok r => Ok r
    | Raise e =>
        let python :=
          let* rule := getitem gradient_registry_ (type o) in
          rule o g_output in
        match python with
        | Ok r => Ok r
        | Raise e1 =>
            if is_KeyError e1
            then Raise (NoGradientRegistered (type o) e)
            else Raise e1
        end
    end in
  match gradient_ops with
  | OpsNone => Ok ([], g_input)
  | OpsSingle g => Ok ([g], g_input)
  | OpsList l => Ok (l, g_input)
  end.

(** ** The backward pass *)

(** The loop over [zip(forward_op.input, g_input)] of
    _GenerateGradientsForForwardOp. *)
Fixpoint record_gradient_map (forward_op : OperatorDef)
  (input_to_grad : gmap string (option Grad))
  (names : list string) (g_input : list (option Grad))
  (new_input_to_grad : gmap string (option Grad))
  : gmap string (option Grad) :=
  match names, g_input with
  | n :: names1, grad :: g_input1 =>
      record_gradient_map forward_op input_to_grad names1 g_input1
        (if bool_decide (grad ≠ None)
            || bool_decide (input_to_grad !! n = None)
            || bool_decide (n ∈ output forward_op)
         then <[n := grad]> new_input_to_grad
         else new_input_to_grad)
  | _, _ => new_input_to_grad
  end.

(** [IR._GenerateGradientsForForwardOp]; [addr] is the address that the
    first operator of the rule gets when the caller appends the operators
    to [all_gradient_ops].  The operators that a rule returns are taken to
    be distinct objects, as those that the native side parses are. *)
Definition _GenerateGradientsForForwardOp (addr : ref) (ir : IR)
  (forward_op_idx : nat) (input_to_grad : gmap string (option Grad))
  : Res (IR * gmap string (option Grad) * list OperatorDef) :=
  let* e := index (ssa ir) forward_op_idx in
  let g_output :=
    map (fun n => default None (input_to_grad !! n)) (output (op e)) in
  if forallb (fun g => bool_decide (g = None)) g_output
  then Ok (ir, ∅, [])
  else
    let* (gradient_ops, g_input) := GetGradientForOp (op e) g_output in
    let* ir1 := BuildGradientGenerators ir forward_op_idx addr gradient_ops
                  g_output g_input in
    Ok (ir1,
        record_gradient_map (op e) input_to_grad (input (op e)) g_input ∅,
        gradient_ops).

(** [ys] as GetBackwardPass receives it: a list of blobs, a dict (its
    items, in the order in which the dict iterates), or a value of another
    type. *)
Inductive Targets :=
| YsList (l : list Blob)
| YsDict (items : list (Blob * option Grad))
| YsOther.

(** The keys of [dict((y, None) for y in ys)] in the order of their
    insertion: a blob equal to an earlier key is not a new key. *)
Fixpoint dict_of_list (l : list Blob) (seen : list string)
  : list (Blob * option Grad) :=
  match l with
  | [] => []
  | y :: rest =>
      if decide (str y ∈ seen) then dict_of_list rest seen
      else (y, None) :: dict_of_list rest (str y :: seen)
  end.

(** [self.gradient_frontier[y] = self.frontier[y]] for every target. *)
Fixpoint init_gradient_frontier (ys : list (Blob * option Grad)) (ir : IR) : IR :=
  match ys with
  | [] => ir
  | (y, _) :: rest =>
      let '(fr, v) := frontier_read (frontier ir) (str y) in
      init_gradient_frontier rest
        (set_gradient_frontier (set_frontier ir fr)
           (<[str y := v]> (gradient_frontier ir)))
  end.

(** The loop over the forward operators, last to first.  The operators
    emitted so far, [all_gradient_ops], are the heap: DoGradientAccumulation
    renames outputs of operators that are already in the list. *)
Fixpoint backward (idxs : list nat)
  (st : IR * gmap string (option Grad) * Heap)
  : Res (IR * gmap string (option Grad) * Heap) :=
  match idxs with
  | [] => Ok st
  | forward_op_idx :: rest =>
      let '(ir, all_input_to_grad, all_gradient_ops) := st in
      let* (ir1, input_to_grad, gradient_ops) :=
        _GenerateGradientsForForwardOp (length all_gradient_ops) ir
          forward_op_idx all_input_to_grad in
      let all_input_to_grad1 := input_to_grad ∪ all_input_to_grad in
      let all_gradient_ops1 := all_gradient_ops ++ gradient_ops in
      let* (all_gradient_ops2, additional_sum_ops, grad_map) :=
        DoGradientAccumulation all_gradient_ops1 ir1 forward_op_idx in
      let all_input_to_grad2 := (Some <$> grad_map) ∪ all_input_to_grad1 in
      backward rest
        (ir1, all_input_to_grad2, all_gradient_ops2 ++ additional_sum_ops)
  end.

(** The order in which Python iterates over the dict that GetBackwardPass
    builds from a list of targets, given the items in the order of their
    insertion: in Python 2 it depends on the hashes of the keys. *)
Variable dict_order : list (Blob * option Grad) -> list (Blob * option Grad).

(** [IR.GetBackwardPass]: the operators, the map from blob to gradient,
    and the IR after the call. *)
Definition IR_GetBackwardPass (ir : IR) (ys : Targets)
  : Res (list OperatorDef * gmap string Grad * IR) :=
  let* items :=
    match ys with
    | YsList l => Ok (dict_order (dict_of_list l []))
    | YsDict items => Ok items
    | YsOther => Raise (TypeError "ys should either be a list or a dict.")
    end in
  let ir1 := init_gradient_frontier items ir in
  let* (all_input_to_grad, all_gradient_ops) := _GetInitGradients items (∅, []) in
  let* (ir2, all_input_to_grad1, all_gradient_ops1) :=
    backward (rev (seq 0 (length (ssa ir1))))
      (ir1, all_input_to_grad, all_gradient_ops) in
  Ok (all_gradient_ops1, omap id all_input_to_grad1, ir2).

(** [GradientRegistry.GetBackwardPass]. *)
Definition GetBackwardPass (operators : list OperatorDef) (ys : Targets)
  : Res (list OperatorDef * gmap string Grad) :=
  let* (ops, grads, _) := IR_GetBackwardPass (IR_init operators) ys in
  Ok (ops, grads).

End Construction.

(** ** Quantities the statements below speak of *)

(** The number of times [b] appears as an output among [operators]. *)
Definition count_out (b : string) (operators : list OperatorDef) : nat :=
  sum_list (map (fun o => length (filter (fun s => s = b) (output o))) operators).

(** Whether the first appearance of [b] in [operators] is as an output of
    an operator that does not also read it. *)
Fixpoint written_first (b : string) (operators : list OperatorDef) : bool :=
  match operators with
  | [] => false
  | o :: rest =>
      if decide (b ∈ input o) then false
      else if decide (b ∈ output o) then true
      else written_first b rest
  end.

(** The frontier entry of one blob across the two loops of [Play]. *)
Definition fr_inputs (b : string) (ins : list string) (cur : option nat)
  : option nat :=
  if decide (b ∈ ins) then Some (default 0 cur) else cur.

Fixpoint fr_outputs (b : string) (outs : list string) (cur : option nat)
  : option nat :=
  match outs with
  | [] => cur
  | s :: rest =>
      fr_outputs b rest
        (if decide (s = b)
         then match cur with Some v => Some (v + 1) | None => Some 0 end
         else cur)
  end.

Definition fr_play (b : string) (cur : option nat) (o : OperatorDef) : option nat :=
  fr_outputs b (output o) (fr_inputs b (input o) cur).

(** ** Operators and rules used in the examples *)

Definition mkop (t : string) (ins outs : list string) : OperatorDef :=
  mkOperatorDef t "" ins outs None [].

Definition relu_X_Y : OperatorDef := mkop "Relu" ["X"] ["Y"].

(** The list that GetGradientForOp makes of what a rule returned. *)
Definition as_list (r : RuleOps) : list OperatorDef :=
  match r with
  | OpsNone => []
  | OpsSingle g => [g]
  | OpsList l => l
  end.

(** A native side that has no rule at all. *)
Definition no_native : Rule := fun _ _ => Raise (OtherException "no gradient").

(** The gradient of [Y = Relu(X)], returned as a single operator. *)
Definition relu_rule : Rule := fun o g_output =>
  match input o, output o, g_output with
  | [x], [y], [Some (Dense g)] =>
      Ok (OpsSingle (mkop "ReluGradient" [y; g] [x +:+ "_grad"]),
          [Some (Dense (x +:+ "_grad"))])
  | _, _, _ => Raise (OtherException "Relu")
  end.

(** The seed operator of a target [y] without a gradient, in the name
    scope [ns] and the device scope [ds], and the wrapper a target starts
    the backward pass with. *)
Definition seed_op (ns : string) (ds : option DeviceOption) (y : Blob)
  : OperatorDef :=
  mkOperatorDef "ConstantFill" ""
    [rectify_blob ns y] [ns +:+ (str y +:+ "_autogen_grad")] ds
    [mkArgument "value" (ArgFloat 1)].

Definition seed_ops (ns : string) (ds : option DeviceOption)
  (items : list (Blob * option Grad)) : list OperatorDef :=
  flat_map (fun yg => match yg.2 with
                      | None => [seed_op ns ds yg.1]
                      | Some _ => []
                      end) items.

Definition seed_grad (ns : string) (yg : Blob * option Grad) : Grad :=
  match yg.2 with
  | None => Dense (ns +:+ (str yg.1 +:+ "_autogen_grad"))
  | Some g => g
  end.

Definition seed_map (ns : string) (items : list (Blob * option Grad))
  (m : gmap string (option Grad)) : gmap string (option Grad) :=
  fold_left (fun m yg => <[str yg.1 := Some (seed_grad ns yg)]> m) items m.

(** Whether a result is a value. *)
Definition succeeds {A} (r : Res A) : Prop := ∃ a, r = Ok a.

(** A wrapper that mentions the name [n]. *)
Definition mentions (g : option Grad) (n : string) : Prop :=
  match g with
  | Some (Dense d) => d = n
  | Some (GradientSlice gi gv) => gi = n ∨ gv = n
  | None => False
  end.

(** [Y = Relu(X)] followed by an operator that overwrites [Y] in place. *)
Definition scale_Y_Y : OperatorDef := mkop "Scale" ["Y"] ["Y"].

(** ** Contributions to an accumulation *)

(** The name of output [idx] of the operator at [r], if there is one. *)
Definition slot (heap : Heap) (r : ref) (idx : nat) : option string :=
  match heap !! r with
  | Some o => output o !! idx
  | None => None
  end.

(** The name that _DisambiguateGradOpOutput gives to an output. *)
Definition autosplit (old : string) (cnt : nat) : string :=
  "_" +:+ old +:+ "_autosplit_" +:+ str_nat cnt.

(** One contribution as the loops of _MakeDenseSumOps and _MakeSparseSumOps
    see it: the operator that produces it, if any, with the index of the
    output, and the name in the gradient wrapper. *)
Abbreviation Side := (option ref * nat * string)%type.

Definition dense_side (g : Generator) : Side :=
  match g with
  | GradGenMeta grad_op idx gradient => (grad_op, idx, gradient)
  | SparseGradGenMeta _ _ _ _ _ => (None, 0, EmptyString)
  end.

Definition indices_side (g : Generator) : Side :=
  match g with
  | SparseGradGenMeta op_i idx_i _ _ gradient => (op_i, idx_i, gradient.1)
  | GradGenMeta _ _ _ => (None, 0, EmptyString)
  end.

Definition values_side (g : Generator) : Side :=
  match g with
  | SparseGradGenMeta _ _ op_v idx_v gradient => (op_v, idx_v, gradient.2)
  | GradGenMeta _ _ _ => (None, 0, EmptyString)
  end.

(** The names that a list of contributions puts into the accumulation
    operator, in order: the output of a producing operator under its
    autosplit name, numbered by a counter that starts at [cnt] and counts
    the producing operators, and the literal name of a contribution that no
    operator produces. *)
Fixpoint contributions (heap : Heap) (sides : list Side) (cnt : nat)
  : list string :=
  match sides with
  | [] => []
  | (Some r, idx, _) :: rest =>
      autosplit (default EmptyString (slot heap r idx)) cnt
      :: contributions heap rest (S cnt)
  | (None, _, literal) :: rest => literal :: contributions heap rest cnt
  end.

(** The outputs that the contributions rename. *)
Definition producing_slots (sides : list Side) : list (ref * nat) :=
  omap (fun s : Side => match s.1.1 with
                        | Some r => Some (r, s.1.2)
                        | None => None
                        end) sides.

(** Every producing operator of the contributions is in the heap and has
    the output that the contribution names. *)
Definition sides_valid (heap : Heap) (sides : list Side) : Prop :=
  Forall (fun rs : ref * nat => is_Some (slot heap rs.1 rs.2))
         (producing_slots sides).

(** The literal names of the contributions that no operator produces. *)
Definition literals (sides : list Side) : list string :=
  omap (fun s : Side => match s.1.1 with
                        | Some _ => None
                        | None => Some s.2
                        end) sides.

(** Two heaps that hold the same operators up to the names of outputs. *)
Definition same_operators (h1 h2 : Heap) : Prop :=
  length h1 = length h2
  ∧ ∀ r o1 o2, h1 !! r = Some o1 → h2 !! r = Some o2 →
      type o1 = type o2 ∧ name o1 = name o2 ∧ input o1 = input o2
      ∧ device_option o1 = device_option o2 ∧ arg o1 = arg o2
      ∧ length (output o1) = length (output o2).

(** The first operator that _SetSumOpsDeviceOption finds. *)
Definition first_placement_op (generators : list Generator) : option ref :=
  head (omap placement_op generators).

(** The first output that _GetSumOpOutputName finds, with the suffix that
    it removes from the name of the output of a sparse generator. *)
Definition base_slot (g : Generator) : option (ref * nat * option string) :=
  match g with
  | GradGenMeta (Some grad_op) idx _ => Some (grad_op, idx, None)
  | SparseGradGenMeta (Some op_i) idx_i _ _ _ => Some (op_i, idx_i, Some "_indices")
  | SparseGradGenMeta None _ (Some op_v) idx_v _ => Some (op_v, idx_v, Some "_values")
  | _ => None
  end.

Definition first_base_slot (generators : list Generator)
  : option (ref * nat * option string) := head (omap base_slot generators).

Definition strip (suffix : option string) (s : string) : string :=
  match suffix with
  | Some x => remove_suffix s x
  | None => s
  end.

(** The base name of an accumulation for the blob [input_name]. *)
Definition base_name (heap : Heap) (generators : list Generator)
  (input_name : string) : string :=
  match first_base_slot generators with
  | Some (r, idx, suffix) => strip suffix (default EmptyString (slot heap r idx))
  | None => input_name +:+ "_grad"
  end.

(** Two operators that differ at most in their device option. *)
Definition same_but_device (o1 o2 : OperatorDef) : Prop :=
  type o1 = type o2 ∧ name o1 = name o2 ∧ input o1 = input o2
  ∧ output o1 = output o2 ∧ arg o1 = arg o2.

(** The device option that _SetSumOpsDeviceOption leaves on an operator
    that was built with the device option [built]. *)
Definition stamped (heap : Heap) (generators : list Generator)
  (built : option DeviceOption) : option DeviceOption :=
  match first_placement_op generators with
  | Some r =>
      match heap !! r with
      | Some o => match device_option o with
                  | Some d => Some d
                  | None => built
                  end
      | None => built
      end
  | None => built
  end.

(** The contributions of sparse generators in the order in which the loop
    of _MakeSparseSumOps takes them: indices, then values, of each. *)
Definition sparse_sides (generators : list Generator) : list Side :=
  flat_map (fun g => [indices_side g; values_side g]) generators.

(** A rule in the manner of the C++ gradient makers: the gradient
    operators of a unary or binary operator, each with the device option of
    the forward operator when that has one. *)
Definition chain_rule : Rule := fun o g_output =>
  match input o, output o, g_output with
  | [x], [y], [Some (Dense g)] =>
      Ok (OpsSingle
            (mkOperatorDef (type o +:+ "Gradient") "" [y; g] [x +:+ "_grad"]
               (device_option o) []),
          [Some (Dense (x +:+ "_grad"))])
  | [a; b], [y], [Some (Dense g)] =>
      Ok (OpsList
            [mkOperatorDef "Mul" "" [g; b] [a +:+ "_grad"] (device_option o) [];
             mkOperatorDef "Mul" "" [g; a] [b +:+ "_grad"] (device_option o) []],
          [Some (Dense (a +:+ "_grad")); Some (Dense (b +:+ "_grad"))])
  | _, _, _ => Raise (OtherException "no rule")
  end.

(** [T1 = F(X); T2 = G(X); Y = Mul(T1, T2)], where [F] carries a device
    option that is present and has no field set, and [G] carries none. *)
Definition two_consumers : list OperatorDef :=
  [mkOperatorDef "F" "" ["X"] ["T1"] (Some default_device_option) [];
   mkop "G" ["X"] ["T2"];
   mkop "Mul" ["T1"; "T2"] ["Y"]].

(** [Y = Relu(X); Z = Mul(Y, Y)]: one operator reads [Y], at two input
    positions. *)
Definition one_consumer_twice : list OperatorDef :=
  [relu_X_Y; mkop "Mul" ["Y"; "Y"] ["Z"]].

(** The type, the inputs, the outputs and the device option of the
    operators of a backward pass. *)
Definition summary (r : Res (list OperatorDef * gmap string Grad))
  : Res (list (string * list string * list string * option DeviceOption)) :=
  let* (ops, _) := r in
  Ok (map (fun o => (type o, input o, output o, device_option o)) ops).

(** Two generators of the gradient of [X], produced by the operators at
    addresses 0 and 1 of [two_gradients], and an IR that holds them. *)
Definition cuda_0 : DeviceOption := mkDeviceOption (Some 1%Z) (Some 0%Z) None.

Definition two_gradients : Heap :=
  [mkOperatorDef "GGradient" "" ["T2"; "T2_grad"] ["X_grad"] (Some cuda_0) [];
   mkOperatorDef "FGradient" "" ["T1"; "T1_grad"] ["X_grad"] (Some cuda_0) []].

Definition two_generators : IR :=
  mkIR [] ∅ ∅ ∅
    (<[("X", 0) := [GradGenMeta (Some 0) 0 "X_grad";
                    GradGenMeta (Some 1) 0 "X_grad"]]> ∅).

(** Two sparse generators of the gradient of [W]: the operator at address
    0 produces indices and values, the operator at address 1 produces
    values for the indices [IDX] of the forward pass. *)
Definition sparse_gradients : Heap :=
  [mkop "SparseGradient" ["Y_grad"] ["W_grad_indices"; "W_grad_values"];
   mkop "GatherGradient" ["IDX"; "Z_grad"] ["W_grad_values"]].

Definition sparse_generators : IR :=
  mkIR [] ∅ ∅ ∅
    (<[("W", 0) :=
         [SparseGradGenMeta (Some 0) 0 (Some 0) 1
            ("W_grad_indices", "W_grad_values");
          SparseGradGenMeta None 0 (Some 1) 0 ("IDX", "W_grad_values")]]> ∅).

(** The gradient of [Y = Gather(W, IDX)] is sparse and needs no operator:
    the indices are [IDX] and the values are the gradient of [Y]; every
    other operator has the gradient that [chain_rule] gives. *)
Definition gather_rule : Rule := fun o g_output =>
  if decide (type o = "Gather") then
    match input o, g_output with
    | [w; idx], [Some (Dense g)] => Ok (OpsNone, [Some (GradientSlice idx g); None])
    | _, _ => Raise (OtherException "Gather")
    end
  else chain_rule o g_output.

(** [T1 = F(W); T2 = Gather(W, IDX); Y = Mul(T1, T2)]: [W] receives a
    dense and a sparse gradient. *)
Definition dense_and_sparse : list OperatorDef :=
  [mkop "F" ["W"] ["T1"];
   mkop "Gather" ["W"; "IDX"] ["T2"];
   mkop "Mul" ["T1"; "T2"] ["Y"]].

(** The state of the backward pass of [dense_and_sparse] for the gradient
    [g] of [Y] after the operators 2 and 1, and the generators of [(W, 0)]
    once operator 0 has been given its gradient. *)
Definition after_gather : Res (IR * gmap string (option Grad) * Heap) :=
  backward "" None remove_dups gather_rule ∅ [2; 1]
    (init_gradient_frontier [(Str "Y", Some (Dense "g"))]
       (IR_init dense_and_sparse),
     <["Y" := Some (Dense "g")]> ∅, []).

Definition after_F : Res IR :=
  let* (ir1, all_input_to_grad, all_gradient_ops) := after_gather in
  let* (ir2, _, _) :=
    _GenerateGradientsForForwardOp gather_rule ∅ (length all_gradient_ops)
      ir1 0 all_input_to_grad in
  Ok ir2.

Definition recorded_for_W : Res (list Generator) :=
  let* ir2 := after_F in
  Ok (generators_of (gradient_generators ir2) "W" 0).

Definition mixed_ir : IR :=
  match after_F with
  | Ok ir2 => ir2
  | Raise _ => empty_IR
  end.

(** ** The input usage table *)

(** The first element of a list of operator indices is its least. *)
Definition head_least (l : list nat) : Prop :=
  ∀ x y, l !! 0 = Some x → y ∈ l → x ≤ y.

(** Every usage list starts with its least element and holds indices up to
    [bound]. *)
Definition usages_bounded (u : gmap (string * nat) (list nat)) (bound : nat)
  : Prop :=
  ∀ k l, u !! k = Some l → head_least l ∧ Forall (fun x => x ≤ bound) l.

(** The condition under which DoGradientAccumulation accumulates the
    gradient of the input [n] of forward operator [i]. *)
Definition accumulates (ir : IR) (i : nat) (n : string) : Prop :=
  ∃ e v, ssa ir !! i = Some e
         ∧ n ∈ input (op e)
         ∧ in_versions e !! n = Some v
         ∧ 1 < length (usages_of (input_usages ir) n v)
         ∧ usages_of (input_usages ir) n v !! 0 = Some i
         ∧ (∀ j, j ∈ usages_of (input_usages ir) n v → i ≤ j)
         ∧ 2 ≤ length (generators_of (gradient_generators ir) n v).

(** The IR of [two_consumers] once both gradients of [X] are recorded. *)
Definition two_consumers_recorded : IR :=
  set_gradient_generators (IR_init two_consumers)
    (gradient_generators two_generators).

(** ** The parts of the IR that the backward pass reads *)

(** Two IRs with the same SSA entries, the same input usage table and the
    same frontier versions: they differ at most in keys of the frontier
    that hold version 0. *)
Definition same_tracker (ir1 ir2 : IR) : Prop :=
  ssa ir2 = ssa ir1
  ∧ input_usages ir2 = input_usages ir1
  ∧ ∀ s, frontier_value (frontier ir2) s = frontier_value (frontier ir1) s.

(** Every generator list of the first ledger starts the list of the same
    versioned blob in the second. *)
Definition ledger_grows (gg1 gg2 : gmap (string * nat) (list Generator)) : Prop :=
  ∀ n v, generators_of gg1 n v `prefix_of` generators_of gg2 n v.

(** The inputs, by position, for which a rule returned a gradient. *)
Fixpoint graded_inputs (ins : list string) (g_input : list (option Grad))
  : list string :=
  match ins, g_input with
  | n :: ins1, Some _ :: g_input1 => n :: graded_inputs ins1 g_input1
  | _ :: ins1, None :: g_input1 => graded_inputs ins1 g_input1
  | _, _ => []
  end.

(** The IR of [Y = Relu(X)] at the start of the backward pass for the
    target [Y], and the gradient operator of Relu. *)
Definition relu_seeded : IR :=
  init_gradient_frontier [(Str "Y", None)] (IR_init [relu_X_Y]).

Definition relu_gradient : OperatorDef :=
  mkop "ReluGradient" ["Y"; "Y_grad"] ["X_grad"].

(** The operators of the first list are still there, in their places, at the
    start of the second, up to the names of outputs. *)
Definition kept_operators (h1 h2 : Heap) : Prop :=
  same_operators h1 (take (length h1) h2).

(** ** Versions of the blobs of a net *)

(** caffe2_pb2.NetDef, with the fields that the functions below read. *)
Record NetDef := mkNetDef {
  net_name : string;
  net_op : list OperatorDef;
  external_input : list string;
  external_output : list string
}.

(** A blob at a version; what [get_ssa] returns for an operator: its
    versioned inputs and its versioned outputs. *)
Abbreviation VersionedBlob := (string * nat)%type.
Abbreviation SSA := (list (list VersionedBlob * list VersionedBlob)).

(** [blob_versions.get(b, 0)]. *)
Definition version_of (blob_versions : gmap string nat) (b : string) : nat :=
  default 0 (blob_versions !! b).

(** [for i in names: if i not in blob_versions: blob_versions[i] = 0]. *)
Fixpoint start_at_zero (names : list string) (blob_versions : gmap string nat)
  : gmap string nat :=
  match names with
  | [] => blob_versions
  | i :: rest =>
      start_at_zero rest
        (match blob_versions !! i with
         | Some _ => blob_versions
         | None => <[i := 0]> blob_versions
         end)
  end.

(** [for o in op.output: blob_versions[o] = blob_versions.get(o, 0) + 1]. *)
Fixpoint bump_outputs (outs : list string) (blob_versions : gmap string nat)
  : gmap string nat :=
  match outs with
  | [] => blob_versions
  | o :: rest =>
      bump_outputs rest (<[o := version_of blob_versions o + 1]> blob_versions)
  end.

(** [[(o, blob_versions[o]) for o in names]]. *)
Fixpoint versioned_blobs (names : list string) (blob_versions : gmap string nat)
  : Res (list VersionedBlob) :=
  match names with
  | [] => Ok []
  | o :: rest =>
      let* v := getitem blob_versions o in
      let* r := versioned_blobs rest blob_versions in
      Ok ((o, v) :: r)
  end.

(** The loop over [proto.op] of [get_ssa]. *)
Fixpoint get_ssa_ops (proto_external_input : list string)
  (ops : list OperatorDef) (st : SSA * gmap string nat)
  : Res (SSA * gmap string nat) :=
  match ops with
  | [] => Ok st
  | o :: rest =>
      let '(ssa, blob_versions) := st in
      let blob_versions1 :=
        match proto_external_input with
        | [] => start_at_zero (input o) blob_versions
        | _ :: _ => blob_versions
        end in
      let inputs :=
        map (fun i => (i, version_of blob_versions1 i)) (input o) in
      let blob_versions2 := bump_outputs (output o) blob_versions1 in
      let* outputs := versioned_blobs (output o) blob_versions2 in
      get_ssa_ops proto_external_input rest
        (ssa ++ [(inputs, outputs)], blob_versions2)
  end.

(** [get_ssa] on a NetDef (or on a Net, through its Proto);
    [blob_versions = None] is the default argument. *)
Definition get_ssa (proto : NetDef) (blob_versions : option (gmap string nat))
  : Res (SSA * gmap string nat) :=
  let blob_versions0 := default ∅ blob_versions in
  get_ssa_ops (external_input proto) (net_op proto)
    ([], start_at_zero (external_input proto) blob_versions0).

(** [get_undefined_blobs]. *)
Fixpoint get_undefined_blobs_from (ssa : SSA) (undef_blobs : gset string)
  : gset string :=
  match ssa with
  | [] => undef_blobs
  | (inputs, _) :: rest =>
      get_undefined_blobs_from rest
        (undef_blobs
         ∪ list_to_set (map fst (filter (fun nv : VersionedBlob => nv.2 = 0) inputs)))
  end.

Definition get_undefined_blobs (ssa : SSA) : gset string :=
  get_undefined_blobs_from ssa ∅.

(** [get_output_producers]; [i] is the index that [enumerate] gives. *)
Fixpoint get_output_producers_from (i : nat) (ssa : SSA)
  (producers : gmap VersionedBlob nat) : gmap VersionedBlob nat :=
  match ssa with
  | [] => producers
  | (_, outputs) :: rest =>
      get_output_producers_from (S i) rest
        (fold_left (fun p o => <[o := i]> p) outputs producers)
  end.

Definition get_output_producers (ssa : SSA) : gmap VersionedBlob nat :=
  get_output_producers_from 0 ssa ∅.

(** The [while] loop of [get_op_ids_in_path].  [queue] holds the Python
    list with its last element first: [queue.pop()] takes the head and
    [queue.extend(inputs)] puts the inputs in front, the last one first.
    [fuel] bounds the number of iterations; [None] is a loop cut short. *)
Fixpoint get_op_ids_in_path_loop (fuel : nat) (ssa : SSA)
  (inputs_set : gset VersionedBlob) (producers : gmap VersionedBlob nat)
  (queue : list VersionedBlob) (used_op_ids : gset nat)
  : option (Res (gset nat)) :=
  match fuel with
  | 0 => None
  | S fuel1 =>
      match queue with
      | [] => Some (Ok used_op_ids)
      | o :: queue1 =>
          if decide (o ∈ inputs_set) then
            get_op_ids_in_path_loop fuel1 ssa inputs_set producers queue1
              used_op_ids
          else
            match producers !! o with
            | Some op_id =>
                if decide (op_id ∈ used_op_ids) then
                  get_op_ids_in_path_loop fuel1 ssa inputs_set producers queue1
                    used_op_ids
                else
                  match index ssa op_id with
                  | Ok (inputs, _) =>
                      get_op_ids_in_path_loop fuel1 ssa inputs_set producers
                        (rev inputs ++ queue1) (used_op_ids ∪ {[op_id]})
                  | Raise e => Some (Raise e)
                  end
            | None =>
                get_op_ids_in_path_loop fuel1 ssa inputs_set producers queue1
                  used_op_ids
            end
      end
  end.

(** [get_op_ids_in_path]; [sorted] of a set of integers is the list of
    its elements in increasing order. *)
Definition get_op_ids_in_path (fuel : nat) (ssa : SSA)
  (blob_versions : gmap string nat) (inputs outputs : list string)
  : option (Res (list nat)) :=
  match versioned_blobs inputs blob_versions with
  | Raise e => Some (Raise e)
  | Ok versioned_inputs =>
      let inputs_set : gset VersionedBlob := list_to_set versioned_inputs in
      let producers := get_output_producers ssa in
      match versioned_blobs outputs blob_versions with
      | Raise e => Some (Raise e)
      | Ok queue =>
          match get_op_ids_in_path_loop fuel ssa inputs_set producers
                  (rev queue) ∅ with
          | Some (Ok used_op_ids) =>
              Some (Ok (merge_sort Nat.le (elements used_op_ids)))
          | Some (Raise e) => Some (Raise e)
          | None => None
          end
      end
  end.

(** ** What the traversal of [get_op_ids_in_path] is after *)

(** The versioned blobs that a traversal from [queue] asks for: the blobs
    of the queue and, for a blob asked for that is not among the given
    inputs and has a producer, the inputs of the producer. *)
Inductive wanted (ssa : SSA) (inputs_set : gset VersionedBlob)
  (producers : gmap VersionedBlob nat) (queue : list VersionedBlob)
  : VersionedBlob -> Prop :=
| wanted_queue x :
    x ∈ queue -> wanted ssa inputs_set producers queue x
| wanted_input o op_id ins outs x :
    wanted ssa inputs_set producers queue o ->
    o ∉ inputs_set ->
    producers !! o = Some op_id ->
    ssa !! op_id = Some (ins, outs) ->
    x ∈ ins ->
    wanted ssa inputs_set producers queue x.

(** The operators that produce a blob asked for that is not given. *)
Definition needed_op (ssa : SSA) (inputs_set : gset VersionedBlob)
  (producers : gmap VersionedBlob nat) (queue : list VersionedBlob)
  (op_id : nat) : Prop :=
  ∃ o, wanted ssa inputs_set producers queue o
       ∧ (o ∉ inputs_set) ∧ producers !! o = Some op_id.

(** A blob that the loop is through with. *)
Definition settled (inputs_set : gset VersionedBlob)
  (producers : gmap VersionedBlob nat) (used_op_ids : gset nat)
  (x : VersionedBlob) : Prop :=
  x ∈ inputs_set ∨ producers !! x = None
  ∨ ∃ op_id, producers !! x = Some op_id ∧ op_id ∈ used_op_ids.

(** The number of inputs of the entries from index [i0] on that are not
    in [used_op_ids], and a number of iterations that is enough for a
    queue of [n] blobs. *)
Fixpoint pending_from (i0 : nat) (ssa : SSA) (used_op_ids : gset nat) : nat :=
  match ssa with
  | [] => 0
  | e :: rest =>
      (if decide (i0 ∈ used_op_ids) then 0 else length e.1)
      + pending_from (S i0) rest used_op_ids
  end.

Definition path_fuel (ssa : SSA) (n : nat) : nat :=
  S (n + sum_list (map (fun e : list VersionedBlob * list VersionedBlob =>
                          length e.1) ssa)).

(** What holds of the queue and of the set of operators at the head of
    every iteration of the loop that started from [queue0]. *)
Definition traversal_inv (ssa : SSA) (inputs_set : gset VersionedBlob)
  (producers : gmap VersionedBlob nat) (queue0 queue : list VersionedBlob)
  (used : gset nat) : Prop :=
  (∀ x, x ∈ queue → wanted ssa inputs_set producers queue0 x)
  ∧ (∀ i, i ∈ used → needed_op ssa inputs_set producers queue0 i)
  ∧ (∀ x, x ∈ queue0 → x ∈ queue ∨ settled inputs_set producers used x)
  ∧ (∀ i ins outs x, i ∈ used → ssa !! i = Some (ins, outs) → x ∈ ins →
       x ∈ queue ∨ settled inputs_set producers used x).

(** The SSA form and the blob versions of the net of [two_consumers]. *)
Definition two_consumers_ssa : SSA * gmap string nat :=
  match get_ssa (mkNetDef "two_consumers" two_consumers [] []) None with
  | Ok r => r
  | Raise _ => ([], ∅)
  end.

(** [T1 = Gather(W, IDX1); T2 = Gather(W, IDX2)] with the gradient
    [W_grad] given for [T1] and [T2_grad] for [T2]: [W] receives two sparse
    gradients that no operator produces, and the values of one of them
    carry the name that the accumulation chooses for its result. *)
Definition two_gathers : list OperatorDef :=
  [mkop "Gather" ["W"; "IDX1"] ["T1"]; mkop "Gather" ["W"; "IDX2"] ["T2"]].

Definition two_gathers_targets : list (Blob * option Grad) :=
  [(Str "T1", Some (Dense "W_grad")); (Str "T2", Some (Dense "T2_grad"))].

(** The IR and the operators emitted when the backward pass of
    [two_gathers] comes to the accumulation at operator 0. *)
Definition two_gathers_recorded : Res (IR * Heap) :=
  let* (ir, all_input_to_grad, all_gradient_ops) :=
    backward "" None remove_dups gather_rule ∅ [1]
      (init_gradient_frontier two_gathers_targets (IR_init two_gathers),
       seed_map "" two_gathers_targets ∅, []) in
  let* (ir1, _, gradient_ops) :=
    _GenerateGradientsForForwardOp gather_rule ∅ (length all_gradient_ops)
      ir 0 all_input_to_grad in
  Ok (ir1, all_gradient_ops ++ gradient_ops).

(** ** What the verification of generators compares *)

(** The gradient name that a generator adds to the names compared: the
    gradient of a dense generator that has a producing operator, and the
    values of the gradient of a sparse generator whose values have a
    producing operator.  A sparse generator of which only the indices have
    a producing operator adds no name. *)
Definition compared_name (g : Generator) : option string :=
  match g with
  | GradGenMeta (Some _) _ gradient => Some gradient
  | SparseGradGenMeta _ _ (Some _) _ gradient => Some gradient.2
  | _ => None
  end.

(** The producing operators of a generator: of a sparse one, the operator
    of the indices and the operator of the values. *)
Definition producers_of (g : Generator) : list ref :=
  match g with
  | GradGenMeta grad_op _ _ => option_list grad_op
  | SparseGradGenMeta grad_op_indices _ grad_op_values _ _ =>
      option_list grad_op_indices ++ option_list grad_op_values
  end.

(** * Properties of the forward replay *)

Lemma frontier_read_lookup fr s b :
  (frontier_read fr s).1 !! b =
  if decide (s = b) then Some (default 0 (fr !! b)) else fr !! b.
Proof.
  unfold frontier_read. destruct (fr !! s) as [v|] eqn:E; simpl.
  - case_decide; subst; [by rewrite E|done].
  - case_decide; subst; [by rewrite lookup_insert_eq, E|by rewrite lookup_insert_ne].
Qed.

Lemma play_inputs_frontier pos b ins st :
  (play_inputs pos ins st).1.2 !! b = fr_inputs b ins (st.1.2 !! b).
Proof.
  revert st. induction ins as [|s ins IH]; intros [[iv fr] us]; simpl.
  - unfold fr_inputs. by rewrite decide_False by set_solver.
  - pose proof (frontier_read_lookup fr s b) as Hr.
    destruct (frontier_read fr s) as [fr1 v]. simpl in Hr.
    rewrite IH. simpl. rewrite Hr. unfold fr_inputs.
    repeat case_decide; subst; simpl; try done; set_solver.
Qed.

Lemma play_outputs_frontier b outs st :
  (play_outputs outs st).2 !! b = fr_outputs b outs (st.2 !! b).
Proof.
  revert st. induction outs as [|s outs IH]; intros [ov fr]; simpl; [done|].
  set (fr1 := match fr !! s with Some v => <[s:=v + 1]> fr | None => fr end).
  pose proof (frontier_read_lookup fr1 s b) as Hr.
  destruct (frontier_read fr1 s) as [fr2 v]. simpl in Hr.
  rewrite IH. simpl. rewrite Hr. f_equal. subst fr1.
  case_decide; subst.
  - destruct (fr !! b) as [w|] eqn:E; [by rewrite lookup_insert_eq|by rewrite E].
  - destruct (fr !! s); [by rewrite lookup_insert_ne|done].
Qed.

Lemma Play_frontier ir o b :
  frontier (Play ir o) !! b = fr_play b (frontier ir !! b) o.
Proof.
  unfold Play, fr_play.
  pose proof (play_inputs_frontier (length (ssa ir)) b (input o)
                (∅, frontier ir, input_usages ir)) as Hi.
  destruct (play_inputs _ _ _) as [[iv fr1] us]. simpl in Hi.
  pose proof (play_outputs_frontier b (output o) (∅, fr1)) as Ho.
  destruct (play_outputs _ _) as [ov fr2]. simpl in *.
  by rewrite Ho, Hi.
Qed.

Lemma replay_frontier operators ir b :
  frontier (fold_left Play operators ir) !! b =
  fold_left (fr_play b) operators (frontier ir !! b).
Proof.
  revert ir. induction operators as [|o l IH]; intros ir; simpl; [done|].
  by rewrite IH, Play_frontier.
Qed.

Lemma fr_outputs_Some b outs v :
  fr_outputs b outs (Some v) =
  Some (v + length (filter (fun s => s = b) outs)).
Proof.
  revert v. induction outs as [|s outs IH]; intros v; simpl.
  - f_equal. lia.
  - rewrite filter_cons. case_decide; subst.
    + rewrite IH. simpl. f_equal. lia.
    + by rewrite IH.
Qed.

Lemma fr_outputs_None b outs :
  fr_outputs b outs None =
  match length (filter (fun s => s = b) outs) with
  | 0 => None
  | S k => Some k
  end.
Proof.
  induction outs as [|s outs IH]; simpl; [done|].
  rewrite filter_cons. case_decide; subst; [|done].
  rewrite fr_outputs_Some. simpl. done.
Qed.

Lemma fr_replay_Some b operators v :
  fold_left (fr_play b) operators (Some v) = Some (v + count_out b operators).
Proof.
  revert v. induction operators as [|o l IH]; intros v; simpl.
  - unfold count_out. simpl. f_equal. lia.
  - unfold fr_play at 2, fr_inputs. unfold count_out in *. simpl.
    case_decide; simpl; rewrite fr_outputs_Some, IH; f_equal; lia.
Qed.

Lemma filter_eq_length_0 (b : string) (l : list string) :
  length (filter (fun s => s = b) l) = 0 ↔ b ∉ l.
Proof.
  induction l as [|s l IH]; simpl.
  - set_solver.
  - rewrite filter_cons. case_decide; subst; simpl.
    + split; [lia|set_solver].
    + rewrite IH. set_solver.
Qed.

Lemma fr_replay_None b operators :
  default 0 (fold_left (fr_play b) operators None) =
  count_out b operators - (if written_first b operators then 1 else 0).
Proof.
  induction operators as [|o l IH]; simpl; [done|].
  unfold fr_play at 2, fr_inputs. unfold count_out in *. simpl.
  destruct (decide (b ∈ input o)).
  - simpl. rewrite fr_outputs_Some, fr_replay_Some. unfold count_out. simpl. lia.
  - rewrite fr_outputs_None.
    destruct (length (filter (fun s => s = b) (output o))) as [|k] eqn:E.
    + apply filter_eq_length_0 in E. rewrite decide_False by done.
      rewrite IH. simpl. done.
    + assert (b ∈ output o) as Hin.
      { destruct (decide (b ∈ output o)) as [|Hn]; [done|].
        apply filter_eq_length_0 in Hn. lia. }
      rewrite decide_True by done.
      rewrite fr_replay_Some. unfold count_out. simpl. lia.
Qed.

Lemma fr_play_mono b cur o : default 0 cur ≤ default 0 (fr_play b cur o).
Proof.
  unfold fr_play, fr_inputs. case_decide.
  - rewrite fr_outputs_Some. simpl. lia.
  - destruct cur as [v|]; [rewrite fr_outputs_Some|]; simpl; lia.
Qed.

Lemma IR_init_snoc operators o :
  IR_init (operators ++ [o]) = Play (IR_init operators) o.
Proof. unfold IR_init. by rewrite fold_left_app. Qed.

(** C8 (as amended).  Replaying operator [i] never lowers the frontier
    version of a blob, and after it the version is the number of times the
    blob appeared as an output among operators 0..i, less one when the
    first appearance of the blob is as an output: a blob that is written
    without having been read starts at version 0. *)
Theorem frontier_monotone_and_count (operators : list OperatorDef) (b : string)
  (i : nat) :
  let before := frontier_value (frontier (IR_init (take i operators))) b in
  let after := frontier_value (frontier (IR_init (take (S i) operators))) b in
  before ≤ after ∧
  after = count_out b (take (S i) operators)
          - (if written_first b (take (S i) operators) then 1 else 0).
Proof.
  simpl. split.
  - destruct (operators !! i) as [o|] eqn:E.
    + rewrite (take_S_r _ _ _ E), IR_init_snoc. unfold frontier_value.
      rewrite Play_frontier. apply fr_play_mono.
    + apply lookup_ge_None in E. by rewrite !take_ge by lia.
  - unfold frontier_value, IR_init. rewrite replay_frontier. simpl.
    rewrite lookup_empty. apply fr_replay_None.
Qed.

(** C8 as stated fails: after replaying the single operator
    [Y = Relu(X)], [Y] appeared once as an output and its frontier version
    is 0. *)
Lemma frontier_is_not_output_count :
  frontier_value (frontier (IR_init (take 1 [relu_X_Y]))) "Y" = 0
  ∧ count_out "Y" (take 1 [relu_X_Y]) = 1.
Proof. split; reflexivity. Qed.

(** * Gradient dispatch *)

(** C6.  GetGradientForOp takes the result of the native rule when that
    does not raise, whatever the registry holds; when the native rule raises
    it takes the result of the rule registered for the type of the operator;
    when the native rule raises [e] and no rule is registered for the type,
    it fails with an error that carries the type and [e].  On success the
    operators are a list: a single operator becomes a one-element list and
    [None] the empty list. *)
Theorem GetGradientForOp_dispatch (native : Rule) (registry : gmap string Rule)
  (o : OperatorDef) (g_output : list (option Grad)) :
  (∀ r, native o g_output = Ok r →
        GetGradientForOp native registry o g_output = Ok (as_list r.1, r.2))
  ∧ (∀ e rule r,
        native o g_output = Raise e →
        registry !! type o = Some rule →
        rule o g_output = Ok r →
        GetGradientForOp native registry o g_output = Ok (as_list r.1, r.2))
  ∧ (∀ e, native o g_output = Raise e →
          registry !! type o = None →
          GetGradientForOp native registry o g_output
          = Raise (NoGradientRegistered (type o) e)).
Proof.
  unfold GetGradientForOp, getitem. repeat split.
  - intros [ops gi] ->. simpl. by destruct ops.
  - intros e rule [ops gi] Hn Hr Hrule. rewrite Hn, Hr. simpl.
    rewrite Hrule. simpl. by destruct ops.
  - intros e Hn Hr. rewrite Hn, Hr. reflexivity.
Qed.

Lemma GetGradientForOp_dispatch_witness :
  GetGradientForOp no_native (<["Relu" := relu_rule]> ∅) relu_X_Y
    [Some (Dense "Y_grad")]
  = Ok ([mkop "ReluGradient" ["Y"; "Y_grad"] ["X_grad"]], [Some (Dense "X_grad")])
  ∧ GetGradientForOp no_native ∅ relu_X_Y [Some (Dense "Y_grad")]
    = Raise (NoGradientRegistered "Relu" (OtherException "no gradient")).
Proof.
  destruct (GetGradientForOp_dispatch no_native (<["Relu" := relu_rule]> ∅)
              relu_X_Y [Some (Dense "Y_grad")]) as (_ & H2 & _).
  destruct (GetGradientForOp_dispatch no_native ∅
              relu_X_Y [Some (Dense "Y_grad")]) as (_ & _ & H3).
  split.
  - apply (H2 (OtherException "no gradient") relu_rule
             (OpsSingle (mkop "ReluGradient" ["Y"; "Y_grad"] ["X_grad"]),
              [Some (Dense "X_grad")])); reflexivity.
  - apply (H3 (OtherException "no gradient")); reflexivity.
Defined.

(** * The start of a backward pass *)

Lemma frontier_read_value fr s b :
  frontier_value (frontier_read fr s).1 b = frontier_value fr b.
Proof.
  unfold frontier_value. rewrite frontier_read_lookup.
  case_decide; [|done]. by destruct (fr !! b).
Qed.

Lemma frontier_read_result fr s :
  (frontier_read fr s).2 = frontier_value fr s.
Proof. unfold frontier_read, frontier_value. by destruct (fr !! s). Qed.

Lemma init_gradient_frontier_lookup items ir (k : string) :
  gradient_frontier (init_gradient_frontier items ir) !! k =
  if decide (k ∈ map (fun yg : Blob * option Grad => str yg.1) items)
  then Some (frontier_value (frontier ir) k)
  else gradient_frontier ir !! k.
Proof.
  revert ir. induction items as [|[y g] items IH]; intros ir.
  - reflexivity.
  - cbn [init_gradient_frontier map fst].
    pose proof (frontier_read_value (frontier ir) (str y) k) as Hv.
    pose proof (frontier_read_result (frontier ir) (str y)) as Hr.
    destruct (frontier_read (frontier ir) (str y)) as [fr v]. simpl in *.
    rewrite IH. simpl. rewrite Hv. subst v.
    destruct (decide (k ∈ map (fun yg : Blob * option Grad => str yg.1) items)).
    + by rewrite decide_True by set_solver.
    + destruct (decide (k = str y)) as [->|Hne].
      * rewrite decide_True by set_solver. by rewrite lookup_insert_eq.
      * rewrite decide_False by set_solver. by rewrite lookup_insert_ne.
Qed.

Lemma GetInitGradients_acc ns ds items m ops :
  _GetInitGradients ns ds items (m, ops)
  = Ok (seed_map ns items m, ops ++ seed_ops ns ds items).
Proof.
  revert m ops. induction items as [|[y [g|]] items IH]; intros m ops; simpl.
  - by rewrite app_nil_r.
  - by rewrite IH.
  - rewrite IH. unfold seed_ops. simpl. by rewrite <- app_assoc.
Qed.

Lemma seed_map_cons ns yg items m :
  seed_map ns (yg :: items) m
  = seed_map ns items (<[str yg.1 := Some (seed_grad ns yg)]> m).
Proof. reflexivity. Qed.

Lemma seed_map_other ns items m (k : string) :
  k ∉ map (fun yg : Blob * option Grad => str yg.1) items →
  seed_map ns items m !! k = m !! k.
Proof.
  revert m. induction items as [|yg items IH]; intros m Hk; [done|].
  rewrite seed_map_cons, IH by set_solver.
  apply lookup_insert_ne. set_solver.
Qed.

Lemma seed_map_lookup ns items m yg :
  NoDup (map (fun yg : Blob * option Grad => str yg.1) items) →
  yg ∈ items →
  seed_map ns items m !! str yg.1 = Some (Some (seed_grad ns yg)).
Proof.
  revert m. induction items as [|yg0 items IH]; intros m Hnd Hin.
  - set_solver.
  - simpl in Hnd. apply NoDup_cons in Hnd as [Hfresh Hnd].
    rewrite seed_map_cons.
    apply elem_of_cons in Hin as [->|Hin].
    + rewrite (seed_map_other ns items _ _ Hfresh). apply lookup_insert_eq.
    + by apply IH.
Qed.

(** C7 (as amended).  For the targets [items] of a backward pass, whose
    keys are distinct: the pass starts its walk from the IR in which the
    gradient frontier of every target is its frontier version, with the seed
    operators as the operators emitted so far and the seed wrappers as the
    gradient map.  There is one seed operator per target mapped to [None],
    in the order of the targets: a ConstantFill with [value = 1.0] whose
    output is the current name scope followed by [<y>_autogen_grad], and
    that output is the wrapper of [y]; a target with an explicit wrapper
    keeps it and has no seed operator. *)
Theorem backward_pass_seeds (ns : string) (ds : option DeviceOption)
  (set_order : list string -> list string) (native : Rule)
  (registry : gmap string Rule)
  (dict_order : list (Blob * option Grad) → list (Blob * option Grad)) (ir : IR) (items : list (Blob * option Grad)) :
  NoDup (map (fun yg : Blob * option Grad => str yg.1) items) →
  let ir1 := init_gradient_frontier items ir in
  IR_GetBackwardPass ns ds set_order native registry dict_order ir
    (YsDict items)
  = (let* (ir2, all_input_to_grad, all_gradient_ops) :=
       backward ns ds set_order native registry
         (rev (seq 0 (length (ssa ir1))))
         (ir1, seed_map ns items ∅, seed_ops ns ds items) in
     Ok (all_gradient_ops, omap id all_input_to_grad, ir2))
  ∧ (∀ y g, (y, g) ∈ items →
       gradient_frontier ir1 !! str y = Some (frontier_value (frontier ir) (str y))
       ∧ seed_map ns items ∅ !! str y
         = Some (Some match g with
                      | None => Dense (ns +:+ (str y +:+ "_autogen_grad"))
                      | Some g1 => g1
                      end)
       ∧ (g = None → seed_op ns ds y ∈ seed_ops ns ds items))
  ∧ (∀ o, o ∈ seed_ops ns ds items →
       ∃ y, (y, None) ∈ items ∧ o = seed_op ns ds y
            ∧ type o = "ConstantFill"
            ∧ output o = [ns +:+ (str y +:+ "_autogen_grad")]
            ∧ arg o = [mkArgument "value" (ArgFloat 1)]).
Proof.
  intros Hnd ir1. split; [|split].
  - unfold IR_GetBackwardPass. simpl. fold ir1.
    by rewrite GetInitGradients_acc.
  - intros y g Hin. split; [|split].
    + subst ir1. rewrite init_gradient_frontier_lookup.
      rewrite decide_True; [done|].
      apply list_elem_of_fmap. by exists (y, g).
    + apply (seed_map_lookup ns items ∅ (y, g) Hnd Hin).
    + intros ->. unfold seed_ops. apply list_elem_of_In, in_flat_map.
      exists (y, None). split; [by apply list_elem_of_In|]. simpl. by left.
  - intros o Ho. unfold seed_ops in Ho.
    apply list_elem_of_In, in_flat_map in Ho as ([y g] & Hin & Ho).
    apply list_elem_of_In in Hin. simpl in Ho.
    destruct g as [g|]; [by destruct Ho|].
    destruct Ho as [<-|[]]. by exists y.
Qed.

Lemma backward_pass_seeds_witness :
  gradient_frontier (init_gradient_frontier [(Str "Y", None)] (IR_init [relu_X_Y]))
    !! "Y" = Some 0
  ∧ seed_ops "" None [(Str "Y", None)]
    = [mkOperatorDef "ConstantFill" "" ["Y"] ["Y_autogen_grad"] None
         [mkArgument "value" (ArgFloat 1)]].
Proof.
  destruct (backward_pass_seeds "" None remove_dups no_native ∅ id
              (IR_init [relu_X_Y]) [(Str "Y", None)]) as (_ & H & _).
  - apply NoDup_singleton.
  - destruct (H (Str "Y") None) as (Hf & _); [by apply list_elem_of_singleton|].
    split; [exact Hf|reflexivity].
Defined.

(** C7 as stated fails inside a name scope: under the scope ["s/"] the
    seed operator of the target ["Y"] produces the blob ["s/Y_autogen_grad"],
    which is also the seed wrapper. *)
Lemma seed_name_in_name_scope :
  (let* (input_to_grad, gradient_ops) :=
     _GetInitGradients "s/" None [(Str "Y", None)] (∅, []) in
   Ok (map output gradient_ops, input_to_grad !! "Y"))
  = Ok ([["s/Y_autogen_grad"]], Some (Some (Dense "s/Y_autogen_grad"))).
Proof. reflexivity. Qed.

(** * The check of the inputs of a gradient operator *)

Lemma GetIndexFromGradientList_from_spec i g_list n :
  match GetIndexFromGradientList_from i g_list n with
  | Some k => ∃ j, k = i + j ∧ (∃ g, g_list !! j = Some g ∧ mentions g n)
              ∧ ∀ j' g, j' < j → g_list !! j' = Some g → ¬ mentions g n
  | None => ∀ j g, g_list !! j = Some g → ¬ mentions g n
  end.
Proof.
  revert i. induction g_list as [|g l IH]; intros i; simpl; [done|].
  assert (∀ k, GetIndexFromGradientList_from (S i) l n = k →
    ¬ mentions g n →
    match k with
    | Some k => ∃ j, k = i + j ∧ (∃ g0, (g :: l) !! j = Some g0 ∧ mentions g0 n)
                ∧ ∀ j' g0, j' < j → (g :: l) !! j' = Some g0 → ¬ mentions g0 n
    | None => ∀ j g0, (g :: l) !! j = Some g0 → ¬ mentions g0 n
    end) as Hrest.
  { intros k Hk Hg. specialize (IH (S i)). rewrite Hk in IH.
    destruct k as [k|].
    - destruct IH as (j & -> & Hj & Hmin). exists (S j).
      split; [lia|]. split; [done|].
      intros [|j'] g0 Hlt; simpl; [naive_solver|]. apply Hmin. lia.
    - intros [|j] g0; simpl; [naive_solver|]. apply IH. }
  assert (mentions g n →
    ∃ j, i = i + j ∧ (∃ g0, (g :: l) !! j = Some g0 ∧ mentions g0 n)
         ∧ ∀ j' g0, j' < j → (g :: l) !! j' = Some g0 → ¬ mentions g0 n) as Hhere.
  { intros Hg. exists 0. split; [lia|]. split; [by exists g|]. intros; lia. }
  destruct g as [[d|gi gv]|]; simpl in *.
  - case_decide; [by apply Hhere|by apply Hrest].
  - case_decide; [by apply Hhere|by apply Hrest].
  - apply Hrest; [done|tauto].
Qed.

(** The index that GetIndexFromGradientList returns is that of the first
    wrapper that mentions the name, and it returns [None] exactly when no
    wrapper does. *)
Lemma GetIndexFromGradientList_spec g_list n :
  match GetIndexFromGradientList g_list n with
  | Some k => (∃ g, g_list !! k = Some g ∧ mentions g n)
              ∧ ∀ j g, j < k → g_list !! j = Some g → ¬ mentions g n
  | None => ∀ j g, g_list !! j = Some g → ¬ mentions g n
  end.
Proof.
  unfold GetIndexFromGradientList.
  pose proof (GetIndexFromGradientList_from_spec 0 g_list n) as H.
  destruct (GetIndexFromGradientList_from 0 g_list n); [|done].
  by destruct H as (j & -> & H).
Qed.
(** C5 (as amended).  The check of a name [s] read by a gradient operator
    of forward operator [i] takes the first case that applies and succeeds
    exactly when the version test of that case holds: (i) [s] is mentioned
    by an output gradient wrapper, and the recorded output version of the
    forward output at the position of the first such wrapper is the
    gradient frontier of that output; (ii) otherwise [s] is a forward output
    whose frontier version is its recorded output version; (iii) otherwise
    [s] is a forward input whose frontier version is its recorded input
    version; (iv) otherwise [s] was produced by an earlier gradient operator
    of the same forward operator.  A failed version test raises an error
    that names [s] and the two versions; a name to which no case applies
    raises an error that names [s] and the forward operator. *)
Theorem CheckGradientOperatorInput_cases (ir : IR) (s : string)
  (g_output : list (option Grad)) (i : nat) (locally : list string)
  (e : OpSSA) :
  ssa ir !! i = Some e →
  let r := CheckGradientOperatorInput ir s g_output i locally in
  let cur := frontier_value (frontier ir) s in
  let found := GetIndexFromGradientList g_output s in
  (succeeds r ↔
     (∃ k orig v, found = Some k ∧ output (op e) !! k = Some orig
                  ∧ out_versions e !! orig = Some v
                  ∧ gradient_frontier ir !! orig = Some v)
     ∨ (found = None ∧ out_versions e !! s = Some cur)
     ∨ (found = None ∧ out_versions e !! s = None
        ∧ in_versions e !! s = Some cur)
     ∨ (found = None ∧ out_versions e !! s = None
        ∧ in_versions e !! s = None ∧ s ∈ locally))
  ∧ (∀ k orig v w, found = Some k → output (op e) !! k = Some orig →
       out_versions e !! orig = Some v → gradient_frontier ir !! orig = Some w →
       v ≠ w → r = Raise (GradientNameVersion s v orig w))
  ∧ (∀ v, found = None → out_versions e !! s = Some v → v ≠ cur →
       r = Raise (OutputVersion s v cur))
  ∧ (∀ v, found = None → out_versions e !! s = None →
       in_versions e !! s = Some v → v ≠ cur →
       r = Raise (InputVersion s v cur))
  ∧ (found = None → out_versions e !! s = None → in_versions e !! s = None →
       s ∉ locally → r = Raise (NotInScope s (op e))).
Proof.
  intros He r cur found. subst r.
  unfold CheckGradientOperatorInput, index. rewrite He. simpl. fold found.
  pose proof (frontier_read_result (frontier ir) s) as Hread. fold cur in Hread.
  destruct (frontier_read (frontier ir) s) as [fr v0]. simpl in Hread. subst v0.
  unfold succeeds, getitem.
  destruct found as [k|].
  - destruct (output (op e) !! k) as [orig|] eqn:Eo; simpl;
      [|split; [split; [by intros [? ?]|naive_solver]|naive_solver]].
    destruct (out_versions e !! orig) as [v|] eqn:Ev; simpl;
      [|split; [split; [by intros [? ?]|naive_solver]|naive_solver]].
    destruct (gradient_frontier ir !! orig) as [w|] eqn:Eg; simpl;
      [|split; [split; [by intros [? ?]|naive_solver]|naive_solver]].
    destruct (decide (v ≠ w)) as [Hne|Heq].
    + split; [split; [by intros [? ?]|naive_solver]|naive_solver].
    + assert (v = w) as -> by (destruct (decide (v = w)); [done|tauto]).
      split; [split; [intros _; left; by exists k, orig, w|by eexists]|naive_solver].
  - destruct (out_versions e !! s) as [ov|] eqn:Eo.
    { destruct (decide (cur ≠ ov)) as [Hne|Heq].
      - split; [split; [by intros [? ?]|naive_solver]|naive_solver].
      - assert (cur = ov) as <- by (destruct (decide (cur = ov)); [done|tauto]).
        split; [split; [naive_solver|by eexists]|naive_solver]. }
    destruct (in_versions e !! s) as [iv|] eqn:Ei.
    { destruct (decide (cur ≠ iv)) as [Hne|Heq].
      - split; [split; [by intros [? ?]|naive_solver]|naive_solver].
      - assert (cur = iv) as <- by (destruct (decide (cur = iv)); [done|tauto]).
        split; [split; [naive_solver|by eexists]|naive_solver]. }
    destruct (decide (s ∈ locally)) as [Hin|Hout].
    + split; [split; [naive_solver|by eexists]|naive_solver].
    + split; [split; [by intros [? ?]|naive_solver]|naive_solver].
Qed.

Lemma CheckGradientOperatorInput_cases_witness :
  succeeds (CheckGradientOperatorInput (IR_init [relu_X_Y]) "X"
              [Some (Dense "Y_grad")] 0 []).
Proof.
  destruct (CheckGradientOperatorInput_cases (IR_init [relu_X_Y]) "X"
              [Some (Dense "Y_grad")] 0 []
              (mkOpSSA relu_X_Y (<["X" := 0]> ∅) (<["Y" := 0]> ∅)))
    as ([_ H] & _).
  - reflexivity.
  - apply H. right. right. left. repeat split; reflexivity.
Defined.

(** C5 as stated fails.  After [Y = Relu(X)] and an operator that
    overwrites [Y] in place, a gradient operator of the first one that reads
    [Y] is refused because the frontier version of [Y] is 1 and not 0,
    although [Y] was produced by an earlier gradient operator of the same
    forward operator (case iv of the claim); and the error names the blob
    and the versions, not the forward operator. *)
Lemma locally_generated_output_is_refused :
  "Y" ∈ ["Y"]
  ∧ CheckGradientOperatorInput (IR_init [relu_X_Y; scale_Y_Y]) "Y"
      [Some (Dense "Y_grad")] 0 ["Y"]
    = Raise (OutputVersion "Y" 0 1).
Proof. split; [by apply list_elem_of_singleton|reflexivity]. Qed.

(** * Renaming outputs in the heap *)

Lemma output_at_slot heap r idx :
  output_at heap r idx
  = match slot heap r idx with
    | Some n => Ok n
    | None => match heap !! r with
              | Some _ => Raise IndexError
              | None => Raise (Dangling r)
              end
    end.
Proof.
  unfold output_at, slot, deref, index.
  destruct (heap !! r) as [o|]; simpl; [|done]. by destruct (output o !! idx).
Qed.

Lemma same_operators_refl h : same_operators h h.
Proof. split; [done|]. intros r o1 o2 H1 H2. by simplify_eq. Qed.

Lemma same_operators_trans h1 h2 h3 :
  same_operators h1 h2 → same_operators h2 h3 → same_operators h1 h3.
Proof.
  intros [L12 H12] [L23 H23]. split; [congruence|].
  intros r o1 o3 H1 H3.
  destruct (h2 !! r) as [o2|] eqn:E2.
  - destruct (H12 r o1 o2 H1 E2) as (?&?&?&?&?&?).
    destruct (H23 r o2 o3 E2 H3) as (?&?&?&?&?&?).
    repeat split; congruence.
  - apply lookup_ge_None in E2. apply lookup_lt_Some in H1. lia.
Qed.

(** _DisambiguateGradOpOutput on an output that exists: the output gets its
    autosplit name, every other output of every operator keeps its name, and
    nothing else changes. *)
Lemma DisambiguateGradOpOutput_ok heap r idx cnt old :
  slot heap r idx = Some old →
  ∃ heap1,
    _DisambiguateGradOpOutput heap r idx cnt
    = Ok (heap1, autosplit old cnt, cnt + 1)
    ∧ slot heap1 r idx = Some (autosplit old cnt)
    ∧ (∀ r' idx', (r', idx') ≠ (r, idx) → slot heap1 r' idx' = slot heap r' idx')
    ∧ same_operators heap heap1.
Proof.
  unfold slot, _DisambiguateGradOpOutput, deref, index. intros Hs.
  destruct (heap !! r) as [o|] eqn:Er; [|done]. simpl. rewrite Hs. simpl.
  eexists. split; [reflexivity|].
  pose proof (lookup_lt_Some _ _ _ Er) as Hr.
  pose proof (lookup_lt_Some _ _ _ Hs) as Hi.
  split; [|split].
  - rewrite list_lookup_insert_eq by done. simpl.
    by rewrite list_lookup_insert_eq.
  - intros r' idx' Hne. destruct (decide (r' = r)) as [->|Hr'].
    + rewrite list_lookup_insert_eq by done. rewrite Er. simpl.
      apply list_lookup_insert_ne. congruence.
    + by rewrite list_lookup_insert_ne.
  - split; [by rewrite length_insert|].
    intros r' o1 o2 H1 H2. destruct (decide (r' = r)) as [->|Hr'].
    + rewrite list_lookup_insert_eq in H2 by done. simplify_eq. simpl.
      by rewrite length_insert.
    + rewrite list_lookup_insert_ne in H2 by done. by simplify_eq.
Qed.

Lemma DisambiguateGradOpOutput_invalid heap r idx cnt :
  slot heap r idx = None →
  ∃ e, _DisambiguateGradOpOutput heap r idx cnt = Raise e.
Proof.
  unfold slot, _DisambiguateGradOpOutput, deref, index. intros Hs.
  destruct (heap !! r) as [o|]; simpl; [|by eexists].
  rewrite Hs. by eexists.
Qed.

Lemma contributions_ext h1 h2 sides cnt :
  (∀ r idx, (r, idx) ∈ producing_slots sides → slot h1 r idx = slot h2 r idx) →
  contributions h1 sides cnt = contributions h2 sides cnt.
Proof.
  revert cnt. induction sides as [|[[[r|] idx] lit] sides IH]; intros cnt H;
    simpl; [done| |].
  - rewrite (H r idx) by (unfold producing_slots; simpl; set_solver).
    f_equal. apply IH. intros r' idx' Hrs. apply H. unfold producing_slots in *.
    simpl. set_solver.
  - f_equal. apply IH. intros r' idx' Hrs. apply H. done.
Qed.

Lemma contributions_length heap sides cnt :
  length (contributions heap sides cnt) = length sides.
Proof.
  revert cnt. induction sides as [|[[[r|] idx] lit] sides IH]; intros cnt;
    simpl; [done|..]; by rewrite IH.
Qed.

(** One contribution, in either loop: a produced output is renamed and
    numbered, a literal name is taken as it is unless it is the base name. *)
Lemma sparse_side_ok h o idx cnt base lit :
  sides_valid h [(o, idx, lit)] →
  base ∉ literals [(o, idx, lit)] →
  ∃ h1,
    sparse_side h o idx cnt base lit
    = Ok (h1,
          match o with
          | Some r => autosplit (default EmptyString (slot h r idx)) cnt
          | None => lit
          end,
          match o with Some _ => S cnt | None => cnt end)
    ∧ same_operators h h1
    ∧ (∀ r' idx', (r', idx') ∉ producing_slots [(o, idx, lit)] →
             slot h1 r' idx' = slot h r' idx')
    ∧ (∀ r, o = Some r →
            slot h1 r idx
            = Some (autosplit (default EmptyString (slot h r idx)) cnt)).
Proof.
  intros Hv Hl. destruct o as [r|]; simpl.
  - unfold sides_valid, producing_slots in Hv. simpl in Hv.
    apply Forall_cons in Hv as [[old Hold] _]. simpl in Hold.
    destruct (DisambiguateGradOpOutput_ok h r idx cnt old Hold)
      as (h1 & Hd & Hs & Ho & Hsame).
    exists h1. rewrite Hd, Hold. simpl. replace (cnt + 1) with (S cnt) by lia.
    split; [done|]. split; [done|]. split.
    + intros r' idx' Hn. apply Ho. unfold producing_slots in Hn. simpl in Hn.
      set_solver.
    + intros ? [= <-]. by rewrite Hold.
  - exists h. unfold _CheckSumOpsConflict.
    rewrite decide_False by (unfold literals in Hl; simpl in Hl; set_solver).
    simpl. split; [done|]. split; [apply same_operators_refl|]. split; [done|].
    by intros.
Qed.

Lemma sparse_side_conflict h idx cnt base :
  sparse_side h None idx cnt base base = Raise SumOpsConflict.
Proof. unfold sparse_side, _CheckSumOpsConflict. by rewrite decide_True. Qed.

Lemma dense_inputs_cons h o idx g rest base cnt acc :
  dense_inputs h (GradGenMeta o idx g :: rest) base cnt acc
  = (let* (h1, out, cnt1) := sparse_side h o idx cnt base g in
     dense_inputs h1 rest base cnt1 (acc ++ [out])).
Proof.
  destruct o as [r|]; simpl; [done|].
  unfold _CheckSumOpsConflict. by destruct (decide (base = g)).
Qed.

Lemma sides_valid_cons h s sides :
  sides_valid h (s :: sides) ↔ sides_valid h [s] ∧ sides_valid h sides.
Proof.
  unfold sides_valid, producing_slots. simpl.
  destruct (s.1.1); simpl; rewrite ?Forall_cons, ?Forall_nil; tauto.
Qed.

Lemma producing_slots_cons s sides :
  producing_slots (s :: sides) = producing_slots [s] ++ producing_slots sides.
Proof. unfold producing_slots. simpl. by destruct (s.1.1). Qed.

Lemma literals_cons s sides :
  literals (s :: sides) = literals [s] ++ literals sides.
Proof. unfold literals. simpl. by destruct (s.1.1). Qed.

Lemma sides_valid_ext h1 h2 sides :
  (∀ r idx, (r, idx) ∈ producing_slots sides → slot h1 r idx = slot h2 r idx) →
  sides_valid h2 sides → sides_valid h1 sides.
Proof.
  unfold sides_valid. rewrite !Forall_forall. intros H Hv [r idx] Hrs.
  simpl. rewrite H by done. by apply (Hv (r, idx)).
Qed.

(** The loop of _MakeDenseSumOps over dense generators whose producing
    outputs exist and are distinct, and whose literal names differ from the
    base name. *)
Lemma dense_inputs_ok generators : ∀ h base cnt acc,
  forallb is_dense generators = true →
  sides_valid h (map dense_side generators) →
  NoDup (producing_slots (map dense_side generators)) →
  base ∉ literals (map dense_side generators) →
  ∃ h1,
    dense_inputs h generators base cnt acc
    = Ok (h1, acc ++ contributions h (map dense_side generators) cnt)
    ∧ same_operators h h1
    ∧ (∀ r idx, (r, idx) ∉ producing_slots (map dense_side generators) →
             slot h1 r idx = slot h r idx)
    ∧ (∀ k r idx g, generators !! k = Some (GradGenMeta (Some r) idx g) →
         slot h1 r idx = contributions h (map dense_side generators) cnt !! k).
Proof.
  induction generators as [|[o idx g|] rest IH]; intros h base cnt acc Hd Hv Hnd Hl;
    [| |done].
  - exists h. simpl. rewrite app_nil_r. split; [done|].
    split; [apply same_operators_refl|]. split; [done|]. by intros [].
  - simpl in Hd. cbn [map dense_side] in *.
    apply sides_valid_cons in Hv as [Hv0 Hv].
    rewrite producing_slots_cons in Hnd. apply NoDup_app in Hnd as (_ & Hdisj & Hnd).
    rewrite literals_cons in Hl.
    destruct (sparse_side_ok h o idx cnt base g Hv0 ltac:(set_solver))
      as (h1 & Hstep & Hsame1 & Hoth1 & Hnew1).
    assert (∀ r' idx', (r', idx') ∈ producing_slots (map dense_side rest) →
                  slot h1 r' idx' = slot h r' idx') as Hrest.
    { intros r' idx' Hrs. apply Hoth1. intros Hin. by apply (Hdisj (r', idx')). }
    destruct (IH h1 base (match o with Some _ => S cnt | None => cnt end)
                (acc ++ [match o with
                         | Some r => autosplit (default EmptyString (slot h r idx)) cnt
                         | None => g
                         end]) Hd
                (sides_valid_ext _ _ _ Hrest Hv) Hnd ltac:(set_solver))
      as (h2 & Hloop & Hsame2 & Hoth2 & Hnew2).
    exists h2. rewrite dense_inputs_cons, Hstep. cbn [bind]. rewrite Hloop.
    rewrite (contributions_ext h1 h _ _ Hrest).
    assert (contributions h ((o, idx, g) :: map dense_side rest) cnt
            = match o with
              | Some r => autosplit (default EmptyString (slot h r idx)) cnt
              | None => g
              end
              :: contributions h (map dense_side rest)
                   (match o with Some _ => S cnt | None => cnt end)) as Hc.
    { by destruct o. }
    rewrite Hc, <- app_assoc. split; [done|].
    split; [by eapply same_operators_trans|]. split.
    + intros r' idx' Hrs. rewrite producing_slots_cons in Hrs.
      rewrite Hoth2, Hoth1; [done|set_solver..].
    + intros [|k] r idx' g' Hk; simpl in Hk.
      * injection Hk as -> -> ->. simpl.
        rewrite Hoth2; [by apply Hnew1|].
        intros Hin. apply (Hdisj (r, idx')); [|done].
        unfold producing_slots. simpl. set_solver.
      * simpl. rewrite (Hnew2 k r idx' g' Hk).
        by rewrite (contributions_ext h1 h _ _ Hrest).
Qed.

Lemma producing_slots_app s1 s2 :
  producing_slots (s1 ++ s2) = producing_slots s1 ++ producing_slots s2.
Proof. unfold producing_slots. apply omap_app. Qed.

Lemma literals_app s1 s2 : literals (s1 ++ s2) = literals s1 ++ literals s2.
Proof. unfold literals. apply omap_app. Qed.

Lemma sides_valid_app h s1 s2 :
  sides_valid h (s1 ++ s2) ↔ sides_valid h s1 ∧ sides_valid h s2.
Proof. unfold sides_valid. rewrite producing_slots_app. apply Forall_app. Qed.

Lemma indices_slots_sparse generators r idx :
  (r, idx) ∈ producing_slots (map indices_side generators) →
  (r, idx) ∈ producing_slots (sparse_sides generators).
Proof.
  unfold producing_slots. rewrite !list_elem_of_omap.
  intros (s & Hs & Hf). exists s. split; [|done].
  apply list_elem_of_fmap in Hs as (g & -> & Hg).
  apply list_elem_of_In, in_flat_map. exists g.
  split; [by apply list_elem_of_In|]. simpl. auto.
Qed.

Lemma values_slots_sparse generators r idx :
  (r, idx) ∈ producing_slots (map values_side generators) →
  (r, idx) ∈ producing_slots (sparse_sides generators).
Proof.
  unfold producing_slots. rewrite !list_elem_of_omap.
  intros (s & Hs & Hf). exists s. split; [|done].
  apply list_elem_of_fmap in Hs as (g & -> & Hg).
  apply list_elem_of_In, in_flat_map. exists g.
  split; [by apply list_elem_of_In|]. simpl. auto.
Qed.

Lemma contributions_cons h o idx lit sides cnt :
  contributions h ((o, idx, lit) :: sides) cnt
  = match o with
    | Some r => autosplit (default EmptyString (slot h r idx)) cnt
    | None => lit
    end
    :: contributions h sides (match o with Some _ => S cnt | None => cnt end).
Proof. by destruct o. Qed.

(** The loop of _MakeSparseSumOps over sparse generators whose producing
    outputs exist and are distinct, and whose literal names differ from the
    base name: the indices and the values are numbered apart. *)
Lemma sparse_inputs_ok generators : ∀ h base ci cv acci accv,
  forallb (fun g => negb (is_dense g)) generators = true →
  sides_valid h (sparse_sides generators) →
  NoDup (producing_slots (sparse_sides generators)) →
  base ∉ literals (sparse_sides generators) →
  ∃ h1,
    sparse_inputs h generators base ci cv acci accv
    = Ok (h1,
          acci ++ contributions h (map indices_side generators) ci,
          accv ++ contributions h (map values_side generators) cv)
    ∧ same_operators h h1
    ∧ (∀ r idx, (r, idx) ∉ producing_slots (sparse_sides generators) →
                slot h1 r idx = slot h r idx)
    ∧ (∀ k oi ii ov iv g,
         generators !! k = Some (SparseGradGenMeta oi ii ov iv g) →
         (∀ r, oi = Some r →
               slot h1 r ii
               = contributions h (map indices_side generators) ci !! k)
         ∧ (∀ r, ov = Some r →
                 slot h1 r iv
                 = contributions h (map values_side generators) cv !! k)).
Proof.
  induction generators as [|[|oi ii ov iv g] rest IH];
    intros h base ci cv acci accv Hd Hv Hnd Hl; [|done|].
  - exists h. simpl. rewrite !app_nil_r. split; [done|].
    split; [apply same_operators_refl|]. split; [done|]. by intros [].
  - simpl in Hd.
    change (sparse_sides (SparseGradGenMeta oi ii ov iv g :: rest))
      with ([(oi, ii, g.1)] ++ [(ov, iv, g.2)] ++ sparse_sides rest) in *.
    rewrite !sides_valid_app in Hv. destruct Hv as (Hvi & Hvv & Hv).
    rewrite !producing_slots_app in Hnd.
    apply NoDup_app in Hnd as (_ & Hdi & Hnd).
    apply NoDup_app in Hnd as (_ & Hdv & Hnd).
    rewrite !literals_app in Hl.
    destruct (sparse_side_ok h oi ii ci base g.1 Hvi ltac:(set_solver))
      as (h1 & Hstep1 & Hsame1 & Hoth1 & Hnew1).
    assert (sides_valid h1 [(ov, iv, g.2)]) as Hvv1.
    { eapply sides_valid_ext; [|exact Hvv]. intros r idx Hin. apply Hoth1.
      intros Hin'. apply (Hdi (r, idx)); set_solver. }
    destruct (sparse_side_ok h1 ov iv cv base g.2 Hvv1 ltac:(set_solver))
      as (h2 & Hstep2 & Hsame2 & Hoth2 & Hnew2).
    assert (∀ r idx, (r, idx) ∈ producing_slots (sparse_sides rest) →
                     slot h2 r idx = slot h r idx) as Hrest.
    { intros r idx Hin. rewrite Hoth2, Hoth1; [done|..].
      - intros Hin'. apply (Hdi (r, idx)); set_solver.
      - intros Hin'. apply (Hdv (r, idx)); set_solver. }
    assert (∀ r, ov = Some r → slot h1 r iv = slot h r iv) as Hov.
    { intros r ->. apply Hoth1.
      intros Hin. apply (Hdi (r, iv) Hin).
      unfold producing_slots. simpl. set_solver. }
    destruct (IH h2 base (match oi with Some _ => S ci | None => ci end)
                (match ov with Some _ => S cv | None => cv end)
                (acci ++ [match oi with
                          | Some r => autosplit (default EmptyString (slot h r ii)) ci
                          | None => g.1
                          end])
                (accv ++ [match ov with
                          | Some r => autosplit (default EmptyString (slot h1 r iv)) cv
                          | None => g.2
                          end]) Hd
                (sides_valid_ext _ _ _ Hrest Hv) Hnd ltac:(set_solver))
      as (h3 & Hloop & Hsame3 & Hoth3 & Hnew3).
    exists h3. cbn [sparse_inputs]. rewrite Hstep1. cbn [bind].
    rewrite Hstep2. cbn [bind]. rewrite Hloop.
    cbn [map indices_side values_side]. rewrite !contributions_cons.
    rewrite (contributions_ext h2 h (map indices_side rest))
      by (intros; apply Hrest; by apply indices_slots_sparse).
    rewrite (contributions_ext h2 h (map values_side rest))
      by (intros; apply Hrest; by apply values_slots_sparse).
    assert (match ov with
            | Some r => autosplit (default EmptyString (slot h1 r iv)) cv
            | None => g.2
            end
            = match ov with
              | Some r => autosplit (default EmptyString (slot h r iv)) cv
              | None => g.2
              end) as Hval.
    { destruct ov as [r|]; [|done]. by rewrite (Hov r eq_refl). }
    rewrite Hval, <- !app_assoc. split; [done|].
    split; [eauto using same_operators_trans|]. split.
    + intros r idx Hrs. rewrite !producing_slots_app, !not_elem_of_app in Hrs.
      destruct Hrs as (Hr1 & Hr2 & Hr3). by rewrite Hoth3, Hoth2, Hoth1.
    + intros [|k] oi' ii' ov' iv' g' Hk; simpl in Hk.
      * injection Hk as -> -> -> -> ->. simpl. split.
        -- intros r ->. rewrite Hoth3, Hoth2; [by apply Hnew1|..].
           ++ intros Hin. apply (Hdi (r, ii')); unfold producing_slots; simpl;
                set_solver.
           ++ intros Hin. apply (Hdi (r, ii')); unfold producing_slots; simpl;
                set_solver.
        -- intros r ->. rewrite Hoth3; [|].
           ++ by rewrite (Hnew2 r eq_refl), (Hov r eq_refl).
           ++ intros Hin. apply (Hdv (r, iv')); unfold producing_slots; simpl;
                set_solver.
      * simpl. destruct (Hnew3 k oi' ii' ov' iv' g' Hk) as [Hi Hvv'].
        split; intros r ->.
        -- rewrite (Hi r eq_refl).
           by rewrite (contributions_ext h2 h (map indices_side rest))
             by (intros; apply Hrest; by apply indices_slots_sparse).
        -- rewrite (Hvv' r eq_refl).
           by rewrite (contributions_ext h2 h (map values_side rest))
             by (intros; apply Hrest; by apply values_slots_sparse).
Qed.

(** * The base name and the device option of an accumulation *)

Lemma GetSumOpOutputName_spec heap generators input_name :
  _GetSumOpOutputName heap generators input_name
  = match first_base_slot generators with
    | Some (r, idx, suffix) =>
        let* o := output_at heap r idx in Ok (strip suffix o)
    | None => Ok (input_name +:+ "_grad")
    end.
Proof.
  unfold first_base_slot.
  induction generators as [|[[r|] idx g|[ri|] ii [rv|] iv g] rest IH]; simpl;
    try done.
  by destruct (output_at heap r idx).
Qed.

Lemma SetSumOpsDeviceOption_spec heap sum_ops generators :
  _SetSumOpsDeviceOption heap sum_ops generators
  = match first_placement_op generators with
    | Some r =>
        let* o := deref heap r in
        Ok match device_option o with
           | Some d => map (fun s => set_device_option s d) sum_ops
           | None => sum_ops
           end
    | None => Ok sum_ops
    end.
Proof.
  unfold first_placement_op.
  induction generators as [|g rest IH]; simpl; [done|].
  destruct (placement_op g) as [r|]; simpl; [|done].
  destruct (deref heap r) as [o|]; simpl; [|done]. by destruct (device_option o).
Qed.

(** With the operator it looks at in the heap, _SetSumOpsDeviceOption
    changes nothing but the device options, and all of them alike. *)
Lemma SetSumOpsDeviceOption_ok heap sum_ops generators :
  (∀ r, first_placement_op generators = Some r → is_Some (heap !! r)) →
  ∃ sum_ops1,
    _SetSumOpsDeviceOption heap sum_ops generators = Ok sum_ops1
    ∧ Forall2 same_but_device sum_ops sum_ops1
    ∧ Forall2 (fun o o1 =>
                 device_option o1 = stamped heap generators (device_option o))
              sum_ops sum_ops1.
Proof.
  intros Hv. rewrite SetSumOpsDeviceOption_spec. unfold stamped, deref.
  destruct (first_placement_op generators) as [r|].
  - destruct (Hv r eq_refl) as [o Ho]. rewrite Ho. simpl.
    destruct (device_option o) as [d|]; eexists; (split; [done|]).
    + split; apply Forall2_fmap_r, Forall_Forall2_diag, Forall_forall;
        by intros.
    + split; apply Forall_Forall2_diag, Forall_forall; by intros.
  - eexists. split; [done|].
    split; apply Forall_Forall2_diag, Forall_forall; by intros.
Qed.

Lemma DisambiguateGradOpOutput_same heap r idx cnt heap1 out cnt1 :
  _DisambiguateGradOpOutput heap r idx cnt = Ok (heap1, out, cnt1) →
  same_operators heap heap1.
Proof.
  intros H. destruct (slot heap r idx) as [old|] eqn:E.
  - destruct (DisambiguateGradOpOutput_ok heap r idx cnt old E)
      as (h & Hd & _ & _ & Hs). rewrite Hd in H. by injection H as <- _ _.
  - destruct (DisambiguateGradOpOutput_invalid heap r idx cnt E) as [e He].
    congruence.
Qed.

Lemma sparse_side_same heap o idx cnt base lit heap1 out cnt1 :
  sparse_side heap o idx cnt base lit = Ok (heap1, out, cnt1) →
  same_operators heap heap1.
Proof.
  destruct o as [r|]; simpl.
  - apply DisambiguateGradOpOutput_same.
  - destruct (_CheckSumOpsConflict base lit); simpl; [|done].
    intros [= <- _ _]. apply same_operators_refl.
Qed.

Lemma dense_inputs_same generators : ∀ heap base cnt acc heap1 l,
  dense_inputs heap generators base cnt acc = Ok (heap1, l) →
  same_operators heap heap1.
Proof.
  induction generators as [|[o idx g|] rest IH]; intros heap base cnt acc heap1 l;
    [| |done].
  - intros [= <- _]. apply same_operators_refl.
  - rewrite dense_inputs_cons.
    destruct (sparse_side heap o idx cnt base g) as [[[h1 out] cnt1]|] eqn:E;
      simpl; [|done].
    intros H. eapply same_operators_trans; [by eapply sparse_side_same|].
    by eapply IH.
Qed.

Lemma sparse_inputs_same generators : ∀ heap base ci cv acci accv heap1 li lv,
  sparse_inputs heap generators base ci cv acci accv = Ok (heap1, li, lv) →
  same_operators heap heap1.
Proof.
  induction generators as [|[|oi ii ov iv g] rest IH];
    intros heap base ci cv acci accv heap1 li lv; [|done|].
  - intros [= <- _ _]. apply same_operators_refl.
  - cbn [sparse_inputs].
    destruct (sparse_side heap oi ii ci base g.1) as [[[h1 out1] c1]|] eqn:E1;
      cbn [bind]; [|done].
    destruct (sparse_side h1 ov iv cv base g.2) as [[[h2 out2] c2]|] eqn:E2;
      cbn [bind]; [|done].
    intros H.
    eapply same_operators_trans; [by eapply sparse_side_same|].
    eapply same_operators_trans; [by eapply sparse_side_same|].
    by eapply IH.
Qed.

Lemma stamped_same h h1 generators built :
  same_operators h h1 → stamped h1 generators built = stamped h generators built.
Proof.
  intros [Hlen Hsame]. unfold stamped.
  destruct (first_placement_op generators) as [r|]; [|done].
  destruct (h !! r) as [o|] eqn:E, (h1 !! r) as [o1|] eqn:E1.
  - destruct (Hsame r o o1 E E1) as (_ & _ & _ & Hd & _). by rewrite Hd.
  - apply lookup_lt_Some in E. apply lookup_ge_None in E1. lia.
  - apply lookup_lt_Some in E1. apply lookup_ge_None in E. lia.
  - done.
Qed.

Lemma SetSumOpsDeviceOption_inv heap sum_ops generators sum_ops1 :
  _SetSumOpsDeviceOption heap sum_ops generators = Ok sum_ops1 →
  Forall2 same_but_device sum_ops sum_ops1
  ∧ Forall2 (fun o o1 =>
               device_option o1 = stamped heap generators (device_option o))
            sum_ops sum_ops1.
Proof.
  intros H.
  destruct (SetSumOpsDeviceOption_ok heap sum_ops generators) as (l & Hl & HH).
  - intros r Hr. rewrite SetSumOpsDeviceOption_spec, Hr in H. unfold deref in H.
    destruct (heap !! r); [by eexists|done].
  - rewrite Hl in H. by injection H as <-.
Qed.

(** C9 (as amended).  The accumulation operators of a versioned blob all
    get the same device option.  It is that of the producing operator of the
    first generator that has a producing operator at all (for a sparse
    generator the operator that produces the values, or else the one that
    produces the indices), when that operator has a device option; in every
    other case the operators keep what CreateOperator gave them, the current
    device scope, so that outside a device scope they are left unplaced. *)
Theorem MakeSumOps_device_option (ns : string) (ds : option DeviceOption)
  (heap : Heap) (ir : IR) (input_name : string) (input_version : nat)
  (heap1 : Heap) (sum_ops : list OperatorDef) (g : Grad) :
  _MakeSumOps ns ds heap ir input_name input_version = Ok (heap1, sum_ops, g) →
  ∀ o, o ∈ sum_ops →
    device_option o
    = stamped heap
        (generators_of (gradient_generators ir) input_name input_version) ds.
Proof.
  unfold _MakeSumOps.
  set (generators := generators_of (gradient_generators ir) input_name input_version).
  destruct (_GetSumOpOutputName heap generators input_name) as [base|]; simpl;
    [|done].
  destruct (assert _); simpl; [|done].
  assert (∀ r : Res (Heap * list OperatorDef * Grad),
    (∀ h l g0, r = Ok (h, l, g0) →
       same_operators heap h ∧ Forall (fun o => device_option o = ds) l) →
    (let* (heap2, sum_ops0, g0) := r in
     let* sum_ops1 := _SetSumOpsDeviceOption heap2 sum_ops0 generators in
     Ok (heap2, sum_ops1, g0)) = Ok (heap1, sum_ops, g) →
    ∀ o, o ∈ sum_ops → device_option o = stamped heap generators ds) as Hgen.
  { intros [[[h l] g0]|] Hr; simpl; [|done].
    destruct (Hr h l g0 eq_refl) as [Hsame Hds].
    destruct (_SetSumOpsDeviceOption h l generators) as [l1|] eqn:E; simpl;
      [|done].
    intros [= <- <- <-] o Ho.
    apply SetSumOpsDeviceOption_inv in E as [_ E].
    rewrite <- (stamped_same heap h generators ds Hsame).
    apply list_elem_of_lookup in Ho as [k Hk].
    destruct (Forall2_lookup_r _ _ _ _ _ E Hk) as (o0 & Hk0 & ->).
    f_equal. rewrite Forall_forall in Hds. apply Hds.
    by eapply list_elem_of_lookup_2. }
  destruct generators as [|[o idx g0|oi ii ov iv g0] rest] eqn:Eg.
  - apply Hgen. intros h l g1. unfold _MakeSparseSumOps. simpl.
    intros [= <- <- _]. split; [apply same_operators_refl|].
    by repeat constructor.
  - apply Hgen. intros h l g1. unfold _MakeDenseSumOps.
    destruct (dense_inputs heap _ base 0 []) as [[h1 l1]|] eqn:E; simpl; [|done].
    intros [= <- <- _]. split; [by eapply dense_inputs_same|].
    by repeat constructor.
  - apply Hgen. intros h l g1. unfold _MakeSparseSumOps.
    destruct (sparse_inputs heap _ base 0 0 [] []) as [[[h1 li] lv]|] eqn:E;
      cbn [bind]; [|done].
    intros [= <- <- _]. split; [by eapply sparse_inputs_same|].
    by repeat constructor.
Qed.

Lemma MakeSumOps_device_option_witness :
  ∃ heap1 sum_ops g,
    _MakeSumOps "" None two_gradients two_generators "X" 0
    = Ok (heap1, sum_ops, g)
    ∧ sum_ops ≠ []
    ∧ Forall (fun o => device_option o = Some cuda_0) sum_ops.
Proof.
  eexists _, _, _. split; [reflexivity|]. split; [done|].
  apply Forall_forall. intros o Ho.
  by rewrite (MakeSumOps_device_option "" None two_gradients two_generators
                "X" 0 _ _ _ eq_refl o Ho).
Defined.

(** C9 as stated fails.  In the backward pass of
    [T1 = F(X); T2 = G(X); Y = Mul(T1, T2)] the gradient of [X] has two
    generators; the operator of the first has no device option, the operator
    of the second has one, and the Sum operator is left without. *)
Lemma sum_op_unplaced_despite_a_placement :
  summary (GetBackwardPass "" None remove_dups chain_rule ∅ id two_consumers
             (YsDict [(Str "Y", Some (Dense "g"))]))
  = Ok [("Mul", ["g"; "T2"], ["T1_grad"], None);
        ("Mul", ["g"; "T1"], ["T2_grad"], None);
        ("GGradient", ["T2"; "T2_grad"], ["_X_grad_autosplit_0"], None);
        ("FGradient", ["T1"; "T1_grad"], ["_X_grad_autosplit_1"],
         Some default_device_option);
        ("Sum", ["_X_grad_autosplit_0"; "_X_grad_autosplit_1"], ["X_grad"],
         None)].
Proof. vm_compute. reflexivity. Qed.

(** * Dense accumulation *)

Lemma GetSumOpOutputName_ok heap generators input_name :
  (∀ r idx suffix, first_base_slot generators = Some (r, idx, suffix) →
                   is_Some (slot heap r idx)) →
  _GetSumOpOutputName heap generators input_name
  = Ok (base_name heap generators input_name).
Proof.
  intros Hv. rewrite GetSumOpOutputName_spec. unfold base_name.
  destruct (first_base_slot generators) as [[[r idx] suffix]|]; [|done].
  destruct (Hv r idx suffix eq_refl) as [s Hs].
  by rewrite output_at_slot, Hs.
Qed.

Lemma first_base_slot_dense generators r idx suffix :
  forallb is_dense generators = true →
  first_base_slot generators = Some (r, idx, suffix) →
  (r, idx) ∈ producing_slots (map dense_side generators) ∧ suffix = None.
Proof.
  unfold first_base_slot.
  induction generators as [|[[r'|] idx' g|] rest IH]; simpl; try done.
  intros _ [= -> -> <-]. split; [|done]. unfold producing_slots. simpl.
  set_solver.
Qed.

Lemma first_placement_op_dense generators r :
  forallb is_dense generators = true →
  first_placement_op generators = Some r →
  ∃ idx, (r, idx) ∈ producing_slots (map dense_side generators).
Proof.
  unfold first_placement_op.
  induction generators as [|[[r'|] idx' g|] rest IH]; simpl; try done.
  intros _ [= ->]. exists idx'. unfold producing_slots. simpl. set_solver.
Qed.

Lemma slot_is_Some_lookup heap r idx :
  is_Some (slot heap r idx) → is_Some (heap !! r).
Proof. unfold slot. destruct (heap !! r); [by eexists|by intros [? ?]]. Qed.

Lemma same_operators_lookup h h1 r :
  same_operators h h1 → is_Some (h !! r) → is_Some (h1 !! r).
Proof.
  intros [Hlen _] [o Ho]. apply lookup_lt_is_Some. rewrite <- Hlen.
  by eapply lookup_lt_Some.
Qed.

Lemma sides_valid_elem heap sides r idx :
  sides_valid heap sides → (r, idx) ∈ producing_slots sides →
  is_Some (slot heap r idx).
Proof.
  unfold sides_valid. rewrite Forall_forall. intros H Hin. apply (H (r, idx) Hin).
Qed.

Lemma dense_not_mixed generators :
  forallb is_dense generators = true → mixed generators = false.
Proof.
  intros H. unfold mixed. apply andb_false_iff. right.
  apply not_true_is_false. intros He. apply existsb_exists in He as (g & Hg & Hn).
  rewrite forallb_forall in H. rewrite (H g Hg) in Hn. done.
Qed.

(** A literal name equal to the base name stops the loop of
    _MakeDenseSumOps. *)
Lemma dense_inputs_conflict generators : ∀ h base cnt acc,
  forallb is_dense generators = true →
  sides_valid h (map dense_side generators) →
  NoDup (producing_slots (map dense_side generators)) →
  base ∈ literals (map dense_side generators) →
  dense_inputs h generators base cnt acc = Raise SumOpsConflict.
Proof.
  induction generators as [|[o idx g|] rest IH]; intros h base cnt acc Hd Hv Hnd Hl;
    [by apply elem_of_nil in Hl| |done].
  simpl in Hd. cbn [map dense_side] in *.
  apply sides_valid_cons in Hv as [Hv0 Hv].
  rewrite producing_slots_cons in Hnd. apply NoDup_app in Hnd as (_ & Hdisj & Hnd).
  rewrite literals_cons in Hl. rewrite dense_inputs_cons.
  destruct (decide (base ∈ literals [(o, idx, g)])) as [Hin|Hout].
  - destruct o as [r|]; unfold literals in Hin; simpl in Hin;
      [by apply elem_of_nil in Hin|].
    apply list_elem_of_singleton in Hin as ->. by rewrite sparse_side_conflict.
  - destruct (sparse_side_ok h o idx cnt base g Hv0 Hout)
      as (h1 & Hstep & _ & Hoth1 & _).
    rewrite Hstep. cbn [bind]. apply IH; [done| |done|set_solver].
    eapply sides_valid_ext; [|exact Hv]. intros r' idx' Hrs. apply Hoth1.
    intros Hin. by apply (Hdisj (r', idx')).
Qed.

(** C2.  When the generators of a versioned blob are N >= 2 dense
    generators (whose producing outputs exist and are distinct outputs),
    _MakeSumOps emits exactly one operator, a Sum.  Its output is the base
    name: the name of the output of the first generator that has a producing
    operator, and [<blob>_grad] when none has one.  Its inputs are the N
    contributions in order: the output of a producing operator, which is
    renamed in place to [_<name>_autosplit_<counter>] with a counter that
    starts at 0 and grows with every producing operator, and the literal
    name of a generator without a producing operator.  When such a literal
    name is the base name, the call fails with the conflict error. *)
Theorem dense_accumulation (ns : string) (ds : option DeviceOption)
  (heap : Heap) (ir : IR) (input_name : string) (input_version : nat) :
  let generators :=
    generators_of (gradient_generators ir) input_name input_version in
  let sides := map dense_side generators in
  let base := base_name heap generators input_name in
  2 ≤ length generators →
  forallb is_dense generators = true →
  sides_valid heap sides →
  NoDup (producing_slots sides) →
  (base ∈ literals sides →
   _MakeSumOps ns ds heap ir input_name input_version = Raise SumOpsConflict)
  ∧ (base ∉ literals sides →
     ∃ heap1 sum_op,
       _MakeSumOps ns ds heap ir input_name input_version
       = Ok (heap1, [sum_op], Dense base)
       ∧ type sum_op = "Sum"
       ∧ output sum_op = [base]
       ∧ input sum_op = contributions heap sides 0
       ∧ length (input sum_op) = length generators
       ∧ same_operators heap heap1
       ∧ (∀ r idx, (r, idx) ∉ producing_slots sides →
                   slot heap1 r idx = slot heap r idx)
       ∧ (∀ k r idx g, generators !! k = Some (GradGenMeta (Some r) idx g) →
                       slot heap1 r idx = input sum_op !! k)).
Proof.
  intros generators sides base Hlen Hd Hv Hnd.
  unfold _MakeSumOps. fold generators.
  rewrite GetSumOpOutputName_ok.
  2: { intros r idx suffix Hb.
       destruct (first_base_slot_dense _ _ _ _ Hd Hb) as [Hin _].
       by eapply sides_valid_elem. }
  fold base. cbn [bind]. rewrite (dense_not_mixed _ Hd).
  assert (generators ≠ []) as Hne by (intros E; rewrite E in Hlen; simpl in Hlen; lia).
  rewrite bool_decide_eq_false_2 by done. cbn [negb andb assert bind].
  assert ((match generators with
           | GradGenMeta _ _ _ :: _ => _MakeDenseSumOps ns ds heap generators base
           | _ => _MakeSparseSumOps ns ds heap generators base
           end) = _MakeDenseSumOps ns ds heap generators base) as ->.
  { destruct generators as [|[|] ?]; done. }
  unfold _MakeDenseSumOps. split.
  - intros Hl. by rewrite (dense_inputs_conflict _ _ _ 0 [] Hd Hv Hnd Hl).
  - intros Hl.
    destruct (dense_inputs_ok generators heap base 0 [] Hd Hv Hnd Hl)
      as (heap1 & Hloop & Hsame & Hoth & Hnew).
    rewrite Hloop. cbn [bind app].
    set (sum_op := CreateOperator ns ds "Sum" _ _ _).
    destruct (SetSumOpsDeviceOption_ok heap1 [sum_op] generators)
      as (ops1 & Hset & Hsd & _).
    { intros r Hr. destruct (first_placement_op_dense _ _ Hd Hr) as [idx Hin].
      eapply same_operators_lookup; [exact Hsame|].
      eapply slot_is_Some_lookup, sides_valid_elem; [exact Hv|exact Hin]. }
    rewrite Hset. cbn [bind].
    apply Forall2_cons_inv_l in Hsd as (sum_op1 & rest & Hsb & Hrest & ->).
    apply Forall2_nil_inv_l in Hrest as ->.
    destruct Hsb as (Ht & _ & Hi & Ho & _).
    assert (input sum_op = contributions heap sides 0) as Hinp.
    { subst sum_op. unfold CreateOperator. simpl.
      rewrite map_map. simpl. apply map_id. }
    exists heap1, sum_op1. split; [done|]. split; [by rewrite <- Ht|].
    split; [by rewrite <- Ho|]. rewrite <- Hi, Hinp.
    split; [done|]. split.
    { unfold sides. by rewrite contributions_length, length_map. }
    split; [done|]. split; [done|]. exact Hnew.
Qed.

Lemma dense_accumulation_witness :
  ∃ heap1 sum_op,
    _MakeSumOps "" None two_gradients two_generators "X" 0
    = Ok (heap1, [sum_op], Dense "X_grad")
    ∧ input sum_op = ["_X_grad_autosplit_0"; "_X_grad_autosplit_1"]
    ∧ output sum_op = ["X_grad"]
    ∧ slot heap1 0 0 = Some "_X_grad_autosplit_0"
    ∧ slot heap1 1 0 = Some "_X_grad_autosplit_1".
Proof.
  destruct (dense_accumulation "" None two_gradients two_generators "X" 0)
    as [_ H].
  - vm_compute. lia.
  - reflexivity.
  - unfold sides_valid. compute_done.
  - compute_done.
  - destruct H as (heap1 & sum_op & Heq & _ & Ho & Hi & _ & _ & _ & Hnew).
    + compute_done.
    + exists heap1, sum_op. split; [exact Heq|]. split; [exact Hi|].
      split; [exact Ho|]. split.
      * rewrite (Hnew 0 0 0 "X_grad" eq_refl), Hi. reflexivity.
      * rewrite (Hnew 1 1 0 "X_grad" eq_refl), Hi. reflexivity.
Defined.

(** * Sparse accumulation *)

Lemma string_length_app (b s : string) :
  String.length (b +:+ s) = String.length b + String.length s.
Proof. induction b as [|c b IH]; simpl; [done|]. by rewrite IH. Qed.

Lemma substring_all (s : string) : substring 0 (String.length s) s = s.
Proof. induction s as [|c s IH]; simpl; [done|]. by rewrite IH. Qed.

Lemma substring_skip_app (b s : string) (n : nat) :
  substring (String.length b) n (b +:+ s) = substring 0 n s.
Proof. induction b as [|c b IH]; simpl; [done|]. apply IH. Qed.

Lemma substring_take_app (b s : string) :
  substring 0 (String.length b) (b +:+ s) = b.
Proof.
  induction b as [|c b IH]; simpl; [by destruct s|]. by rewrite IH.
Qed.

Lemma endswith_app (b s : string) : endswith (b +:+ s) s = true.
Proof.
  unfold endswith. rewrite string_length_app.
  replace (String.length b + String.length s - String.length s)
    with (String.length b) by lia.
  rewrite substring_skip_app, substring_all, String.eqb_refl.
  apply andb_true_iff. split; [|done]. apply Nat.leb_le. lia.
Qed.

(** remove_suffix takes a suffix that is there off the name. *)
Lemma remove_suffix_app (b s : string) :
  s ≠ EmptyString → remove_suffix (b +:+ s) s = b.
Proof.
  intros Hs. unfold remove_suffix. rewrite endswith_app.
  destruct (String.length s) as [|k] eqn:E.
  - destruct s; [done|simpl in E; lia].
  - rewrite string_length_app, E.
    replace (String.length b + S k - S k) with (String.length b) by lia.
    apply substring_take_app.
Qed.

Lemma first_base_slot_sparse generators r idx suffix :
  forallb (fun g => negb (is_dense g)) generators = true →
  first_base_slot generators = Some (r, idx, suffix) →
  (r, idx) ∈ producing_slots (sparse_sides generators)
  ∧ (suffix = Some "_indices" ∨ suffix = Some "_values").
Proof.
  unfold first_base_slot.
  induction generators as [|[|[ri|] ii [rv|] iv g] rest IH]; simpl; try done.
  - intros _ [= -> -> <-]. split; [|by left].
    unfold producing_slots. simpl. set_solver.
  - intros _ [= -> -> <-]. split; [|by left].
    unfold producing_slots. simpl. set_solver.
  - intros _ [= -> -> <-]. split; [|by right].
    unfold producing_slots. simpl. set_solver.
Qed.

Lemma first_placement_op_sparse generators r :
  forallb (fun g => negb (is_dense g)) generators = true →
  first_placement_op generators = Some r →
  ∃ idx, (r, idx) ∈ producing_slots (sparse_sides generators).
Proof.
  unfold first_placement_op.
  induction generators as [|[|[ri|] ii [rv|] iv g] rest IH]; simpl; try done.
  - intros _ [= ->]. exists iv. unfold producing_slots. simpl. set_solver.
  - intros _ [= ->]. exists ii. unfold producing_slots. simpl. set_solver.
  - intros _ [= ->]. exists iv. unfold producing_slots. simpl. set_solver.
Qed.

Lemma sparse_not_mixed generators :
  forallb (fun g => negb (is_dense g)) generators = true →
  mixed generators = false.
Proof.
  intros H. unfold mixed. apply andb_false_iff. left.
  apply not_true_is_false. intros He. apply existsb_exists in He as (g & Hg & Hn).
  rewrite forallb_forall in H. specialize (H g Hg). by rewrite Hn in H.
Qed.

(** _MakeSumOps on sparse generators whose producing outputs exist and are
    distinct, and whose literal names differ from the base name. *)
Lemma MakeSumOps_sparse ns ds heap ir input_name input_version :
  let generators :=
    generators_of (gradient_generators ir) input_name input_version in
  let base := base_name heap generators input_name in
  generators ≠ [] →
  forallb (fun g => negb (is_dense g)) generators = true →
  sides_valid heap (sparse_sides generators) →
  NoDup (producing_slots (sparse_sides generators)) →
  base ∉ literals (sparse_sides generators) →
  ∃ heap1 concat_i concat_v,
    _MakeSumOps ns ds heap ir input_name input_version
    = Ok (heap1, [concat_i; concat_v],
          GradientSlice (base +:+ "_indices_concat") (base +:+ "_values_concat"))
    ∧ same_but_device
        (mkOperatorDef "Concat" ""
           (contributions heap (map indices_side generators) 0)
           [base +:+ "_indices_concat"; base +:+ "_indices_concat_split"]
           None [mkArgument "axis" (ArgInt 0)]) concat_i
    ∧ same_but_device
        (mkOperatorDef "Concat" ""
           (contributions heap (map values_side generators) 0)
           [base +:+ "_values_concat"; base +:+ "_values_concat_split"]
           None [mkArgument "axis" (ArgInt 0)]) concat_v
    ∧ same_operators heap heap1
    ∧ (∀ r idx, (r, idx) ∉ producing_slots (sparse_sides generators) →
                slot heap1 r idx = slot heap r idx)
    ∧ (∀ k oi ii ov iv g,
         generators !! k = Some (SparseGradGenMeta oi ii ov iv g) →
         (∀ r, oi = Some r → slot heap1 r ii = input concat_i !! k)
         ∧ (∀ r, ov = Some r → slot heap1 r iv = input concat_v !! k)).
Proof.
  intros generators base Hne Hd Hv Hnd Hl.
  unfold _MakeSumOps. fold generators.
  rewrite GetSumOpOutputName_ok.
  2: { intros r idx suffix Hb.
       destruct (first_base_slot_sparse _ _ _ _ Hd Hb) as [Hin _].
       by eapply sides_valid_elem. }
  fold base. cbn [bind]. rewrite (sparse_not_mixed _ Hd).
  rewrite bool_decide_eq_false_2 by done. cbn [negb andb assert bind].
  assert ((match generators with
           | GradGenMeta _ _ _ :: _ => _MakeDenseSumOps ns ds heap generators base
           | _ => _MakeSparseSumOps ns ds heap generators base
           end) = _MakeSparseSumOps ns ds heap generators base) as ->.
  { destruct generators as [|[|] ?]; done. }
  unfold _MakeSparseSumOps.
  destruct (sparse_inputs_ok generators heap base 0 0 [] [] Hd Hv Hnd Hl)
    as (heap1 & Hloop & Hsame & Hoth & Hnew).
  rewrite Hloop. cbn [bind app].
  set (ci := CreateOperator ns ds "Concat" _ _ _).
  set (cv := CreateOperator ns ds "Concat" _ _ _).
  destruct (SetSumOpsDeviceOption_ok heap1 [ci; cv] generators)
    as (ops1 & Hset & Hsd & _).
  { intros r Hr. destruct (first_placement_op_sparse _ _ Hd Hr) as [idx Hin].
    eapply same_operators_lookup; [exact Hsame|].
    eapply slot_is_Some_lookup, sides_valid_elem; [exact Hv|exact Hin]. }
  rewrite Hset. cbn [bind].
  apply Forall2_cons_inv_l in Hsd as (ci1 & rest & Hsi & Hrest & ->).
  apply Forall2_cons_inv_l in Hrest as (cv1 & rest' & Hsv & Hrest & ->).
  apply Forall2_nil_inv_l in Hrest as ->.
  assert (input ci = contributions heap (map indices_side generators) 0) as Hii.
  { subst ci. unfold CreateOperator. simpl. rewrite map_map. apply map_id. }
  assert (input cv = contributions heap (map values_side generators) 0) as Hiv.
  { subst cv. unfold CreateOperator. simpl. rewrite map_map. apply map_id. }
  exists heap1, ci1, cv1. split; [done|].
  destruct Hsi as (Hti & Hni & Hini & Houti & Hai).
  destruct Hsv as (Htv & Hnv & Hinv & Houtv & Hav).
  split; [|split].
  - unfold same_but_device. simpl. rewrite <- Hti, <- Hni, <- Hini, <- Houti, <- Hai.
    by rewrite Hii.
  - unfold same_but_device. simpl. rewrite <- Htv, <- Hnv, <- Hinv, <- Houtv, <- Hav.
    by rewrite Hiv.
  - split; [done|]. split; [done|].
    intros k oi ii ov iv g Hk. rewrite <- Hini, <- Hinv, Hii, Hiv.
    by apply (Hnew k oi ii ov iv g Hk).
Qed.

(** A literal name equal to the base name stops the loop of
    _MakeSparseSumOps. *)
Lemma sparse_inputs_conflict generators : ∀ h base ci cv acci accv,
  forallb (fun g => negb (is_dense g)) generators = true →
  sides_valid h (sparse_sides generators) →
  NoDup (producing_slots (sparse_sides generators)) →
  base ∈ literals (sparse_sides generators) →
  sparse_inputs h generators base ci cv acci accv = Raise SumOpsConflict.
Proof.
  induction generators as [|[|oi ii ov iv g] rest IH];
    intros h base ci cv acci accv Hd Hv Hnd Hl;
    [by apply elem_of_nil in Hl|done|].
  simpl in Hd.
  change (sparse_sides (SparseGradGenMeta oi ii ov iv g :: rest))
    with ([(oi, ii, g.1)] ++ [(ov, iv, g.2)] ++ sparse_sides rest) in *.
  rewrite !sides_valid_app in Hv. destruct Hv as (Hvi & Hvv & Hv).
  rewrite !producing_slots_app in Hnd.
  apply NoDup_app in Hnd as (_ & Hdi & Hnd).
  apply NoDup_app in Hnd as (_ & Hdv & Hnd).
  rewrite !literals_app in Hl. cbn [sparse_inputs].
  destruct (decide (base ∈ literals [(oi, ii, g.1)])) as [Hin|Hout].
  { destruct oi as [r|]; unfold literals in Hin; simpl in Hin;
      [by apply elem_of_nil in Hin|].
    apply list_elem_of_singleton in Hin as ->. by rewrite sparse_side_conflict. }
  destruct (sparse_side_ok h oi ii ci base g.1 Hvi Hout)
    as (h1 & Hstep1 & Hsame1 & Hoth1 & Hnew1).
  rewrite Hstep1. cbn [bind].
  destruct (decide (base ∈ literals [(ov, iv, g.2)])) as [Hin|Hout2].
  { destruct ov as [r|]; unfold literals in Hin; simpl in Hin;
      [by apply elem_of_nil in Hin|].
    apply list_elem_of_singleton in Hin as ->. by rewrite sparse_side_conflict. }
  assert (sides_valid h1 [(ov, iv, g.2)]) as Hvv1.
  { eapply sides_valid_ext; [|exact Hvv]. intros r idx Hin. apply Hoth1.
    intros Hin'. apply (Hdi (r, idx)); set_solver. }
  destruct (sparse_side_ok h1 ov iv cv base g.2 Hvv1 Hout2)
    as (h2 & Hstep2 & Hsame2 & Hoth2 & Hnew2).
  rewrite Hstep2. cbn [bind].
  apply IH; [done| |done|set_solver].
  eapply sides_valid_ext; [|exact Hv]. intros r idx Hin.
  rewrite Hoth2, Hoth1; [done|..].
  - intros Hin'. apply (Hdi (r, idx)); set_solver.
  - intros Hin'. apply (Hdv (r, idx)); set_solver.
Qed.

Lemma MakeSumOps_sparse_conflict ns ds heap ir input_name input_version :
  let generators :=
    generators_of (gradient_generators ir) input_name input_version in
  let base := base_name heap generators input_name in
  generators ≠ [] →
  forallb (fun g => negb (is_dense g)) generators = true →
  sides_valid heap (sparse_sides generators) →
  NoDup (producing_slots (sparse_sides generators)) →
  base ∈ literals (sparse_sides generators) →
  _MakeSumOps ns ds heap ir input_name input_version = Raise SumOpsConflict.
Proof.
  intros generators base Hne Hd Hv Hnd Hl.
  unfold _MakeSumOps. fold generators.
  rewrite GetSumOpOutputName_ok.
  2: { intros r idx suffix Hb.
       destruct (first_base_slot_sparse _ _ _ _ Hd Hb) as [Hin _].
       by eapply sides_valid_elem. }
  fold base. cbn [bind]. rewrite (sparse_not_mixed _ Hd).
  rewrite bool_decide_eq_false_2 by done. cbn [negb andb assert bind].
  assert ((match generators with
           | GradGenMeta _ _ _ :: _ => _MakeDenseSumOps ns ds heap generators base
           | _ => _MakeSparseSumOps ns ds heap generators base
           end) = _MakeSparseSumOps ns ds heap generators base) as ->.
  { destruct generators as [|[|] ?]; done. }
  unfold _MakeSparseSumOps.
  by rewrite (sparse_inputs_conflict _ _ _ 0 0 [] [] Hd Hv Hnd Hl).
Qed.

(** C3 (as amended).  When the generators of a versioned blob are N >= 2
    sparse generators (whose producing outputs exist and are distinct
    outputs) and no literal name, the indices or the values of a generator
    that has no operator producing them, is the base name, _MakeSumOps
    emits exactly two operators, both Concat with [axis = 0]: the first over
    the N indices contributions and the second over the N values
    contributions, each in the order of the generators, one entry per
    generator, and each numbered by a counter of its own that starts at 0.
    The gradient it returns is the pair of the first outputs of the two
    operators, and the producing outputs carry their autosplit names
    afterwards.  When such a literal name is the base name, the call fails
    with the conflict error and emits no operator. *)
Theorem sparse_accumulation (ns : string) (ds : option DeviceOption)
  (heap : Heap) (ir : IR) (input_name : string) (input_version : nat) :
  let generators :=
    generators_of (gradient_generators ir) input_name input_version in
  let base := base_name heap generators input_name in
  2 ≤ length generators →
  forallb (fun g => negb (is_dense g)) generators = true →
  sides_valid heap (sparse_sides generators) →
  NoDup (producing_slots (sparse_sides generators)) →
  (base ∈ literals (sparse_sides generators) →
   _MakeSumOps ns ds heap ir input_name input_version = Raise SumOpsConflict)
  ∧ (base ∉ literals (sparse_sides generators) →
     ∃ heap1 concat_i concat_v,
       _MakeSumOps ns ds heap ir input_name input_version
       = Ok (heap1, [concat_i; concat_v],
             GradientSlice (base +:+ "_indices_concat")
               (base +:+ "_values_concat"))
       ∧ type concat_i = "Concat" ∧ type concat_v = "Concat"
       ∧ arg concat_i = [mkArgument "axis" (ArgInt 0)]
       ∧ arg concat_v = [mkArgument "axis" (ArgInt 0)]
       ∧ input concat_i = contributions heap (map indices_side generators) 0
       ∧ input concat_v = contributions heap (map values_side generators) 0
       ∧ length (input concat_i) = length generators
       ∧ length (input concat_v) = length generators
       ∧ output concat_i
         = [base +:+ "_indices_concat"; base +:+ "_indices_concat_split"]
       ∧ output concat_v
         = [base +:+ "_values_concat"; base +:+ "_values_concat_split"]
       ∧ (∀ k oi ii ov iv g,
            generators !! k = Some (SparseGradGenMeta oi ii ov iv g) →
            (∀ r, oi = Some r → slot heap1 r ii = input concat_i !! k)
            ∧ (∀ r, ov = Some r → slot heap1 r iv = input concat_v !! k))).
Proof.
  intros generators base Hlen Hd Hv Hnd.
  assert (generators ≠ []) as Hne by (intros E; rewrite E in Hlen; simpl in Hlen; lia).
  split.
  { intros Hl.
    by apply (MakeSumOps_sparse_conflict ns ds heap ir input_name input_version). }
  intros Hl.
  destruct (MakeSumOps_sparse ns ds heap ir input_name input_version
              Hne Hd Hv Hnd Hl)
    as (heap1 & ci & cv & Heq & Hi & Hvv & _ & _ & Hnew).
  destruct Hi as (Hti & _ & Hini & Houti & Hai).
  destruct Hvv as (Htv & _ & Hinv & Houtv & Hav). simpl in *.
  exists heap1, ci, cv. split; [exact Heq|].
  repeat split; try done.
  - by rewrite <- Hini, contributions_length, length_map.
  - by rewrite <- Hinv, contributions_length, length_map.
  - by apply (Hnew k oi ii ov iv g).
  - by apply (Hnew k oi ii ov iv g).
Qed.

Lemma sparse_accumulation_witness :
  ∃ heap1 concat_i concat_v,
    _MakeSumOps "" None sparse_gradients sparse_generators "W" 0
    = Ok (heap1, [concat_i; concat_v],
          GradientSlice "W_grad_indices_concat" "W_grad_values_concat")
    ∧ input concat_i = ["_W_grad_indices_autosplit_0"; "IDX"]
    ∧ input concat_v
      = ["_W_grad_values_autosplit_0"; "_W_grad_values_autosplit_1"].
Proof.
  destruct (sparse_accumulation "" None sparse_gradients sparse_generators "W" 0)
    as [_ H].
  - vm_compute. lia.
  - reflexivity.
  - unfold sides_valid. compute_done.
  - compute_done.
  - destruct H as (heap1 & ci & cv & Heq & _ & _ & _ & _ & Hi & Hv & _).
    + compute_done.
    + exists heap1, ci, cv. split; [exact Heq|]. split; [exact Hi|exact Hv].
Defined.

(** C3 as stated fails.  In the backward pass of
    [T1 = Gather(W, IDX1); T2 = Gather(W, IDX2)] with the gradient [W_grad]
    given for [T1], the blob [W] has two consumers and two sparse
    generators when the pass comes to operator 0, the accumulation is
    attempted, and it raises the conflict error: no Concat operator is
    emitted and the backward pass fails. *)
Lemma sparse_conflict_emits_nothing :
  ∃ ir heap,
    two_gathers_recorded = Ok (ir, heap)
    ∧ usages_of (input_usages ir) "W" 0 = [0; 1]
    ∧ generators_of (gradient_generators ir) "W" 0
      = [SparseGradGenMeta None 0 None 0 ("IDX2", "T2_grad");
         SparseGradGenMeta None 0 None 0 ("IDX1", "W_grad")]
    ∧ _MakeSumOps "" None heap ir "W" 0 = Raise SumOpsConflict
    ∧ GetBackwardPass "" None remove_dups gather_rule ∅ id two_gathers
        (YsDict two_gathers_targets)
      = Raise SumOpsConflict.
Proof.
  eexists _, _. split; [vm_compute; reflexivity|].
  repeat split; vm_compute; reflexivity.
Qed.

(** C10.  When the base name comes from a sparse generator, it is the name
    of the output of the operator that produces the indices without a
    trailing [_indices], or, for a generator that has only an operator that
    produces the values, the name of that output without a trailing
    [_values]; so for an output named [<b>_indices] (respectively
    [<b>_values]) the two Concat operators write [<b>_indices_concat] and
    [<b>_values_concat], next to their [_split] outputs. *)
Theorem sparse_base_name_strips_suffix (ns : string) (ds : option DeviceOption)
  (heap : Heap) (ir : IR) (input_name : string) (input_version : nat)
  (r idx : nat) (suffix b : string) :
  let generators :=
    generators_of (gradient_generators ir) input_name input_version in
  forallb (fun g => negb (is_dense g)) generators = true →
  sides_valid heap (sparse_sides generators) →
  NoDup (producing_slots (sparse_sides generators)) →
  first_base_slot generators = Some (r, idx, Some suffix) →
  slot heap r idx = Some (b +:+ suffix) →
  b ∉ literals (sparse_sides generators) →
  (suffix = "_indices" ∨ suffix = "_values")
  ∧ _GetSumOpOutputName heap generators input_name = Ok b
  ∧ ∃ heap1 concat_i concat_v,
      _MakeSumOps ns ds heap ir input_name input_version
      = Ok (heap1, [concat_i; concat_v],
            GradientSlice (b +:+ "_indices_concat") (b +:+ "_values_concat"))
      ∧ output concat_i = [b +:+ "_indices_concat"; b +:+ "_indices_concat_split"]
      ∧ output concat_v = [b +:+ "_values_concat"; b +:+ "_values_concat_split"].
Proof.
  intros generators Hd Hv Hnd Hb Hs Hl.
  destruct (first_base_slot_sparse _ _ _ _ Hd Hb) as [_ Hsuf].
  assert (suffix = "_indices" ∨ suffix = "_values") as Hsuf'
    by (destruct Hsuf as [[= <-]|[= <-]]; auto).
  assert (base_name heap generators input_name = b) as Hbase.
  { unfold base_name. rewrite Hb, Hs. simpl. apply remove_suffix_app.
    by destruct Hsuf' as [->| ->]. }
  split; [done|]. split.
  { rewrite GetSumOpOutputName_ok, Hbase; [done|].
    intros r' idx' s' Hb'. rewrite Hb in Hb'. injection Hb' as <- <- <-.
    by rewrite Hs. }
  assert (generators ≠ []) as Hne by (intros E; by rewrite E in Hb).
  destruct (MakeSumOps_sparse ns ds heap ir input_name input_version
              Hne Hd Hv Hnd) as (heap1 & ci & cv & Heq & Hi & Hvv & _).
  { fold generators. by rewrite Hbase. }
  fold generators in Heq, Hi, Hvv. rewrite Hbase in Heq, Hi, Hvv.
  destruct Hi as (_ & _ & _ & Houti & _). destruct Hvv as (_ & _ & _ & Houtv & _).
  simpl in *. by exists heap1, ci, cv.
Qed.

Lemma sparse_base_name_strips_suffix_witness :
  _GetSumOpOutputName sparse_gradients
    (generators_of (gradient_generators sparse_generators) "W" 0) "W"
  = Ok "W_grad".
Proof.
  destruct (sparse_base_name_strips_suffix "" None sparse_gradients
              sparse_generators "W" 0 0 0 "_indices" "W_grad")
    as (_ & H & _).
  - reflexivity.
  - unfold sides_valid. compute_done.
  - compute_done.
  - reflexivity.
  - reflexivity.
  - compute_done.
  - exact H.
Defined.

(** * Accumulation *)

Lemma VerifyGradientGenerators_mixed heap generator :
  mixed generator = true →
  _VerifyGradientGenerators heap generator = Raise MixedSparseDense.
Proof. intros H. unfold _VerifyGradientGenerators. by rewrite H. Qed.

Lemma VerifyGradientGenerators_true heap generator :
  _VerifyGradientGenerators heap generator = Ok true →
  2 ≤ length generator ∧ mixed generator = false.
Proof.
  unfold _VerifyGradientGenerators.
  destruct (mixed generator); [done|].
  destruct (length generator <? 2) eqn:E; [done|].
  intros _. split; [|done]. apply Nat.ltb_ge in E. lia.
Qed.

(** What it takes for the loop body of DoGradientAccumulation to build
    accumulation operators for an input name. *)
Lemma accumulate_input_Some ns ds heap ir e i n r :
  accumulate_input ns ds heap ir e i n = Ok (Some r) →
  ∃ v, in_versions e !! n = Some v
       ∧ 1 < length (usages_of (input_usages ir) n v)
       ∧ usages_of (input_usages ir) n v !! 0 = Some i
       ∧ 2 ≤ length (generators_of (gradient_generators ir) n v)
       ∧ _MakeSumOps ns ds heap ir n v = Ok r.
Proof.
  unfold accumulate_input, getitem.
  destruct (in_versions e !! n) as [v|]; simpl; [|done].
  destruct (length (usages_of (input_usages ir) n v) <=? 1) eqn:El; simpl;
    [done|].
  destruct (bool_decide (usages_of (input_usages ir) n v !! 0 = Some i)) eqn:Eh;
    simpl; [|done].
  destruct (_VerifyGradientGenerators heap _) as [[|]|err] eqn:Ev; simpl.
  - destruct (_MakeSumOps ns ds heap ir n v) as [r'|] eqn:Em; simpl; [|done].
    intros [= <-]. exists v. apply Nat.leb_gt in El.
    apply bool_decide_eq_true in Eh.
    apply VerifyGradientGenerators_true in Ev as [Hlen _]. done.
  - done.
  - by destruct (is_RuntimeError err).
Qed.

Lemma accumulate_input_mixed ns ds heap ir e i n v :
  in_versions e !! n = Some v →
  1 < length (usages_of (input_usages ir) n v) →
  usages_of (input_usages ir) n v !! 0 = Some i →
  mixed (generators_of (gradient_generators ir) n v) = true →
  accumulate_input ns ds heap ir e i n = Raise (FailedToVerify n MixedSparseDense).
Proof.
  intros Hv Hlen Hhead Hmix. unfold accumulate_input, getitem. rewrite Hv. simpl.
  rewrite (proj2 (Nat.leb_gt _ _)) by lia.
  rewrite bool_decide_eq_true_2 by done. simpl.
  by rewrite VerifyGradientGenerators_mixed.
Qed.

Lemma accumulate_raises ns ds ir e i n names : ∀ st,
  n ∈ names →
  (∀ heap, ∃ err, accumulate_input ns ds heap ir e i n = Raise err) →
  ∃ err, accumulate ns ds ir e i names st = Raise err.
Proof.
  induction names as [|m names IH]; intros [[heap ops] gm] Hin Hn;
    [by apply elem_of_nil in Hin|].
  simpl. destruct (decide (m = n)) as [->|Hne].
  - destruct (Hn heap) as [err ->]. by eexists.
  - destruct (accumulate_input ns ds heap ir e i m) as [[[[h1 so] g]|]|err];
      simpl; [| |by eexists]; apply IH; set_solver.
Qed.

(** C4 (as amended).  Recording a generator appends it to the list of its
    versioned blob whatever the list holds.  A list that holds both a dense
    and a sparse generator is refused when accumulation is attempted:
    _VerifyGradientGenerators raises the mixed sparse/dense error on it, the
    loop body of DoGradientAccumulation raises that error, wrapped with the
    name of the blob, for an input whose version has more than one usage of
    which the current operator is the first, DoGradientAccumulation then
    fails, returning no operators, and so does the backward pass at the
    step that left the list in this state. *)
Theorem mixed_generators_fail_at_accumulation (ns : string)
  (ds : option DeviceOption) (set_order : list string → list string)
  (heap : Heap) (ir : IR) (i : nat) (e : OpSSA) (n : string) (v : nat) :
  let generators := generators_of (gradient_generators ir) n v in
  ssa ir !! i = Some e →
  n ∈ set_order (input (op e)) →
  in_versions e !! n = Some v →
  1 < length (usages_of (input_usages ir) n v) →
  usages_of (input_usages ir) n v !! 0 = Some i →
  existsb is_dense generators = true →
  existsb (fun g => negb (is_dense g)) generators = true →
  (∀ g, generators_of (append_generator (gradient_generators ir) n v g) n v
        = generators ++ [g])
  ∧ _VerifyGradientGenerators heap generators = Raise MixedSparseDense
  ∧ accumulate_input ns ds heap ir e i n
    = Raise (FailedToVerify n MixedSparseDense)
  ∧ (∃ err, DoGradientAccumulation ns ds set_order heap ir i = Raise err)
  ∧ (∀ (native : Rule) (registry : gmap string Rule) ir0 all_input_to_grad
       all_gradient_ops input_to_grad gradient_ops rest,
       _GenerateGradientsForForwardOp native registry (length all_gradient_ops)
         ir0 i all_input_to_grad
       = Ok (ir, input_to_grad, gradient_ops) →
       ∃ err, backward ns ds set_order native registry (i :: rest)
                (ir0, all_input_to_grad, all_gradient_ops) = Raise err).
Proof.
  intros generators He Hin Hv Hlen Hhead Hd Hs.
  assert (mixed generators = true) as Hmix
    by (unfold mixed; by rewrite Hd, Hs).
  assert (∀ h, ∃ err, DoGradientAccumulation ns ds set_order h ir i = Raise err)
    as Hfail.
  { intros h. unfold DoGradientAccumulation, index. rewrite He. simpl.
    apply (accumulate_raises ns ds ir e i n); [done|].
    intros h'. eexists. by apply (accumulate_input_mixed ns ds h' ir e i n v). }
  split; [|split; [|split; [|split]]].
  - intros g. unfold generators_of, append_generator.
    by rewrite lookup_insert_eq.
  - by apply VerifyGradientGenerators_mixed.
  - by apply (accumulate_input_mixed ns ds heap ir e i n v).
  - apply Hfail.
  - intros native registry ir0 m ops m1 gops rest Hgen.
    cbn [backward]. rewrite Hgen. cbn [bind].
    destruct (Hfail (ops ++ gops)) as [err ->]. by eexists.
Qed.

(** C4 as stated fails.  In the backward pass of
    [T1 = F(W); T2 = Gather(W, IDX); Y = Mul(T1, T2)] the dense generator of
    operator 0 is recorded after the sparse generator of operator 1, without
    an error; the pass fails afterwards, when the accumulation for [W] is
    attempted. *)
Lemma mixed_generators_are_recorded :
  recorded_for_W
  = Ok [SparseGradGenMeta None 0 None 0 ("IDX", "T2_grad");
        GradGenMeta (Some 2) 0 "W_grad"]
  ∧ GetBackwardPass "" None remove_dups gather_rule ∅ id dense_and_sparse
      (YsDict [(Str "Y", Some (Dense "g"))])
    = Raise (FailedToVerify "W" MixedSparseDense).
Proof. split; vm_compute; reflexivity. Qed.

Lemma mixed_generators_fail_at_accumulation_witness :
  ∃ err, DoGradientAccumulation "" None remove_dups [] mixed_ir 0 = Raise err.
Proof.
  destruct (mixed_generators_fail_at_accumulation "" None remove_dups []
              mixed_ir 0
              (mkOpSSA (mkop "F" ["W"] ["T1"]) (<["W" := 0]> ∅) (<["T1" := 0]> ∅))
              "W" 0) as (_ & _ & _ & H & _).
  - vm_compute. reflexivity.
  - compute_done.
  - vm_compute. reflexivity.
  - vm_compute. lia.
  - vm_compute. reflexivity.
  - vm_compute. reflexivity.
  - vm_compute. reflexivity.
  - exact H.
Defined.

Lemma head_least_snoc l pos :
  head_least l → Forall (fun x => x ≤ pos) l → head_least (l ++ [pos]).
Proof.
  intros Hl Hb x y Hx Hy. destruct l as [|a l]; simpl in *.
  - injection Hx as <-. apply list_elem_of_singleton in Hy. lia.
  - injection Hx as <-. apply elem_of_cons in Hy as [->|Hy]; [lia|].
    apply elem_of_app in Hy as [Hy|Hy].
    + apply (Hl a y); [done|]. by right.
    + apply list_elem_of_singleton in Hy as ->.
      by apply Forall_cons in Hb as [? _].
Qed.

Lemma usages_bounded_mono u b1 b2 :
  b1 ≤ b2 → usages_bounded u b1 → usages_bounded u b2.
Proof.
  intros Hb Hu k l Hk. destruct (Hu k l Hk) as [Hh Hf]. split; [done|].
  eapply Forall_impl; [exact Hf|]. simpl. intros. lia.
Qed.

Lemma play_inputs_usages pos ins : ∀ st,
  usages_bounded st.2 pos → usages_bounded (play_inputs pos ins st).2 pos.
Proof.
  induction ins as [|s ins IH]; intros [[iv fr] us] Hu; simpl; [done|].
  destruct (frontier_read fr s) as [fr1 v]. apply IH. simpl in *.
  intros k l Hk. destruct (decide (k = (s, v))) as [->|Hne].
  - rewrite lookup_insert_eq in Hk. injection Hk as <-.
    assert (head_least (usages_of us s v)
            ∧ Forall (fun x => x ≤ pos) (usages_of us s v)) as [Hh Hf].
    { unfold usages_of. destruct (us !! (s, v)) as [l|] eqn:E; simpl.
      - by apply (Hu (s, v)).
      - split; [by intros ? ? ?|constructor]. }
    split; [by apply head_least_snoc|].
    apply Forall_app. split; [done|]. by repeat constructor.
  - rewrite lookup_insert_ne in Hk by done. by apply (Hu k).
Qed.

Lemma Play_usages ir o :
  usages_bounded (input_usages ir) (length (ssa ir)) →
  usages_bounded (input_usages (Play ir o)) (length (ssa (Play ir o))).
Proof.
  intros Hu. unfold Play.
  pose proof (play_inputs_usages (length (ssa ir)) (input o)
                (∅, frontier ir, input_usages ir) Hu) as H.
  destruct (play_inputs _ _ _) as [[iv fr1] us].
  destruct (play_outputs _ _) as [ov fr2]. simpl in *.
  eapply usages_bounded_mono; [|exact H]. rewrite length_app. lia.
Qed.

Lemma replay_usages operators : ∀ ir,
  usages_bounded (input_usages ir) (length (ssa ir)) →
  usages_bounded (input_usages (fold_left Play operators ir))
    (length (ssa (fold_left Play operators ir))).
Proof.
  induction operators as [|o l IH]; intros ir Hu; simpl; [done|].
  by apply IH, Play_usages.
Qed.

(** In the table that the replay builds, the first index of a usage list
    is the lowest. *)
Lemma IR_init_head_least operators n v :
  head_least (usages_of (input_usages (IR_init operators)) n v).
Proof.
  pose proof (replay_usages operators empty_IR) as H.
  unfold usages_of.
  destruct (input_usages (IR_init operators) !! (n, v)) as [l|] eqn:E; simpl.
  - apply (H ltac:(by intros k l' Hk) (n, v) l E).
  - by intros ? ? ?.
Qed.

Lemma accumulate_grad_map ns ds ir e i (Q : string → Prop) names : ∀ st st',
  (∀ n r, n ∈ names → (∃ heap, accumulate_input ns ds heap ir e i n = Ok (Some r)) →
          Q n) →
  accumulate ns ds ir e i names st = Ok st' →
  ((∀ n, is_Some (st.2 !! n) → Q n) ∧ (st.1.2 ≠ [] → ∃ n, is_Some (st.2 !! n))) →
  (∀ n, is_Some (st'.2 !! n) → Q n) ∧ (st'.1.2 ≠ [] → ∃ n, is_Some (st'.2 !! n)).
Proof.
  induction names as [|m names IH]; intros [[heap ops] gm] st' HQ; simpl.
  - by intros [= <-].
  - destruct (accumulate_input ns ds heap ir e i m) as [[[[h1 so] g]|]|err] eqn:E;
      simpl; [| |done].
    + intros Hacc [Hgm Hops]. eapply IH; [|exact Hacc|].
      * intros n r Hn. apply HQ. by right.
      * simpl. split.
        -- intros n Hn. destruct (decide (n = m)) as [->|Hne].
           ++ apply (HQ m (h1, so, g)); [by left|by exists heap].
           ++ rewrite lookup_insert_ne in Hn by done. by apply Hgm.
        -- intros _. exists m. by rewrite lookup_insert_eq.
    + intros Hacc Hst. eapply IH; [|exact Hacc|exact Hst].
      intros n r Hn. apply HQ. by right.
Qed.

(** C1 (as amended).  DoGradientAccumulation at forward operator [i]
    synthesizes accumulation for an input name [n] with recorded version
    [v] only when the usage list of [(n, v)] has more than one entry, [i] is
    its first entry, which is the lowest index in the list, and the
    generator list of [(n, v)] has at least 2 entries; it emits accumulation
    operators only along with such an input.  In particular nothing is
    accumulated for a versioned blob whose usage list has a single entry.
    (The usage list has one entry per input position: an operator that reads
    the blob twice is listed twice.) *)
Theorem accumulation_only_for_shared_inputs (ns : string)
  (ds : option DeviceOption) (set_order : list string → list string)
  (operators : list OperatorDef) (heap : Heap) (ir : IR) (i : nat)
  (heap1 : Heap) (sum_ops : list OperatorDef) (grad_map : gmap string Grad) :
  (∀ l x, x ∈ set_order l → x ∈ l) →
  input_usages ir = input_usages (IR_init operators) →
  DoGradientAccumulation ns ds set_order heap ir i = Ok (heap1, sum_ops, grad_map) →
  (∀ n, is_Some (grad_map !! n) → accumulates ir i n)
  ∧ (sum_ops ≠ [] → ∃ n, is_Some (grad_map !! n))
  ∧ (∀ e n v, ssa ir !! i = Some e → in_versions e !! n = Some v →
       length (usages_of (input_usages ir) n v) ≤ 1 → grad_map !! n = None).
Proof.
  intros Hset Hus. unfold DoGradientAccumulation, index.
  destruct (ssa ir !! i) as [e|] eqn:He; simpl; [|done]. intros Hacc.
  destruct (accumulate_grad_map ns ds ir e i (accumulates ir i)
              (set_order (input (op e))) (heap, [], ∅)
              (heap1, sum_ops, grad_map)) as [Hgm Hops]; [|exact Hacc| |].
  - intros n r Hn [h Hr].
    apply accumulate_input_Some in Hr as (v & Hv & Hlen & Hhead & Hgen & _).
    exists e, v. split; [done|]. split; [by apply Hset|].
    repeat split; try done.
    intros j Hj. rewrite Hus in Hhead, Hj.
    by apply (IR_init_head_least operators n v i j).
  - simpl. split; [|done]. intros n [g Hg]. by rewrite lookup_empty in Hg.
  - simpl in *. split; [done|]. split; [done|].
    intros e' n v [= <-] Hv Hlen.
    destruct (grad_map !! n) as [g|] eqn:Eg; [|done].
    destruct (Hgm n) as (e' & v' & He' & _ & Hv' & Hlen' & _); [by eexists|].
    rewrite He in He'. injection He' as <-. rewrite Hv in Hv'.
    injection Hv' as <-. lia.
Qed.

Lemma accumulation_only_for_shared_inputs_witness :
  accumulates two_consumers_recorded 0 "X".
Proof.
  edestruct (accumulation_only_for_shared_inputs "" None remove_dups
               two_consumers two_gradients two_consumers_recorded 0)
    as (H & _).
  - intros l x. apply elem_of_remove_dups.
  - reflexivity.
  - vm_compute. reflexivity.
  - apply H. vm_compute. by eexists.
Defined.

(** C1 as stated fails.  In [Y = Relu(X); Z = Mul(Y, Y)] the blob [Y] at
    version 0 has exactly one consumer, operator 1, which the usage table
    lists twice; the backward pass emits a Sum operator for the gradient of
    [Y]. *)
Lemma one_consumer_accumulates :
  usages_of (input_usages (IR_init one_consumer_twice)) "Y" 0 = [1; 1]
  ∧ summary (GetBackwardPass "" None remove_dups chain_rule ∅ id one_consumer_twice
               (YsList [Str "Z"]))
    = Ok [("ConstantFill", ["Z"], ["Z_autogen_grad"], None);
          ("Mul", ["Z_autogen_grad"; "Y"], ["_Y_grad_autosplit_0"], None);
          ("Mul", ["Z_autogen_grad"; "Y"], ["_Y_grad_autosplit_1"], None);
          ("Sum", ["_Y_grad_autosplit_0"; "_Y_grad_autosplit_1"], ["Y_grad"],
           None);
          ("ReluGradient", ["Y"; "Y_grad"], ["X_grad"], None)].
Proof. split; vm_compute; reflexivity. Qed.

(** * More on the forward replay *)

Lemma play_inputs_in_versions pos ins : ∀ st (s : string),
  (play_inputs pos ins st).1.1 !! s
  = if decide (s ∈ ins) then Some (frontier_value st.1.2 s) else st.1.1 !! s.
Proof.
  induction ins as [|s0 ins IH]; intros [[iv fr] us] s; simpl.
  - done.
  - pose proof (frontier_read_value fr s0 s) as Hv.
    pose proof (frontier_read_result fr s0) as Hr.
    destruct (frontier_read fr s0) as [fr1 v]. simpl in *. subst v.
    rewrite IH. simpl. rewrite Hv.
    destruct (decide (s ∈ ins)).
    + by rewrite decide_True by set_solver.
    + destruct (decide (s = s0)) as [->|Hne].
      * rewrite decide_True by set_solver. by rewrite lookup_insert_eq.
      * rewrite decide_False by set_solver. by rewrite lookup_insert_ne.
Qed.

Lemma play_inputs_usage_elem pos ins : ∀ st (n : string) (v x : nat),
  x ∈ usages_of (play_inputs pos ins st).2 n v
  ↔ x ∈ usages_of st.2 n v
    ∨ (x = pos ∧ n ∈ ins ∧ v = frontier_value st.1.2 n).
Proof.
  induction ins as [|s0 ins IH]; intros [[iv fr] us] n v x; simpl.
  - split; [by left|]. intros [H|(_ & H & _)]; [done|by apply elem_of_nil in H].
  - pose proof (frontier_read_value fr s0 n) as Hv.
    pose proof (frontier_read_result fr s0) as Hr.
    destruct (frontier_read fr s0) as [fr1 v0]. simpl in *. subst v0.
    rewrite IH. simpl. rewrite Hv.
    assert (x ∈ usages_of
              (<[(s0, frontier_value fr s0) :=
                   usages_of us s0 (frontier_value fr s0) ++ [pos]]> us) n v
            ↔ x ∈ usages_of us n v
              ∨ (x = pos ∧ n = s0 ∧ v = frontier_value fr n)) as ->.
    { unfold usages_of at 1.
      destruct (decide ((s0, frontier_value fr s0) = (n, v))) as [[= -> ->]|Hne].
      - rewrite lookup_insert_eq. simpl. rewrite elem_of_app, list_elem_of_singleton.
        naive_solver.
      - rewrite lookup_insert_ne by done. fold (usages_of us n v).
        split; [by left|]. intros [H|(_ & -> & ->)]; [done|]. by destruct Hne. }
    rewrite elem_of_cons. naive_solver.
Qed.

Lemma fr_outputs_notin (b : string) outs cur :
  b ∉ outs → fr_outputs b outs cur = cur.
Proof.
  revert cur. induction outs as [|s outs IH]; intros cur Hb; simpl; [done|].
  rewrite decide_False by set_solver. apply IH. set_solver.
Qed.

Lemma play_outputs_out_versions outs : ∀ st (s : string),
  (play_outputs outs st).1 !! s
  = if decide (s ∈ outs)
    then Some (frontier_value (play_outputs outs st).2 s)
    else st.1 !! s.
Proof.
  induction outs as [|s0 outs IH]; intros [ov fr] s; simpl.
  - done.
  - set (fr1 := match fr !! s0 with Some v => <[s0:=v + 1]> fr | None => fr end).
    pose proof (frontier_read_result fr1 s0) as Hr.
    pose proof (frontier_read_lookup fr1 s0 s0) as Hl.
    destruct (frontier_read fr1 s0) as [fr2 v]. simpl in *. subst v.
    rewrite decide_True in Hl by done.
    rewrite IH. simpl.
    destruct (decide (s ∈ outs)).
    + by rewrite decide_True by set_solver.
    + destruct (decide (s = s0)) as [->|Hne].
      * rewrite decide_True by set_solver. rewrite lookup_insert_eq. f_equal.
        unfold frontier_value at 2.
        rewrite play_outputs_frontier, fr_outputs_notin by done. simpl.
        by rewrite Hl.
      * rewrite decide_False by set_solver. by rewrite lookup_insert_ne.
Qed.

(** What one call of Play adds to the IR. *)
Lemma Play_ssa ir o :
  ∃ e, ssa (Play ir o) = ssa ir ++ [e]
       ∧ op e = o
       ∧ (∀ s, in_versions e !! s
               = if decide (s ∈ input o)
                 then Some (frontier_value (frontier ir) s) else None)
       ∧ (∀ s, out_versions e !! s
               = if decide (s ∈ output o)
                 then Some (frontier_value (frontier (Play ir o)) s) else None)
       ∧ (∀ n v x, x ∈ usages_of (input_usages (Play ir o)) n v
                   ↔ x ∈ usages_of (input_usages ir) n v
                     ∨ (x = length (ssa ir) ∧ n ∈ input o
                        ∧ v = frontier_value (frontier ir) n)).
Proof.
  unfold Play.
  pose proof (play_inputs_in_versions (length (ssa ir)) (input o)
                (∅, frontier ir, input_usages ir)) as Hi.
  pose proof (play_inputs_usage_elem (length (ssa ir)) (input o)
                (∅, frontier ir, input_usages ir)) as Hu.
  destruct (play_inputs _ _ _) as [[iv fr1] us].
  pose proof (play_outputs_out_versions (output o) (∅, fr1)) as Ho.
  destruct (play_outputs _ _) as [ov fr2]. simpl in *.
  eexists. split; [done|]. simpl. split; [done|]. split; [|split; [|done]].
  - intros s. rewrite Hi. by rewrite lookup_empty.
  - intros s. rewrite Ho. by rewrite lookup_empty.
Qed.

Lemma IR_init_ssa_length operators :
  length (ssa (IR_init operators)) = length operators.
Proof.
  induction operators as [|o l IH] using rev_ind; [done|].
  rewrite IR_init_snoc. destruct (Play_ssa (IR_init l) o) as (e & -> & _).
  rewrite !length_app, IH. done.
Qed.

Lemma IR_init_ssa_lookup operators : ∀ i o,
  operators !! i = Some o →
  ∃ e, ssa (IR_init operators) !! i = Some e
       ∧ op e = o
       ∧ (∀ s, in_versions e !! s
               = if decide (s ∈ input o)
                 then Some (frontier_value
                              (frontier (IR_init (take i operators))) s)
                 else None)
       ∧ (∀ s, out_versions e !! s
               = if decide (s ∈ output o)
                 then Some (frontier_value
                              (frontier (IR_init (take (S i) operators))) s)
                 else None).
Proof.
  induction operators as [|o' l IH] using rev_ind; intros i o Hi; [done|].
  rewrite IR_init_snoc.
  destruct (Play_ssa (IR_init l) o') as (e & Hssa & Hop & Hin & Hout & _).
  rewrite Hssa.
  destruct (decide (i < length l)) as [Hlt|Hge].
  - rewrite lookup_app_l in Hi by done.
    destruct (IH i o Hi) as (e0 & He0 & ? & Hin0 & Hout0).
    exists e0. rewrite lookup_app_l by (by rewrite IR_init_ssa_length).
    rewrite !take_app_le by lia. done.
  - assert (i = length l) as ->.
    { apply lookup_lt_Some in Hi. rewrite length_app in Hi. simpl in Hi. lia. }
    rewrite list_lookup_middle in Hi by done. injection Hi as ->.
    exists e. rewrite list_lookup_middle by (by rewrite IR_init_ssa_length).
    rewrite take_app_length.
    replace (take (S (length l)) (l ++ [o])) with (l ++ [o])
      by (rewrite take_ge; [done|rewrite length_app; simpl; lia]).
    rewrite IR_init_snoc. done.
Qed.

(** X1.  The replay keeps one SSA entry per operator, in order.  The entry
    of operator [i] holds the operator, maps exactly the inputs of the
    operator to their frontier versions before the operator was replayed,
    and maps exactly its outputs to their frontier versions right after. *)
Theorem replay_records_versions (operators : list OperatorDef) :
  length (ssa (IR_init operators)) = length operators
  ∧ ∀ i o, operators !! i = Some o →
      ∃ e, ssa (IR_init operators) !! i = Some e
           ∧ op e = o
           ∧ (∀ s, in_versions e !! s
                   = if decide (s ∈ input o)
                     then Some (frontier_value
                                  (frontier (IR_init (take i operators))) s)
                     else None)
           ∧ (∀ s, out_versions e !! s
                   = if decide (s ∈ output o)
                     then Some (frontier_value
                                  (frontier (IR_init (take (S i) operators))) s)
                     else None).
Proof.
  split; [apply IR_init_ssa_length|apply IR_init_ssa_lookup].
Qed.

Lemma replay_records_versions_witness :
  ∃ e, ssa (IR_init [relu_X_Y; scale_Y_Y]) !! 1 = Some e
       ∧ in_versions e !! "Y" = Some 0
       ∧ out_versions e !! "Y" = Some 1
       ∧ in_versions e !! "X" = None.
Proof.
  destruct (replay_records_versions [relu_X_Y; scale_Y_Y]) as [_ H].
  destruct (H 1 scale_Y_Y eq_refl) as (e & He & _ & Hin & Hout).
  exists e. split; [exact He|].
  split; [exact (Hin "Y")|]. split; [exact (Hout "Y")|exact (Hin "X")].
Defined.

(** X2.  The input usage table of the replay lists, for a blob at a
    version, exactly the operators that read the blob at that version:
    index [i] is in the list of [(n, v)] if and only if operator [i] has [n]
    among its inputs and recorded the input version [v] for it. *)
Theorem usage_table_lists_consumers (operators : list OperatorDef) (i : nat)
  (n : string) (v : nat) :
  i ∈ usages_of (input_usages (IR_init operators)) n v
  ↔ ∃ e, ssa (IR_init operators) !! i = Some e
         ∧ n ∈ input (op e)
         ∧ in_versions e !! n = Some v.
Proof.
  induction operators as [|o l IH] using rev_ind.
  - unfold usages_of. simpl. rewrite lookup_empty. simpl. split.
    + intros H. by apply elem_of_nil in H.
    + by intros (e & He & _).
  - rewrite IR_init_snoc.
    destruct (Play_ssa (IR_init l) o) as (e & Hssa & Hop & Hin & _ & Hus).
    rewrite Hus, Hssa, IH. split.
    + intros [(e0 & He0 & Hn & Hv)|(-> & Hn & ->)].
      * exists e0. split; [|done]. rewrite lookup_app_l; [done|].
        by eapply lookup_lt_Some.
      * exists e. rewrite list_lookup_middle by done. rewrite Hop.
        split; [done|]. split; [done|]. by rewrite Hin, decide_True.
    + intros (e' & He' & Hn & Hv).
      destruct (decide (i < length (ssa (IR_init l)))) as [Hlt|Hge].
      * rewrite lookup_app_l in He' by done. left. by exists e'.
      * assert (i = length (ssa (IR_init l))) as ->.
        { apply lookup_lt_Some in He'. rewrite length_app in He'. simpl in He'.
          lia. }
        rewrite list_lookup_middle in He' by done. injection He' as <-.
        rewrite Hop in Hn. rewrite Hin, decide_True in Hv by done.
        injection Hv as <-. right. done.
Qed.

(** * Names *)

(** X3.  GetIndexFromGradientList returns the index of the first wrapper
    that mentions the name, as its dense name, its indices or its values,
    and returns [None] exactly when no wrapper mentions it; an empty wrapper
    mentions no name. *)
Theorem GetIndexFromGradientList_first (g_list : list (option Grad))
  (n : string) (k : nat) :
  (GetIndexFromGradientList g_list n = Some k
   ↔ (∃ g, g_list !! k = Some g ∧ mentions g n)
     ∧ ∀ j g, j < k → g_list !! j = Some g → ¬ mentions g n)
  ∧ (GetIndexFromGradientList g_list n = None
     ↔ ∀ j g, g_list !! j = Some g → ¬ mentions g n).
Proof.
  pose proof (GetIndexFromGradientList_spec g_list n) as H.
  destruct (GetIndexFromGradientList g_list n) as [k'|].
  - destruct H as [(g & Hg & Hm) Hmin]. split.
    + split.
      * intros [= <-]. split; [by exists g|done].
      * intros [(g' & Hg' & Hm') Hmin']. f_equal.
        destruct (Nat.lt_trichotomy k' k) as [Hlt|[->|Hlt]]; [|done|].
        -- by destruct (Hmin' k' g Hlt Hg).
        -- by destruct (Hmin k g' Hlt Hg').
    + split; [done|]. intros Hno. by destruct (Hno k' g Hg).
  - split; [|done]. split; [done|].
    intros [(g & Hg & Hm) _]. by destruct (H k g Hg).
Qed.

Lemma string_app_inj_r (a x y : string) : a +:+ x = a +:+ y → x = y.
Proof. induction a as [|c a IH]; simpl; [done|]. intros [= H]. by apply IH. Qed.

Lemma str_nat_inj (n m : nat) : str_nat n = str_nat m → n = m.
Proof.
  unfold str_nat. intros H. apply DecimalNat.Unsigned.to_uint_inj.
  assert (Some (Nat.to_uint n) = Some (Nat.to_uint m)) as [= ->]; [|done].
  by rewrite <- !NilEmpty.usu, H.
Qed.

Lemma autosplit_inj old c1 c2 : autosplit old c1 = autosplit old c2 → c1 = c2.
Proof.
  unfold autosplit. intros H.
  apply string_app_inj_r, string_app_inj_r, string_app_inj_r in H.
  by apply str_nat_inj.
Qed.

Lemma autosplit_longer old c :
  String.length old < String.length (autosplit old c).
Proof. unfold autosplit. rewrite !string_length_app. simpl. lia. Qed.

(** X4.  _DisambiguateGradOpOutput fails when the operator has no output
    at the index.  Otherwise it renames that output, and only that one, to
    [_<old>_autosplit_<cnt>], and returns that name with the counter raised
    by one.  The new name differs from the old one, and with another
    counter the same old name would have given another new name. *)
Theorem DisambiguateGradOpOutput_renames (heap : Heap) (r idx cnt : nat) :
  match slot heap r idx with
  | None => ∃ err, _DisambiguateGradOpOutput heap r idx cnt = Raise err
  | Some old =>
      let out := "_" +:+ old +:+ "_autosplit_" +:+ str_nat cnt in
      ∃ heap1,
        _DisambiguateGradOpOutput heap r idx cnt = Ok (heap1, out, cnt + 1)
        ∧ out ≠ old
        ∧ (∀ c, "_" +:+ old +:+ "_autosplit_" +:+ str_nat c = out → c = cnt)
        ∧ slot heap1 r idx = Some out
        ∧ (∀ r' idx', (r', idx') ≠ (r, idx) →
                      slot heap1 r' idx' = slot heap r' idx')
        ∧ same_operators heap heap1
  end.
Proof.
  destruct (slot heap r idx) as [old|] eqn:E.
  - destruct (DisambiguateGradOpOutput_ok heap r idx cnt old E)
      as (heap1 & Hd & Hs & Ho & Hsame).
    intros out. exists heap1. split; [exact Hd|]. split.
    { intros Heq. pose proof (autosplit_longer old cnt) as Hl.
      change (autosplit old cnt) with out in Hl. rewrite Heq in Hl. lia. }
    split; [|done].
    intros c Hc. by apply (autosplit_inj old c cnt).
  - by apply DisambiguateGradOpOutput_invalid.
Qed.

Lemma substring_split (s : string) : ∀ m,
  m ≤ String.length s →
  s = substring 0 m s +:+ substring m (String.length s - m) s.
Proof.
  induction s as [|c s IH]; intros m Hm; simpl in *.
  - by destruct m.
  - destruct m as [|m]; cbn.
    + by rewrite substring_all.
    + change (String c s
              = String c (substring 0 m s
                          +:+ substring m (String.length s - m) s)).
      f_equal. apply IH. lia.
Qed.

(** X5.  For a suffix that is not empty, [endswith] holds exactly of the
    names that end with the suffix, and [remove_suffix] takes the suffix off
    such a name and returns every other name as it is.  With the empty
    suffix it returns the empty name, as the slice [s[:-0]] does. *)
Theorem remove_suffix_spec (s suffix : string) :
  (endswith s suffix = true ↔ ∃ b, s = b +:+ suffix)
  ∧ (suffix ≠ EmptyString → ∀ b, s = b +:+ suffix → remove_suffix s suffix = b)
  ∧ (endswith s suffix = false → remove_suffix s suffix = s)
  ∧ remove_suffix s EmptyString = EmptyString.
Proof.
  split; [|split; [|split]].
  - split.
    + unfold endswith. intros H. apply andb_true_iff in H as [Hle Heq].
      apply Nat.leb_le in Hle. apply String.eqb_eq in Heq.
      exists (substring 0 (String.length s - String.length suffix) s).
      pose proof (substring_split s (String.length s - String.length suffix)
                    ltac:(lia)) as Hsplit.
      replace (String.length s - (String.length s - String.length suffix))
        with (String.length suffix) in Hsplit by lia.
      by rewrite Heq in Hsplit.
    + intros [b ->]. apply endswith_app.
  - intros Hne b ->. by apply remove_suffix_app.
  - intros H. unfold remove_suffix. by rewrite H.
  - unfold remove_suffix.
    assert (endswith s EmptyString = true) as ->; [|done].
    replace s with (s +:+ EmptyString) at 1.
    + apply endswith_app.
    + clear. induction s as [|c s IH]; [done|].
      change (String c (s +:+ EmptyString) = String c s). by rewrite IH.
Qed.

(** * What BuildGradientGenerators changes *)

Lemma same_tracker_refl ir : same_tracker ir ir.
Proof. by repeat split. Qed.

Lemma same_tracker_trans ir1 ir2 ir3 :
  same_tracker ir1 ir2 → same_tracker ir2 ir3 → same_tracker ir1 ir3.
Proof.
  intros (H1 & H2 & H3) (H4 & H5 & H6).
  split; [congruence|]. split; [congruence|]. intros s. by rewrite H6, H3.
Qed.

Lemma ledger_grows_refl gg : ledger_grows gg gg.
Proof. by intros n v. Qed.

Lemma ledger_grows_trans g1 g2 g3 :
  ledger_grows g1 g2 → ledger_grows g2 g3 → ledger_grows g1 g3.
Proof. intros H1 H2 n v. etrans; [apply H1|apply H2]. Qed.

Lemma append_generator_grows gg n v g :
  ledger_grows gg (append_generator gg n v g).
Proof.
  intros n' v'. unfold append_generator, generators_of.
  destruct (decide ((n, v) = (n', v'))) as [[= -> ->]|Hne].
  - rewrite lookup_insert_eq. simpl. by apply prefix_app_r.
  - by rewrite lookup_insert_ne.
Qed.

Lemma set_frontier_read_tracker ir s :
  same_tracker ir (set_frontier ir (frontier_read (frontier ir) s).1).
Proof.
  repeat split. intros b. simpl. apply frontier_read_value.
Qed.

Lemma CheckGradientOperatorInput_keeps ir s g_output i locally ir1 :
  CheckGradientOperatorInput ir s g_output i locally = Ok ir1 →
  same_tracker ir ir1
  ∧ gradient_frontier ir1 = gradient_frontier ir
  ∧ gradient_generators ir1 = gradient_generators ir.
Proof.
  unfold CheckGradientOperatorInput, index, getitem.
  destruct (ssa ir !! i) as [e|]; simpl; [|done].
  pose proof (set_frontier_read_tracker ir s) as Hfr.
  destruct (frontier_read (frontier ir) s) as [fr v]. simpl in Hfr.
  destruct (GetIndexFromGradientList g_output s) as [k|].
  - destruct (output (op e) !! k) as [orig|]; simpl; [|done].
    destruct (out_versions e !! orig) as [ov|]; simpl; [|done].
    destruct (gradient_frontier ir !! orig) as [gf|]; simpl; [|done].
    case_decide; [done|]. intros [= <-]. split; [apply same_tracker_refl|done].
  - destruct (out_versions e !! s) as [ov|].
    { case_decide; [done|]. by intros [= <-]. }
    destruct (in_versions e !! s) as [iv|].
    { case_decide; [done|]. by intros [= <-]. }
    case_decide; [|done]. intros [= <-]. split; [apply same_tracker_refl|done].
Qed.

Lemma check_inputs_keeps ins : ∀ ir g_output i locally ir1,
  check_inputs ir ins g_output i locally = Ok ir1 →
  same_tracker ir ir1
  ∧ gradient_frontier ir1 = gradient_frontier ir
  ∧ gradient_generators ir1 = gradient_generators ir.
Proof.
  induction ins as [|s ins IH]; intros ir g_output i locally ir1; simpl.
  - intros [= <-]. split; [apply same_tracker_refl|done].
  - destruct (CheckGradientOperatorInput ir s g_output i locally) as [ir0|] eqn:E;
      simpl; [|done].
    intros H. apply CheckGradientOperatorInput_keeps in E as (Ht & Hf & Hg).
    apply IH in H as (Ht' & Hf' & Hg').
    split; [by eapply same_tracker_trans|]. split; congruence.
Qed.

Lemma record_outputs_grows e g_input grad_op outs : ∀ i st st1,
  record_outputs e g_input grad_op i outs st = Ok st1 →
  ledger_grows st.1 st1.1.
Proof.
  induction outs as [|out outs IH]; intros i [gg sg] st1; simpl.
  - intros [= <-]. apply ledger_grows_refl.
  - destruct (GetIndexFromGradientList g_input out) as [k|]; [|by apply IH].
    destruct (index (input (op e)) k) as [n|]; simpl; [|done].
    destruct (getitem (in_versions e) n) as [v|]; simpl; [|done].
    destruct (index g_input k) as [[[d|gi gv]|]|]; simpl; try done.
    + intros H. apply IH in H. simpl in H.
      eapply ledger_grows_trans; [apply append_generator_grows|exact H].
    + destruct (decide (gi = out)); simpl.
      * by apply IH.
      * destruct (assert _); simpl; [|done]. by apply IH.
Qed.

Lemma build_ops_keeps e i g_output g_input gradient_ops : ∀ addr st st1,
  build_ops e i g_output g_input addr gradient_ops st = Ok st1 →
  same_tracker st.1.1 st1.1.1
  ∧ gradient_frontier st1.1.1 = gradient_frontier st.1.1
  ∧ ledger_grows (gradient_generators st.1.1) (gradient_generators st1.1.1).
Proof.
  induction gradient_ops as [|g ops IH]; intros addr [[ir loc] sg] st1; simpl.
  - intros [= <-]. split; [apply same_tracker_refl|].
    split; [done|apply ledger_grows_refl].
  - destruct (check_inputs ir (input g) g_output i loc) as [ir1|] eqn:Ec; simpl;
      [|done].
    destruct (record_outputs e g_input addr 0 (output g)
                (gradient_generators ir1, sg)) as [[gg sg1]|] eqn:Er; simpl;
      [|done].
    intros H. apply IH in H as (Ht & Hf & Hg). simpl in *.
    apply check_inputs_keeps in Ec as (Ht0 & Hf0 & Hg0).
    apply record_outputs_grows in Er. simpl in Er.
    split; [|split].
    + eapply same_tracker_trans; [exact Ht0|]. exact Ht.
    + congruence.
    + rewrite <- Hg0. by eapply ledger_grows_trans.
Qed.

Lemma AppendSparseGenerators_keeps sg : ∀ ir ir1,
  AppendSparseGenerators ir sg = Ok ir1 →
  same_tracker ir ir1
  ∧ gradient_frontier ir1 = gradient_frontier ir
  ∧ ledger_grows (gradient_generators ir) (gradient_generators ir1).
Proof.
  induction sg as [|[[n v] gens] sg IH]; intros ir ir1; simpl.
  - intros [= <-]. split; [apply same_tracker_refl|].
    split; [done|apply ledger_grows_refl].
  - destruct (merge_sparse gens) as [g|]; simpl; [|done].
    intros H. apply IH in H as (Ht & Hf & Hg). simpl in *.
    split; [exact Ht|]. split; [done|].
    eapply ledger_grows_trans; [apply append_generator_grows|exact Hg].
Qed.

Lemma passthrough_grows e loc g_input : ∀ j gg gg1,
  passthrough e loc j g_input gg = Ok gg1 → ledger_grows gg gg1.
Proof.
  induction g_input as [|g gi IH]; intros j gg gg1; simpl.
  - intros [= <-]. apply ledger_grows_refl.
  - destruct (index (input (op e)) j) as [n|]; simpl; [|done].
    destruct (getitem (in_versions e) n) as [v|]; simpl; [|done].
    intros H. apply IH in H.
    eapply ledger_grows_trans; [|exact H].
    destruct (falsy g); [apply ledger_grows_refl|].
    destruct g as [[d|a b]|]; try case_decide;
      first [apply append_generator_grows|apply ledger_grows_refl].
Qed.

Lemma update_gradient_frontier_lookup e g_input : ∀ j gf gf1,
  update_gradient_frontier e j g_input gf = Ok gf1 →
  ∀ s, gf1 !! s
       = if decide (s ∈ graded_inputs (drop j (input (op e))) g_input)
         then in_versions e !! s
         else gf !! s.
Proof.
  induction g_input as [|g gi IH]; intros j gf gf1; simpl.
  - intros [= <-] s. by destruct (drop j (input (op e))).
  - destruct g as [g|].
    + unfold index.
      destruct (input (op e) !! j) as [n|] eqn:En; simpl; [|done].
      unfold getitem. destruct (in_versions e !! n) as [v|] eqn:Ev; simpl;
        [|done].
      intros H s. rewrite (IH _ _ _ H s).
      rewrite (drop_S _ _ _ En). simpl.
      destruct (decide (s ∈ graded_inputs (drop (S j) (input (op e))) gi)).
      * by rewrite decide_True by set_solver.
      * destruct (decide (s = n)) as [->|Hne].
        -- rewrite decide_True by set_solver. by rewrite lookup_insert_eq.
        -- rewrite decide_False by set_solver. by rewrite lookup_insert_ne.
    + intros H s. rewrite (IH _ _ _ H s).
      destruct (input (op e) !! j) as [n|] eqn:En.
      * by rewrite (drop_S _ _ _ En).
      * apply lookup_ge_None in En. rewrite !drop_ge by lia. simpl.
        by destruct gi.
Qed.

Lemma BuildGradientGenerators_keeps ir i addr gradient_ops g_output g_input ir1 :
  BuildGradientGenerators ir i addr gradient_ops g_output g_input = Ok ir1 →
  same_tracker ir ir1
  ∧ ledger_grows (gradient_generators ir) (gradient_generators ir1)
  ∧ ∀ e, ssa ir !! i = Some e →
      ∀ s, gradient_frontier ir1 !! s
           = if decide (s ∈ graded_inputs (input (op e)) g_input)
             then in_versions e !! s
             else gradient_frontier ir !! s.
Proof.
  unfold BuildGradientGenerators, index.
  destruct (ssa ir !! i) as [e|] eqn:He; simpl; [|done].
  destruct (build_ops e i g_output g_input addr gradient_ops (ir, [], []))
    as [[[ir2 loc] sg]|] eqn:Eb; simpl; [|done].
  destruct (AppendSparseGenerators ir2 sg) as [ir3|] eqn:Ea; simpl; [|done].
  destruct (passthrough e loc 0 g_input (gradient_generators ir3))
    as [gg|] eqn:Ep; simpl; [|done].
  destruct (update_gradient_frontier e 0 g_input (gradient_frontier ir3))
    as [gf|] eqn:Eu; simpl; [|done].
  intros [= <-].
  apply build_ops_keeps in Eb as (Ht2 & Hf2 & Hg2). simpl in *.
  apply AppendSparseGenerators_keeps in Ea as (Ht3 & Hf3 & Hg3).
  apply passthrough_grows in Ep.
  pose proof (update_gradient_frontier_lookup _ _ _ _ _ Eu) as Hgf.
  split; [|split].
  - eapply same_tracker_trans; [exact Ht2|]. exact Ht3.
  - simpl. eauto using ledger_grows_trans.
  - intros e' [= <-] s. simpl. rewrite Hgf, drop_0. by rewrite Hf3, Hf2.
Qed.

(** X6.  A successful BuildGradientGenerators leaves the SSA entries, the
    input usage table and every frontier version as they were, and only
    appends to the generator lists: the list of every versioned blob starts
    with the generators it held before. *)
Theorem BuildGradientGenerators_appends_only (ir : IR) (i addr : nat)
  (gradient_ops : list OperatorDef) (g_output g_input : list (option Grad))
  (ir1 : IR) :
  BuildGradientGenerators ir i addr gradient_ops g_output g_input = Ok ir1 →
  ssa ir1 = ssa ir
  ∧ input_usages ir1 = input_usages ir
  ∧ (∀ s, frontier_value (frontier ir1) s = frontier_value (frontier ir) s)
  ∧ ∀ n v, generators_of (gradient_generators ir) n v
           `prefix_of` generators_of (gradient_generators ir1) n v.
Proof.
  intros H. apply BuildGradientGenerators_keeps in H as ((? & ? & ?) & Hg & _).
  done.
Qed.

Lemma BuildGradientGenerators_appends_only_witness :
  ∃ ir1,
    BuildGradientGenerators relu_seeded 0 0 [relu_gradient]
      [Some (Dense "Y_grad")] [Some (Dense "X_grad")] = Ok ir1
    ∧ ssa ir1 = ssa relu_seeded
    ∧ generators_of (gradient_generators ir1) "X" 0
      = [GradGenMeta (Some 0) 0 "X_grad"].
Proof.
  eexists. split; [vm_compute; reflexivity|].
  split; [|vm_compute; reflexivity].
  eapply (BuildGradientGenerators_appends_only relu_seeded 0 0 [relu_gradient]
            [Some (Dense "Y_grad")] [Some (Dense "X_grad")]).
  vm_compute. reflexivity.
Defined.

(** X7.  After a successful BuildGradientGenerators for forward operator
    [i], the gradient frontier of every input for which the rule returned a
    gradient is the input version that the operator recorded for it, and the
    gradient frontier of every other blob is unchanged. *)
Theorem BuildGradientGenerators_gradient_frontier (ir : IR) (i addr : nat)
  (gradient_ops : list OperatorDef) (g_output g_input : list (option Grad))
  (ir1 : IR) (e : OpSSA) (s : string) :
  BuildGradientGenerators ir i addr gradient_ops g_output g_input = Ok ir1 →
  ssa ir !! i = Some e →
  gradient_frontier ir1 !! s
  = if decide (s ∈ graded_inputs (input (op e)) g_input)
    then in_versions e !! s
    else gradient_frontier ir !! s.
Proof.
  intros H He. apply BuildGradientGenerators_keeps in H as (_ & _ & H).
  by apply H.
Qed.

Lemma BuildGradientGenerators_gradient_frontier_witness :
  ∃ ir1,
    BuildGradientGenerators relu_seeded 0 0 [relu_gradient]
      [Some (Dense "Y_grad")] [Some (Dense "X_grad")] = Ok ir1
    ∧ gradient_frontier ir1 !! "X" = Some 0
    ∧ gradient_frontier ir1 !! "Y" = Some 0.
Proof.
  eexists. split; [vm_compute; reflexivity|].
  split.
  - rewrite (BuildGradientGenerators_gradient_frontier relu_seeded 0 0
               [relu_gradient] [Some (Dense "Y_grad")] [Some (Dense "X_grad")]
               _ (mkOpSSA relu_X_Y (<["X" := 0]> ∅) (<["Y" := 0]> ∅)) "X");
      [reflexivity|vm_compute; reflexivity|reflexivity].
  - vm_compute. reflexivity.
Defined.

(** * What the backward pass changes *)

Lemma MakeSumOps_same ns ds heap ir n v heap1 sum_ops g :
  _MakeSumOps ns ds heap ir n v = Ok (heap1, sum_ops, g) →
  same_operators heap heap1
  ∧ Forall (fun o => type o = "Sum" ∨ type o = "Concat") sum_ops.
Proof.
  unfold _MakeSumOps.
  set (generators := generators_of (gradient_generators ir) n v).
  destruct (_GetSumOpOutputName heap generators n) as [base|]; simpl; [|done].
  destruct (assert _); simpl; [|done].
  assert (∀ r : Res (Heap * list OperatorDef * Grad),
    (∀ h l g0, r = Ok (h, l, g0) →
       same_operators heap h
       ∧ Forall (fun o => type o = "Sum" ∨ type o = "Concat") l) →
    (let* (heap2, sum_ops0, g0) := r in
     let* sum_ops1 := _SetSumOpsDeviceOption heap2 sum_ops0 generators in
     Ok (heap2, sum_ops1, g0)) = Ok (heap1, sum_ops, g) →
    same_operators heap heap1
    ∧ Forall (fun o => type o = "Sum" ∨ type o = "Concat") sum_ops) as Hgen.
  { intros [[[h l] g0]|] Hr; simpl; [|done].
    destruct (Hr h l g0 eq_refl) as [Hsame Hty].
    destruct (_SetSumOpsDeviceOption h l generators) as [l1|] eqn:E; simpl;
      [|done].
    intros [= <- <- <-]. split; [done|].
    apply SetSumOpsDeviceOption_inv in E as [E _].
    rewrite Forall_forall in Hty. apply Forall_forall. intros o Ho.
    apply list_elem_of_lookup in Ho as [k Hk].
    destruct (Forall2_lookup_r _ _ _ _ _ E Hk) as (o0 & Hk0 & Ht & _).
    rewrite <- Ht. apply Hty. by eapply list_elem_of_lookup_2. }
  destruct generators as [|[o idx g0|oi ii ov iv g0] rest] eqn:Eg.
  - apply Hgen. intros h l g1. unfold _MakeSparseSumOps. simpl.
    intros [= <- <- _]. split; [apply same_operators_refl|].
    repeat constructor; by right.
  - apply Hgen. intros h l g1. unfold _MakeDenseSumOps.
    destruct (dense_inputs heap _ base 0 []) as [[h1 l1]|] eqn:E; simpl; [|done].
    intros [= <- <- _]. split; [by eapply dense_inputs_same|].
    repeat constructor; by left.
  - apply Hgen. intros h l g1. unfold _MakeSparseSumOps.
    destruct (sparse_inputs heap _ base 0 0 [] []) as [[[h1 li] lv]|] eqn:E;
      cbn [bind]; [|done].
    intros [= <- <- _]. split; [by eapply sparse_inputs_same|].
    repeat constructor; by right.
Qed.

Lemma accumulate_same ns ds ir e i names : ∀ st st1,
  accumulate ns ds ir e i names st = Ok st1 →
  Forall (fun o => type o = "Sum" ∨ type o = "Concat") st.1.2 →
  same_operators st.1.1 st1.1.1
  ∧ Forall (fun o => type o = "Sum" ∨ type o = "Concat") st1.1.2.
Proof.
  induction names as [|n names IH]; intros [[heap ops] gm] st1; simpl.
  - intros [= <-] H. split; [apply same_operators_refl|done].
  - destruct (accumulate_input ns ds heap ir e i n) as [[[[h1 so] g]|]|] eqn:E;
      simpl; [| |done].
    + intros Hacc Hops.
      apply accumulate_input_Some in E as (v & _ & _ & _ & _ & E).
      apply MakeSumOps_same in E as [Hs Ht].
      apply IH in Hacc as [Hs' Ht']; [|apply Forall_app; by split].
      simpl in *. split; [by eapply same_operators_trans|done].
    + intros Hacc Hops. by apply IH in Hacc.
Qed.

(** X8.  A successful DoGradientAccumulation changes nothing of the
    gradient operators emitted so far but names of their outputs: it keeps
    their number, order, types, inputs, arguments and device options.  The
    operators it adds are Sum and Concat operators. *)
Theorem DoGradientAccumulation_renames_only (ns : string)
  (ds : option DeviceOption) (set_order : list string → list string)
  (heap : Heap) (ir : IR) (i : nat) (heap1 : Heap)
  (sum_ops : list OperatorDef) (grad_map : gmap string Grad) :
  DoGradientAccumulation ns ds set_order heap ir i = Ok (heap1, sum_ops, grad_map) →
  same_operators heap heap1
  ∧ Forall (fun o => type o = "Sum" ∨ type o = "Concat") sum_ops.
Proof.
  unfold DoGradientAccumulation, index.
  destruct (ssa ir !! i) as [e|]; simpl; [|done].
  intros H. by apply accumulate_same in H.
Qed.

Lemma DoGradientAccumulation_renames_only_witness :
  ∃ heap1 sum_ops grad_map,
    DoGradientAccumulation "" None remove_dups two_gradients
      two_consumers_recorded 0 = Ok (heap1, sum_ops, grad_map)
    ∧ same_operators two_gradients heap1
    ∧ length sum_ops = 1.
Proof.
  eexists _, _, _. split; [vm_compute; reflexivity|]. split; [|reflexivity].
  eapply (DoGradientAccumulation_renames_only "" None remove_dups two_gradients
            two_consumers_recorded 0).
  vm_compute. reflexivity.
Defined.

Lemma init_gradient_frontier_keeps items : ∀ ir,
  same_tracker ir (init_gradient_frontier items ir)
  ∧ gradient_generators (init_gradient_frontier items ir) = gradient_generators ir.
Proof.
  induction items as [|[y g] items IH]; intros ir; simpl.
  - split; [apply same_tracker_refl|done].
  - pose proof (set_frontier_read_tracker ir (str y)) as Hfr.
    destruct (frontier_read (frontier ir) (str y)) as [fr v]. simpl in Hfr.
    destruct (IH (set_gradient_frontier (set_frontier ir fr)
                    (<[str y := v]> (gradient_frontier ir)))) as [Ht Hg].
    split; [|by rewrite Hg].
    eapply same_tracker_trans; [|exact Ht].
    destruct Hfr as (H1 & H2 & H3). by repeat split.
Qed.

Lemma GenerateGradientsForForwardOp_keeps native registry addr ir i m ir1 m1 ops :
  _GenerateGradientsForForwardOp native registry addr ir i m = Ok (ir1, m1, ops) →
  same_tracker ir ir1
  ∧ ledger_grows (gradient_generators ir) (gradient_generators ir1).
Proof.
  unfold _GenerateGradientsForForwardOp, index.
  destruct (ssa ir !! i) as [e|]; simpl; [|done].
  destruct (forallb _ _).
  - intros [= <- _ _]. split; [apply same_tracker_refl|apply ledger_grows_refl].
  - destruct (GetGradientForOp native registry (op e) _) as [[gops gi]|]; simpl;
      [|done].
    destruct (BuildGradientGenerators ir i addr gops _ gi) as [ir2|] eqn:E; simpl;
      [|done].
    intros [= <- _ _]. by apply BuildGradientGenerators_keeps in E as (? & ? & _).
Qed.

Lemma kept_operators_refl h : kept_operators h h.
Proof. unfold kept_operators. rewrite take_ge by done. apply same_operators_refl. Qed.

Lemma kept_operators_app h h1 more :
  same_operators h h1 → kept_operators h (h1 ++ more).
Proof.
  intros [Hlen Hs]. unfold kept_operators.
  rewrite take_app_le by lia. rewrite take_ge by lia. by split.
Qed.

Lemma same_operators_take h h1 k :
  same_operators h h1 → same_operators (take k h) (take k h1).
Proof.
  intros [Hlen Hs]. split; [by rewrite !length_take, Hlen|].
  intros r o1 o2 H1 H2.
  apply lookup_take_Some in H1 as [H1 _]. apply lookup_take_Some in H2 as [H2 _].
  by apply (Hs r).
Qed.

Lemma kept_operators_trans h1 h2 h3 :
  kept_operators h1 h2 → kept_operators h2 h3 → kept_operators h1 h3.
Proof.
  unfold kept_operators. intros H12 H23.
  assert (length h1 ≤ length h2) as Hle.
  { destruct H12 as [Hlen _]. rewrite length_take in Hlen. lia. }
  eapply same_operators_trans; [exact H12|].
  apply (same_operators_take _ _ (length h1)) in H23.
  rewrite take_take in H23. by rewrite Nat.min_l in H23 by lia.
Qed.

Lemma same_operators_kept h h1 : same_operators h h1 → kept_operators h h1.
Proof.
  intros H. unfold kept_operators. destruct H as [Hlen Hs].
  rewrite take_ge by lia. by split.
Qed.

Lemma DoGradientAccumulation_same ns ds set_order heap ir i heap1 sum_ops gm :
  DoGradientAccumulation ns ds set_order heap ir i = Ok (heap1, sum_ops, gm) →
  same_operators heap heap1.
Proof.
  unfold DoGradientAccumulation, index.
  destruct (ssa ir !! i) as [e|]; simpl; [|done].
  intros H. by apply accumulate_same in H as [H _].
Qed.

Lemma backward_keeps ns ds set_order native registry idxs : ∀ st st1,
  backward ns ds set_order native registry idxs st = Ok st1 →
  same_tracker st.1.1 st1.1.1
  ∧ ledger_grows (gradient_generators st.1.1) (gradient_generators st1.1.1)
  ∧ kept_operators st.2 st1.2.
Proof.
  induction idxs as [|i idxs IH]; intros [[ir m] heap] st1; simpl.
  - intros [= <-]. split; [apply same_tracker_refl|].
    split; [apply ledger_grows_refl|apply kept_operators_refl].
  - destruct (_GenerateGradientsForForwardOp native registry (length heap) ir i m)
      as [[[ir1 m1] gops]|] eqn:Eg; simpl; [|done].
    destruct (DoGradientAccumulation ns ds set_order (heap ++ gops) ir1 i)
      as [[[h2 sops] gm]|] eqn:Ea; simpl; [|done].
    intros H. apply IH in H as (Ht & Hl & Hk). simpl in *.
    apply GenerateGradientsForForwardOp_keeps in Eg as [Ht1 Hl1].
    apply DoGradientAccumulation_same in Ea.
    split; [by eapply same_tracker_trans|].
    split; [by eapply ledger_grows_trans|].
    eapply kept_operators_trans; [|exact Hk].
    eapply kept_operators_trans;
      [apply kept_operators_app, same_operators_refl|].
    eapply kept_operators_trans; [apply same_operators_kept, Ea|].
    apply kept_operators_app, same_operators_refl.
Qed.

(** X9.  A successful backward pass leaves the SSA entries, the input
    usage table and every frontier version of the IR as the replay built
    them, and only adds to the generator lists. *)
Theorem backward_pass_keeps_tracker (ns : string) (ds : option DeviceOption)
  (set_order : list string → list string) (native : Rule)
  (registry : gmap string Rule)
  (dict_order : list (Blob * option Grad) → list (Blob * option Grad)) (ir : IR) (ys : Targets)
  (ops : list OperatorDef) (grads : gmap string Grad) (ir2 : IR) :
  IR_GetBackwardPass ns ds set_order native registry dict_order ir ys
  = Ok (ops, grads, ir2) →
  ssa ir2 = ssa ir
  ∧ input_usages ir2 = input_usages ir
  ∧ (∀ s, frontier_value (frontier ir2) s = frontier_value (frontier ir) s)
  ∧ ∀ n v, generators_of (gradient_generators ir) n v
           `prefix_of` generators_of (gradient_generators ir2) n v.
Proof.
  unfold IR_GetBackwardPass.
  destruct (match ys with
            | YsList l => Ok (dict_order (dict_of_list l []))
            | YsDict items => Ok items
            | YsOther => Raise (TypeError "ys should either be a list or a dict.")
            end) as [items|]; simpl; [|done].
  destruct (_GetInitGradients ns ds items (∅, [])) as [[m0 ops0]|]; simpl; [|done].
  destruct (backward ns ds set_order native registry _ _)
    as [[[ir3 m1] ops1]|] eqn:Eb; simpl; [|done].
  intros [= <- _ <-].
  apply backward_keeps in Eb as (Ht & Hl & _). simpl in *.
  destruct (init_gradient_frontier_keeps items ir) as [Ht0 Hg0].
  destruct (same_tracker_trans _ _ _ Ht0 Ht) as (H1 & H2 & H3).
  repeat split; try done. intros n v. rewrite <- Hg0. apply Hl.
Qed.

Lemma backward_pass_keeps_tracker_witness :
  ∃ ops grads ir2,
    IR_GetBackwardPass "" None remove_dups chain_rule ∅ id
      (IR_init two_consumers) (YsDict [(Str "Y", Some (Dense "g"))]) = Ok (ops, grads, ir2)
    ∧ ssa ir2 = ssa (IR_init two_consumers).
Proof.
  eexists _, _, _. split; [vm_compute; reflexivity|].
  eapply (backward_pass_keeps_tracker "" None remove_dups chain_rule ∅ id
            (IR_init two_consumers) (YsDict [(Str "Y", Some (Dense "g"))])).
  vm_compute. reflexivity.
Defined.

(** X10.  The operators of a successful backward pass start with the seed
    operators, and every step of the pass keeps the operators emitted
    before it in their places: later steps change at most names of their
    outputs, never their number, order, types, inputs, arguments or device
    options. *)
Theorem backward_pass_keeps_operators (ns : string) (ds : option DeviceOption)
  (set_order : list string → list string) (native : Rule)
  (registry : gmap string Rule)
  (dict_order : list (Blob * option Grad) → list (Blob * option Grad)) :
  (∀ idxs ir m heap ir1 m1 heap1,
     backward ns ds set_order native registry idxs (ir, m, heap)
     = Ok (ir1, m1, heap1) →
     kept_operators heap heap1)
  ∧ (∀ ir items ops grads ir2,
       IR_GetBackwardPass ns ds set_order native registry dict_order ir
         (YsDict items)
       = Ok (ops, grads, ir2) →
       kept_operators (seed_ops ns ds items) ops).
Proof.
  split.
  - intros idxs ir m heap ir1 m1 heap1 H. by apply backward_keeps in H as (_ & _ & H).
  - intros ir items ops grads ir2. unfold IR_GetBackwardPass. simpl.
    rewrite GetInitGradients_acc. simpl.
    destruct (backward ns ds set_order native registry _ _)
      as [[[ir3 m1] ops1]|] eqn:Eb; simpl; [|done].
    intros [= <- _ _]. by apply backward_keeps in Eb as (_ & _ & H).
Qed.

Lemma backward_pass_keeps_operators_witness :
  ∃ ops grads ir2,
    IR_GetBackwardPass "" None remove_dups chain_rule ∅ id
      (IR_init one_consumer_twice) (YsDict [(Str "Z", None)])
    = Ok (ops, grads, ir2)
    ∧ kept_operators (seed_ops "" None [(Str "Z", None)]) ops.
Proof.
  eexists _, _, _. split; [vm_compute; reflexivity|].
  destruct (backward_pass_keeps_operators "" None remove_dups chain_rule ∅ id)
    as [_ H].
  eapply (H (IR_init one_consumer_twice) [(Str "Z", None)]).
  vm_compute. reflexivity.
Defined.

(** * The backward pass at its edges *)

Lemma IR_init_gradient_generators operators :
  gradient_generators (IR_init operators) = ∅.
Proof.
  induction operators as [|o l IH] using rev_ind; [done|].
  rewrite IR_init_snoc. unfold Play.
  destruct (play_inputs _ _ _) as [[in_v fr1] usages].
  by destruct (play_outputs _ _) as [out_v fr2].
Qed.

Lemma seed_map_in ns items : ∀ m (k : string),
  k ∈ map (fun yg : Blob * option Grad => str yg.1) items →
  ∃ g, seed_map ns items m !! k = Some (Some g).
Proof.
  induction items as [|yg items IH]; intros m k Hk; [set_solver|].
  rewrite seed_map_cons.
  destruct (decide (k ∈ map (fun yg : Blob * option Grad => str yg.1) items))
    as [Hin|Hout].
  - by apply IH.
  - rewrite seed_map_other by done.
    simpl in Hk. apply elem_of_cons in Hk as [->|Hk]; [|done].
    rewrite lookup_insert_eq. by eexists.
Qed.

(** With no generator recorded, the loop of DoGradientAccumulation builds
    nothing. *)
Lemma accumulate_without_generators ns ds ir e i names st :
  gradient_generators ir = ∅ →
  (∀ n, n ∈ names → is_Some (in_versions e !! n)) →
  accumulate ns ds ir e i names st = Ok st.
Proof.
  intros Hg. induction names as [|n names IH]; intros Hin; [done|].
  destruct st as [[heap sum_ops] grad_map]. cbn [accumulate].
  destruct (Hin n) as [v Hv]; [set_solver|].
  unfold accumulate_input, getitem. rewrite Hv. cbn [bind].
  destruct (_ || _).
  - cbn [bind]. apply IH. set_solver.
  - unfold generators_of. rewrite Hg, lookup_empty. simpl.
    apply IH. set_solver.
Qed.

(** A forward operator none of whose outputs has a gradient leaves the
    state of the backward loop as it is. *)
Lemma backward_skips ns ds set_order native registry ir m heap :
  (∀ l x, x ∈ set_order l → x ∈ l) →
  gradient_generators ir = ∅ →
  ∀ idxs,
    (∀ i, i ∈ idxs →
       ∃ e, ssa ir !! i = Some e
            ∧ (∀ n, n ∈ output (op e) → m !! n = None)
            ∧ (∀ n, n ∈ input (op e) → is_Some (in_versions e !! n))) →
    backward ns ds set_order native registry idxs (ir, m, heap)
    = Ok (ir, m, heap).
Proof.
  intros Hset Hg. induction idxs as [|i idxs IH]; intros Hidx; [done|].
  destruct (Hidx i) as (e & He & Hout & Hin); [set_solver|].
  cbn [backward]. unfold _GenerateGradientsForForwardOp, index.
  rewrite He. cbn [bind].
  assert (forallb (fun g : option Grad => bool_decide (g = None))
            (map (fun n => default None (m !! n)) (output (op e))) = true) as ->.
  { apply forallb_forall. intros g Hgin. apply in_map_iff in Hgin as (n & <- & Hn).
    apply list_elem_of_In in Hn. rewrite (Hout n Hn). by apply bool_decide_eq_true. }
  cbn [bind]. unfold DoGradientAccumulation, index. rewrite He. cbn [bind].
  rewrite app_nil_r.
  rewrite accumulate_without_generators; [|done|by intros n Hn; apply Hin, Hset].
  cbn [bind]. rewrite app_nil_r, fmap_empty, !(left_id_L ∅ (∪)).
  apply IH. intros j Hj. apply Hidx. set_solver.
Qed.

(** X11.  When no forward operator writes any of the targets, the backward
    pass emits the seed operators of the targets and nothing else, and its
    gradient map holds the gradients of the targets only. *)
Theorem backward_pass_without_producers (ns : string) (ds : option DeviceOption)
  (set_order : list string → list string) (native : Rule)
  (registry : gmap string Rule)
  (dict_order : list (Blob * option Grad) → list (Blob * option Grad)) (operators : list OperatorDef)
  (items : list (Blob * option Grad)) :
  (∀ l x, x ∈ set_order l → x ∈ l) →
  (∀ o yg, o ∈ operators → yg ∈ items → str yg.1 ∉ output o) →
  GetBackwardPass ns ds set_order native registry dict_order operators
    (YsDict items)
  = Ok (seed_ops ns ds items, omap id (seed_map ns items ∅)).
Proof.
  intros Hset Hfree. unfold GetBackwardPass, IR_GetBackwardPass. cbn [bind].
  rewrite GetInitGradients_acc. cbn [bind app].
  destruct (init_gradient_frontier_keeps items (IR_init operators))
    as [(Hssa & _ & _) Hgg].
  rewrite backward_skips; [done|done| |].
  - by rewrite Hgg, IR_init_gradient_generators.
  - intros i Hi. rewrite Hssa. rewrite Hssa, IR_init_ssa_length in Hi.
    apply list_elem_of_In in Hi. apply in_rev in Hi. apply list_elem_of_In, elem_of_seq in Hi.
    destruct (lookup_lt_is_Some_2 operators i) as [o Ho]; [lia|].
    destruct (IR_init_ssa_lookup operators i o Ho) as (e & He & Hop & Hin & _).
    exists e. split; [done|]. rewrite Hop. split.
    + intros n Hn. rewrite seed_map_other; [done|].
      intros Hk. apply list_elem_of_fmap in Hk as (yg & -> & Hyg).
      eapply Hfree; [|exact Hyg|exact Hn]. by eapply list_elem_of_lookup_2.
    + intros n Hn. rewrite Hin. by rewrite decide_True.
Qed.

Lemma backward_pass_without_producers_witness :
  GetBackwardPass "" None remove_dups no_native ∅ id [relu_X_Y]
    (YsDict [(Str "Z", None)])
  = Ok (seed_ops "" None [(Str "Z", None)],
        omap id (seed_map "" [(Str "Z", None)] ∅)).
Proof.
  apply (backward_pass_without_producers "" None remove_dups no_native ∅ id
           [relu_X_Y] [(Str "Z", None)]).
  - intros l x. apply elem_of_remove_dups.
  - intros o yg Ho Hyg.
    apply list_elem_of_singleton in Ho as ->.
    apply list_elem_of_singleton in Hyg as ->.
    compute_done.
Defined.

(** X12.  When the last forward operator writes a target, the native side
    has no gradient for it and no rule is registered for its type, the
    backward pass fails with the error that names the type of the operator
    and carries the exception of the native side. *)
Theorem backward_pass_unregistered (ns : string) (ds : option DeviceOption)
  (set_order : list string → list string) (native : Rule)
  (registry : gmap string Rule)
  (dict_order : list (Blob * option Grad) → list (Blob * option Grad)) (operators : list OperatorDef)
  (o : OperatorDef) (items : list (Blob * option Grad)) (err : Exn) :
  (∃ yg, yg ∈ items ∧ str yg.1 ∈ output o) →
  (∀ g_output, native o g_output = Raise err) →
  registry !! type o = None →
  GetBackwardPass ns ds set_order native registry dict_order (operators ++ [o])
    (YsDict items)
  = Raise (NoGradientRegistered (type o) err).
Proof.
  intros (yg & Hyg & Hout) Hnative Hreg.
  unfold GetBackwardPass, IR_GetBackwardPass. cbn [bind].
  rewrite GetInitGradients_acc. cbn [bind app].
  destruct (init_gradient_frontier_keeps items (IR_init (operators ++ [o])))
    as [(Hssa & _ & _) _].
  rewrite Hssa, IR_init_ssa_length, length_app. cbn [length].
  rewrite Nat.add_1_r, seq_S, rev_app_distr. cbn [rev app Nat.add backward].
  destruct (IR_init_ssa_lookup (operators ++ [o]) (length operators) o)
    as (e & He & Hop & _).
  { by rewrite lookup_app_r, Nat.sub_diag by lia. }
  unfold _GenerateGradientsForForwardOp, index. rewrite Hssa, He. cbn [bind].
  destruct (forallb _ _) eqn:Hall.
  - exfalso. rewrite forallb_forall in Hall.
    destruct (seed_map_in ns items ∅ (str yg.1)) as [g Hg].
    { apply list_elem_of_fmap. by exists yg. }
    specialize (Hall (Some g)). rewrite bool_decide_eq_true in Hall.
    discriminate Hall. apply in_map_iff. exists (str yg.1).
    rewrite Hg, Hop. split; [done|]. by apply list_elem_of_In.
  - unfold GetGradientForOp, getitem. by rewrite Hop, Hnative, Hreg.
Qed.

Lemma backward_pass_unregistered_witness :
  GetBackwardPass "" None remove_dups no_native ∅ id ([] ++ [relu_X_Y])
    (YsDict [(Str "Y", None)])
  = Raise (NoGradientRegistered "Relu" (OtherException "no gradient")).
Proof.
  apply (backward_pass_unregistered "" None remove_dups no_native ∅ id []
           relu_X_Y [(Str "Y", None)] (OtherException "no gradient")).
  - exists (Str "Y", None). split; [by apply list_elem_of_singleton|compute_done].
  - done.
  - done.
Defined.

(** * What the verification of generators accepts *)

Lemma remove_dups_short {A} `{EqDecision A} (l : list A) :
  length (remove_dups l) ≤ 1 ↔ ∀ a b, a ∈ l → b ∈ l → a = b.
Proof.
  split.
  - intros Hlen a b Ha Hb.
    apply elem_of_remove_dups in Ha, Hb.
    destruct (remove_dups l) as [|x [|y r]]; [set_solver|set_solver|simpl in Hlen; lia].
  - intros Heq. pose proof (NoDup_remove_dups l) as Hnd.
    destruct (remove_dups l) as [|x [|y r]] eqn:E; [simpl; lia|simpl; lia|].
    exfalso. apply NoDup_cons in Hnd as [Hx _]. apply Hx.
    rewrite (Heq x y); [set_solver| |]; apply elem_of_remove_dups; rewrite E; set_solver.
Qed.

Lemma same_device_options (devices : list DeviceOption) :
  match devices with
  | d0 :: ((_ :: _) as rest) => forallb (fun d => bool_decide (d = d0)) rest
  | _ => true
  end = true
  ↔ ∀ a b, a ∈ devices → b ∈ devices → a = b.
Proof.
  destruct devices as [|d0 [|d1 r]].
  - split; [set_solver|done].
  - split; [|done]. intros _ a b Ha Hb.
    apply list_elem_of_singleton in Ha, Hb. congruence.
  - rewrite forallb_forall. split.
    + intros Hall a b Ha Hb.
      assert (∀ x, x ∈ d0 :: d1 :: r → x = d0) as Hd.
      { intros x Hx. apply elem_of_cons in Hx as [->|Hx]; [done|].
        apply list_elem_of_In, Hall in Hx. by apply bool_decide_eq_true in Hx. }
      by rewrite (Hd a Ha), (Hd b Hb).
    + intros Heq x Hx. apply bool_decide_eq_true, Heq; [|set_solver].
      apply elem_of_cons. right. by apply list_elem_of_In.
Qed.

Lemma not_mixed_iff generator :
  mixed generator = false
  ↔ Forall (fun g => is_dense g = true) generator
    ∨ Forall (fun g => is_dense g = false) generator.
Proof.
  unfold mixed. rewrite andb_false_iff. split.
  - intros [H|H]; [right|left]; apply Forall_forall; intros g Hg.
    + destruct (is_dense g) eqn:E; [|done].
      assert (existsb is_dense generator = true) as Hex; [|congruence].
      apply existsb_exists. exists g. split; [by apply list_elem_of_In|done].
    + destruct (is_dense g) eqn:E; [done|].
      assert (existsb (fun g => negb (is_dense g)) generator = true) as Hex;
        [|congruence].
      apply existsb_exists. exists g. split; [by apply list_elem_of_In|].
      by rewrite E.
  - intros [H|H]; rewrite Forall_forall in H; [right|left];
      apply not_true_is_false; intros Hex;
      apply existsb_exists in Hex as (g & Hg & Hd);
      apply list_elem_of_In in Hg; specialize (H g Hg); rewrite H in Hd; done.
Qed.

(** What the loop of _VerifyGradientGenerators collects. *)
Lemma collect_names_devices_spec heap generator :
  match collect_names_devices heap generator with
  | Ok (names, devices) =>
      (∀ g r, g ∈ generator → r ∈ producers_of g → is_Some (heap !! r))
      ∧ names = omap compared_name generator
      ∧ (∀ d, d ∈ devices
              ↔ ∃ g r o, g ∈ generator ∧ r ∈ producers_of g
                         ∧ heap !! r = Some o ∧ d = device_option_of o)
  | Raise _ => ∃ g r, g ∈ generator ∧ r ∈ producers_of g ∧ heap !! r = None
  end.
Proof.
  induction generator as [|g rest IH].
  { simpl. split; [|split; [done|]].
    - intros g r Hg. by apply elem_of_nil in Hg.
    - intros d. split; [by intros H; apply elem_of_nil in H|].
      intros (g & _ & _ & Hg & _). by apply elem_of_nil in Hg. }
  assert (∀ (names1 : list string) (devs1 : list DeviceOption),
    (∀ r, r ∈ producers_of g → is_Some (heap !! r)) →
    names1 = option_list (compared_name g) →
    (∀ d, d ∈ devs1 ↔ ∃ r o, r ∈ producers_of g ∧ heap !! r = Some o
                             ∧ d = device_option_of o) →
    match (let* (names2, devices2) := collect_names_devices heap rest in
           Ok (names1 ++ names2, devs1 ++ devices2)) with
    | Ok (names, devices) =>
        (∀ g0 r, g0 ∈ g :: rest → r ∈ producers_of g0 → is_Some (heap !! r))
        ∧ names = omap compared_name (g :: rest)
        ∧ (∀ d, d ∈ devices
                ↔ ∃ g0 r o, g0 ∈ g :: rest ∧ r ∈ producers_of g0
                            ∧ heap !! r = Some o ∧ d = device_option_of o)
    | Raise _ =>
        ∃ g0 r, g0 ∈ g :: rest ∧ r ∈ producers_of g0 ∧ heap !! r = None
    end) as Hcons.
  { intros names1 devs1 Hheap Hn Hd.
    destruct (collect_names_devices heap rest) as [[names2 devices2]|e];
      cbn [bind].
    - destruct IH as (Hh & -> & Hdev). split; [|split].
      + intros g0 r [->|Hg0]%elem_of_cons Hr; [by apply Hheap|by eapply Hh].
      + subst names1. simpl. by destruct (compared_name g).
      + intros d. rewrite elem_of_app, Hd, Hdev. split.
        * intros [(r & o & ? & ? & ?)|(g0 & r & o & ? & ? & ? & ?)].
          -- exists g, r, o. set_solver.
          -- exists g0, r, o. set_solver.
        * intros (g0 & r & o & [->|Hg0]%elem_of_cons & ? & ? & ?).
          -- left. by exists r, o.
          -- right. by exists g0, r, o.
    - destruct IH as (g0 & r & ? & ? & ?). exists g0, r. set_solver. }
  assert (∀ r, r ∈ producers_of g → heap !! r = None →
    ∃ g0 r0, g0 ∈ g :: rest ∧ r0 ∈ producers_of g0 ∧ heap !! r0 = None)
    as Hfail.
  { intros r Hr Hnone. exists g, r. set_solver. }
  cbn [collect_names_devices].
  destruct g as [[r|] idx gradient|[ri|] ii [rv|] iv gradient];
    cbn [producers_of compared_name option_list app] in *; unfold deref.
  - destruct (heap !! r) as [o|] eqn:Er; cbn [bind].
    + apply Hcons; [|done|].
      * intros r' ->%list_elem_of_singleton. by rewrite Er.
      * intros d. rewrite list_elem_of_singleton. split.
        -- intros ->. exists r, o. set_solver.
        -- intros (r' & o' & ->%list_elem_of_singleton & Ho & ->). congruence.
    + apply (Hfail r); [set_solver|done].
  - cbn [bind]. apply Hcons; [|done|].
    + intros r Hr. by apply elem_of_nil in Hr.
    + intros d. split; [by intros H; apply elem_of_nil in H|].
      intros (r & o & Hr & _). by apply elem_of_nil in Hr.
  - destruct (heap !! ri) as [oi|] eqn:Ei; cbn [bind].
    2:{ apply (Hfail ri); [set_solver|done]. }
    destruct (heap !! rv) as [ov|] eqn:Ev; cbn [bind].
    2:{ apply (Hfail rv); [set_solver|done]. }
    apply Hcons; [|done|].
    + intros r [->|Hr]%elem_of_cons; [by rewrite Ei|].
      apply list_elem_of_singleton in Hr as ->. by rewrite Ev.
    + intros d. split.
      * intros [->|Hd]%elem_of_cons.
        -- exists ri, oi. set_solver.
        -- apply list_elem_of_singleton in Hd as ->. exists rv, ov. set_solver.
      * intros (r & o & [->|Hr]%elem_of_cons & Ho & ->).
        -- rewrite Ei in Ho. injection Ho as ->. set_solver.
        -- apply list_elem_of_singleton in Hr as ->.
           rewrite Ev in Ho. injection Ho as ->. set_solver.
  - destruct (heap !! ri) as [oi|] eqn:Ei; cbn [bind].
    2:{ apply (Hfail ri); [set_solver|done]. }
    apply Hcons; [|done|].
    + intros r ->%list_elem_of_singleton. by rewrite Ei.
    + intros d. rewrite list_elem_of_singleton. split.
      * intros ->. exists ri, oi. set_solver.
      * intros (r & o & ->%list_elem_of_singleton & Ho & ->). congruence.
  - cbn [bind]. destruct (heap !! rv) as [ov|] eqn:Ev; cbn [bind].
    2:{ apply (Hfail rv); [set_solver|done]. }
    apply Hcons; [|done|].
    + intros r ->%list_elem_of_singleton. by rewrite Ev.
    + intros d. cbn [app]. rewrite list_elem_of_singleton. split.
      * intros ->. exists rv, ov. set_solver.
      * intros (r & o & ->%list_elem_of_singleton & Ho & ->). congruence.
  - cbn [bind]. apply Hcons; [|done|].
    + intros r Hr. by apply elem_of_nil in Hr.
    + intros d. split; [by intros H; apply elem_of_nil in H|].
      intros (r & o & Hr & _). by apply elem_of_nil in Hr.
Qed.

(** The answer of _VerifyGradientGenerators in terms of what its loop
    collects. *)
Lemma VerifyGradientGenerators_collected heap generator :
  _VerifyGradientGenerators heap generator = Ok true
  ↔ mixed generator = false
    ∧ 2 ≤ length generator
    ∧ ∃ names devices,
        collect_names_devices heap generator = Ok (names, devices)
        ∧ (∀ a b, a ∈ names → b ∈ names → a = b)
        ∧ (∀ a b, a ∈ devices → b ∈ devices → a = b).
Proof.
  unfold _VerifyGradientGenerators.
  destruct (mixed generator); [naive_solver|].
  destruct (length generator <? 2) eqn:Hlen.
  { apply Nat.ltb_lt in Hlen. split; [done|]. intros (_ & H & _). lia. }
  apply Nat.ltb_ge in Hlen.
  destruct (collect_names_devices heap generator) as [[names devices]|err];
    cbn [bind]; [|naive_solver].
  pose proof (remove_dups_short names) as Hn.
  pose proof (same_device_options devices) as Hd.
  destruct (1 <? length (remove_dups names)) eqn:Hdup.
  - apply Nat.ltb_lt in Hdup. split; [done|].
    intros (_ & _ & names1 & devices1 & [= <- <-] & Hnames & _).
    apply Hn in Hnames. lia.
  - apply Nat.ltb_ge in Hdup. split.
    + intros Hok. split; [done|]. split; [lia|].
      exists names, devices. split; [done|]. split; [by apply Hn|].
      apply Hd. destruct devices as [|d0 [|d1 r]]; [done|done|].
      by destruct (forallb _ _).
    + intros (_ & _ & names1 & devices1 & [= <- <-] & _ & Hdev).
      apply Hd in Hdev. destruct devices as [|d0 [|d1 r]]; [done|done|].
      by rewrite Hdev.
Qed.

(** X13.  The verification of the generators of a versioned blob answers
    that an accumulation is needed exactly when there are at least two
    generators, all dense or all sparse, every operator they point to is in
    the list of emitted operators, the names compared are all the same, and
    the device options of all the producing operators, of indices and of
    values alike, are the same.  The names compared are the gradient of
    every dense generator that has a producing operator and the values of
    the gradient of every sparse generator whose values have a producing
    operator: a sparse generator of which only the indices are produced by
    an operator takes no part in the comparison of names. *)
Theorem VerifyGradientGenerators_accepts (heap : Heap)
  (generator : list Generator) :
  _VerifyGradientGenerators heap generator = Ok true
  ↔ 2 ≤ length generator
    ∧ (Forall (fun g => is_dense g = true) generator
       ∨ Forall (fun g => is_dense g = false) generator)
    ∧ (∀ g r, g ∈ generator → r ∈ producers_of g → is_Some (heap !! r))
    ∧ (∀ g1 g2 n1 n2,
         g1 ∈ generator → g2 ∈ generator →
         compared_name g1 = Some n1 → compared_name g2 = Some n2 → n1 = n2)
    ∧ (∀ g1 g2 r1 r2 o1 o2,
         g1 ∈ generator → g2 ∈ generator →
         r1 ∈ producers_of g1 → r2 ∈ producers_of g2 →
         heap !! r1 = Some o1 → heap !! r2 = Some o2 →
         device_option_of o1 = device_option_of o2).
Proof.
  rewrite VerifyGradientGenerators_collected, not_mixed_iff.
  pose proof (collect_names_devices_spec heap generator) as Hc.
  destruct (collect_names_devices heap generator) as [[names devices]|e].
  - destruct Hc as (Hh & -> & Hdev). split.
    + intros (Hm & Hlen & names1 & devices1 & [= <- <-] & Hn & Hd).
      split; [done|]. split; [done|]. split; [done|]. split.
      * intros g1 g2 n1 n2 H1 H2 E1 E2.
        apply Hn; apply list_elem_of_omap; eauto.
      * intros g1 g2 r1 r2 o1 o2 H1 H2 Hr1 Hr2 Ho1 Ho2.
        apply Hd; apply Hdev.
        -- by exists g1, r1, o1.
        -- by exists g2, r2, o2.
    + intros (Hlen & Hm & _ & Hn & Hd).
      split; [done|]. split; [done|].
      exists (omap compared_name generator), devices.
      split; [done|]. split.
      * intros a b Ha Hb.
        apply list_elem_of_omap in Ha as (g1 & H1 & E1).
        apply list_elem_of_omap in Hb as (g2 & H2 & E2).
        by apply (Hn g1 g2).
      * intros a b Ha Hb.
        apply Hdev in Ha as (g1 & r1 & o1 & H1 & Hr1 & Ho1 & ->).
        apply Hdev in Hb as (g2 & r2 & o2 & H2 & Hr2 & Ho2 & ->).
        by apply (Hd g1 g2 r1 r2).
  - destruct Hc as (g & r & Hg & Hr & Hnone). split.
    + by intros (_ & _ & names1 & devices1 & [=] & _).
    + intros (_ & _ & Hh & _). destruct (Hh g r Hg Hr) as [o Ho]. congruence.
Qed.

(** Two sparse generators of which only the indices have a producing
    operator are accepted whatever the names of their values. *)
Lemma indices_only_generators_accepted :
  _VerifyGradientGenerators
    [mkop "A" [] ["i1"]; mkop "B" [] ["i2"]]
    [SparseGradGenMeta (Some 0) 0 None 0 ("i1", "v1");
     SparseGradGenMeta (Some 1) 0 None 0 ("i2", "v2")]
  = Ok true.
Proof. reflexivity. Qed.

(** * The versions of the blobs of a net *)

Lemma start_at_zero_lookup names : ∀ bv (b : string),
  start_at_zero names bv !! b
  = match bv !! b with
    | Some v => Some v
    | None => if decide (b ∈ names) then Some 0 else None
    end.
Proof.
  induction names as [|i names IH]; intros bv b; simpl.
  - by destruct (bv !! b).
  - rewrite IH. destruct (bv !! i) eqn:Ei.
    + destruct (bv !! b) eqn:Eb; [done|].
      destruct (decide (b ∈ names)).
      * by rewrite decide_True by set_solver.
      * rewrite decide_False; [done|]. intros [->|?]%elem_of_cons; [congruence|done].
    + destruct (decide (b = i)) as [->|Hne].
      * rewrite lookup_insert_eq, Ei. by rewrite decide_True by set_solver.
      * rewrite lookup_insert_ne by done. destruct (bv !! b); [done|].
        destruct (decide (b ∈ names)).
        -- by rewrite decide_True by set_solver.
        -- by rewrite decide_False by set_solver.
Qed.

Lemma start_at_zero_version names bv b :
  version_of (start_at_zero names bv) b = version_of bv b.
Proof.
  unfold version_of. rewrite start_at_zero_lookup.
  destruct (bv !! b); [done|]. by destruct (decide _).
Qed.

Lemma filter_eq_notin (b : string) (outs : list string) :
  b ∉ outs → filter (fun s => s = b) outs = [].
Proof.
  induction outs as [|o outs IH]; intros H; [done|].
  rewrite filter_cons_False by set_solver. apply IH. set_solver.
Qed.

Lemma bump_outputs_lookup outs : ∀ bv (b : string),
  bump_outputs outs bv !! b
  = if decide (b ∈ outs)
    then Some (version_of bv b + length (filter (fun s => s = b) outs))
    else bv !! b.
Proof.
  induction outs as [|o outs IH]; intros bv b; simpl; [done|].
  rewrite IH. unfold version_of.
  destruct (decide (o = b)) as [->|Hne].
  - rewrite filter_cons_True by done. rewrite lookup_insert_eq.
    rewrite (decide_True (P := b ∈ b :: outs)) by set_solver.
    destruct (decide (b ∈ outs)) as [Hin|Hout]; simpl.
    + f_equal; lia.
    + rewrite filter_eq_notin by done. simpl. f_equal; lia.
  - rewrite filter_cons_False by done. rewrite lookup_insert_ne by done.
    destruct (decide (b ∈ outs)).
    + by rewrite decide_True by set_solver.
    + by rewrite decide_False by set_solver.
Qed.

Lemma bump_outputs_version outs bv b :
  version_of (bump_outputs outs bv) b
  = version_of bv b + length (filter (fun s => s = b) outs).
Proof.
  unfold version_of at 1. rewrite bump_outputs_lookup.
  destruct (decide (b ∈ outs)); [done|].
  rewrite filter_eq_notin by done. simpl. unfold version_of. lia.
Qed.

Lemma versioned_blobs_ok names bv :
  (∀ n, n ∈ names → is_Some (bv !! n)) →
  versioned_blobs names bv = Ok (map (fun n => (n, version_of bv n)) names).
Proof.
  induction names as [|n names IH]; intros Hk; simpl; [done|].
  destruct (Hk n) as [v Hv]; [set_solver|].
  unfold getitem, version_of. rewrite Hv. cbn [bind].
  rewrite IH by set_solver. done.
Qed.

(** The first missing key is the one that the KeyError names. *)
Lemma versioned_blobs_raise names bv e :
  versioned_blobs names bv = Raise e →
  ∃ n, n ∈ names ∧ bv !! n = None ∧ e = KeyError n.
Proof.
  induction names as [|n names IH]; simpl; [done|].
  unfold getitem. destruct (bv !! n) eqn:Hn; cbn [bind].
  - destruct (versioned_blobs names bv) eqn:E; cbn [bind]; [done|].
    intros [= <-]. destruct (IH eq_refl) as (m & ? & ? & ?).
    exists m. set_solver.
  - intros [= <-]. exists n. set_solver.
Qed.

Lemma count_out_snoc b ops o :
  count_out b (ops ++ [o])
  = count_out b ops + length (filter (fun s => s = b) (output o)).
Proof.
  unfold count_out. rewrite map_app, sum_list_with_app || rewrite map_app.
  simpl. induction (map _ ops) as [|x l IH]; simpl; lia.
Qed.

Lemma count_out_cons b o ops :
  count_out b (o :: ops)
  = length (filter (fun s => s = b) (output o)) + count_out b ops.
Proof. reflexivity. Qed.

Lemma count_out_nil b : count_out b [] = 0.
Proof. reflexivity. Qed.

(** What the loop of [get_ssa] computes from the versions it starts with:
    an operator reads a blob at its starting version plus the number of
    writes to it by the operators before, and writes it at that version
    plus the number of times it lists the blob among its outputs. *)
Lemma get_ssa_ops_spec ext ops : ∀ ssa0 bv,
  ∃ entries bv',
    get_ssa_ops ext ops (ssa0, bv) = Ok (ssa0 ++ entries, bv')
    ∧ length entries = length ops
    ∧ (∀ b, version_of bv' b = version_of bv b + count_out b ops)
    ∧ (∀ b, is_Some (bv' !! b)
            ↔ is_Some (bv !! b)
              ∨ ∃ o, o ∈ ops ∧ (b ∈ output o ∨ (ext = [] ∧ b ∈ input o)))
    ∧ ∀ i o, ops !! i = Some o →
        entries !! i
        = Some (map (fun n => (n, version_of bv n + count_out n (take i ops)))
                  (input o),
                map (fun n => (n, version_of bv n
                                  + count_out n (take (S i) ops)))
                  (output o)).
Proof.
  induction ops as [|o ops IH]; intros ssa0 bv.
  - exists [], bv. simpl. rewrite app_nil_r.
    split; [done|]. split; [done|]. split.
    { intros b. rewrite count_out_nil. lia. }
    split; [|done]. intros b. split; [by left|].
    intros [?|(o & Ho & _)]; [done|]. by apply elem_of_nil in Ho.
  - cbn [get_ssa_ops].
    set (bv1 := match ext with
                | [] => start_at_zero (input o) bv
                | _ :: _ => bv
                end).
    assert (∀ b, version_of bv1 b = version_of bv b) as Hv1.
    { intros b. subst bv1. destruct ext; [apply start_at_zero_version|done]. }
    assert (∀ b, is_Some (bv1 !! b)
                 ↔ is_Some (bv !! b) ∨ (ext = [] ∧ b ∈ input o)) as Hk1.
    { intros b. subst bv1. destruct ext as [|x ext].
      - rewrite start_at_zero_lookup. destruct (bv !! b) eqn:Eb.
        + split; [by left|done].
        + destruct (decide (b ∈ input o)).
          * split; [by right|done].
          * split; [by intros []|]. intros [[]|[]]; done.
      - split; [by left|]. intros [?|[? _]]; done. }
    rewrite versioned_blobs_ok.
    2:{ intros n Hn. rewrite bump_outputs_lookup. by rewrite decide_True. }
    cbn [bind].
    destruct (IH (ssa0 ++ [(map (fun i => (i, version_of bv1 i)) (input o),
                           map (fun n => (n, version_of (bump_outputs (output o) bv1) n))
                             (output o))])
                (bump_outputs (output o) bv1))
      as (entries & bv' & Hrun & Hlen & Hver & Hkeys & Hent).
    eexists (_ :: entries), bv'. split.
    { rewrite Hrun. by rewrite <- app_assoc. }
    split; [simpl; by rewrite Hlen|].
    split.
    { intros b. rewrite Hver, bump_outputs_version, Hv1, count_out_cons. lia. }
    split.
    { intros b. rewrite Hkeys, bump_outputs_lookup.
      destruct (decide (b ∈ output o)) as [Hin|Hout].
      - split; [|by left]. intros _. right. exists o. set_solver.
      - rewrite Hk1. split.
        + intros [[?|[? ?]]|(o1 & ? & ?)]; [by left| |].
          * right. exists o. set_solver.
          * right. exists o1. set_solver.
        + intros [?|(o1 & [->|?]%elem_of_cons & Hb)].
          * by left; left.
          * destruct Hb as [?|?]; [done|]. by left; right.
          * right. by exists o1. }
    intros [|i] o1 Ho1.
    + injection Ho1 as <-. cbn [take lookup list_lookup]. f_equal. f_equal.
      * apply map_ext. intros n. rewrite Hv1, count_out_nil. f_equal. lia.
      * apply map_ext. intros n.
        rewrite bump_outputs_version, Hv1, count_out_cons, count_out_nil.
        f_equal. lia.
    + rewrite lookup_cons in Ho1. rewrite lookup_cons.
      rewrite (Hent i o1 Ho1). f_equal. f_equal.
      * apply map_ext. intros n. cbn [take].
        rewrite bump_outputs_version, Hv1, count_out_cons. f_equal. lia.
      * apply map_ext. intros n. cbn [take].
        rewrite bump_outputs_version, Hv1, (count_out_cons n o). f_equal. lia.
Qed.

Lemma get_ssa_spec proto bv0 :
  ∃ ssa bv,
    get_ssa proto bv0 = Ok (ssa, bv)
    ∧ length ssa = length (net_op proto)
    ∧ (∀ b, version_of bv b
            = version_of (default ∅ bv0) b + count_out b (net_op proto))
    ∧ (∀ b, is_Some (bv !! b)
            ↔ is_Some (default ∅ bv0 !! b)
              ∨ b ∈ external_input proto
              ∨ ∃ o, o ∈ net_op proto
                     ∧ (b ∈ output o
                        ∨ (external_input proto = [] ∧ b ∈ input o)))
    ∧ ∀ i o, net_op proto !! i = Some o →
        ssa !! i
        = Some (map (fun n => (n, version_of (default ∅ bv0) n
                                  + count_out n (take i (net_op proto))))
                  (input o),
                map (fun n => (n, version_of (default ∅ bv0) n
                                  + count_out n (take (S i) (net_op proto))))
                  (output o)).
Proof.
  unfold get_ssa.
  destruct (get_ssa_ops_spec (external_input proto) (net_op proto) []
              (start_at_zero (external_input proto) (default ∅ bv0)))
    as (ssa & bv & Hrun & Hlen & Hver & Hkeys & Hent).
  exists ssa, bv. split; [done|]. split; [done|]. split.
  { intros b. by rewrite Hver, start_at_zero_version. }
  split.
  { intros b. rewrite Hkeys, start_at_zero_lookup.
    destruct (default ∅ bv0 !! b) eqn:Eb.
    - split; [by left|by left].
    - destruct (decide (b ∈ external_input proto)).
      + split; [by right; left|by left].
      + split.
        * intros [[]|?]; [done|]. by right; right.
        * intros [[]|[?|?]]; [done|done|]. by right. }
  intros i o Ho. rewrite (Hent i o Ho). f_equal. f_equal.
  - apply map_ext. intros n. by rewrite start_at_zero_version.
  - apply map_ext. intros n. by rewrite start_at_zero_version.
Qed.

Lemma get_undefined_blobs_from_spec ssa : ∀ undef (b : string),
  b ∈ get_undefined_blobs_from ssa undef
  ↔ b ∈ undef ∨ ∃ ins outs, (ins, outs) ∈ ssa ∧ (b, 0) ∈ ins.
Proof.
  induction ssa as [|[ins outs] ssa IH]; intros undef b; simpl.
  - split; [by left|]. intros [?|(? & ? & H & _)]; [done|]. by apply elem_of_nil in H.
  - rewrite IH, elem_of_union, elem_of_list_to_set, list_elem_of_fmap. split.
    + intros [[?|([n v] & -> & Hf)]|(ins1 & outs1 & ? & ?)].
      * by left.
      * apply list_elem_of_filter in Hf as [Hv Hin]. simpl in Hv. subst v.
        right. exists ins, outs. set_solver.
      * right. exists ins1, outs1. set_solver.
    + intros [?|(ins1 & outs1 & [[= -> ->]|?]%elem_of_cons & Hb)].
      * by left; left.
      * left. right. exists (b, 0). split; [done|].
        by apply list_elem_of_filter.
      * right. by exists ins1, outs1.
Qed.

Lemma get_output_producers_from_spec ssa : ∀ i0 producers (x : VersionedBlob) i,
  get_output_producers_from i0 ssa producers !! x = Some i
  ↔ (∃ j ins outs, i = i0 + j ∧ ssa !! j = Some (ins, outs) ∧ x ∈ outs
       ∧ ∀ k ins1 outs1, j < k → ssa !! k = Some (ins1, outs1) → x ∉ outs1)
    ∨ (producers !! x = Some i
       ∧ ∀ k ins1 outs1, ssa !! k = Some (ins1, outs1) → x ∉ outs1).
Proof.
  assert (∀ outs (p : gmap VersionedBlob nat) (i0 : nat) x,
            fold_left (fun p o => <[o := i0]> p) outs p !! x
            = if decide (x ∈ outs) then Some i0 else p !! x) as Hfold.
  { induction outs as [|o outs IHo]; intros p i0 x; simpl; [done|].
    rewrite IHo. destruct (decide (x ∈ outs)).
    - by rewrite decide_True by set_solver.
    - destruct (decide (x = o)) as [->|Hne].
      + rewrite lookup_insert_eq. by rewrite decide_True by set_solver.
      + rewrite lookup_insert_ne by done. by rewrite decide_False by set_solver. }
  induction ssa as [|[ins outs] ssa IH]; intros i0 producers x i; simpl.
  - split.
    + intros H. right. split; [done|]. intros k ins1 outs1 Hk. done.
    + intros [(j & ins & outs & _ & Hj & _)|[H _]]; [done|done].
  - rewrite IH, Hfold. split.
    + intros [(j & ins1 & outs1 & -> & Hj & Hx & Hlast)|[Hp Hnone]].
      * left. exists (S j), ins1, outs1. split; [lia|]. split; [done|].
        split; [done|]. intros [|k] ins2 outs2 Hlt Hk; [lia|].
        eapply Hlast; [|exact Hk]. lia.
      * destruct (decide (x ∈ outs)) as [Hin|Hout].
        -- injection Hp as <-. left. exists 0, ins, outs.
           split; [lia|]. split; [done|]. split; [done|].
           intros [|k] ins2 outs2 Hlt Hk; [lia|]. by eapply Hnone.
        -- right. split; [done|]. intros [|k] ins2 outs2 Hk.
           ++ by injection Hk as <- <-.
           ++ by eapply Hnone.
    + intros [(j & ins1 & outs1 & -> & Hj & Hx & Hlast)|[Hp Hnone]].
      * destruct j as [|j].
        -- injection Hj as <- <-. right. rewrite decide_True by done.
           split; [f_equal; lia|]. intros k ins2 outs2 Hk.
           apply (Hlast (S k) ins2 outs2); [lia|done].
        -- left. exists j, ins1, outs1. split; [lia|]. split; [done|].
           split; [done|]. intros k ins2 outs2 Hlt Hk.
           apply (Hlast (S k) ins2 outs2); [lia|done].
      * right. rewrite decide_False.
        2:{ apply (Hnone 0 ins outs). done. }
        split; [done|]. intros k ins2 outs2 Hk.
        by apply (Hnone (S k) ins2 outs2).
Qed.

(** The producer that [get_output_producers] records for a versioned blob
    is the last entry that lists it among its outputs. *)
Lemma get_output_producers_spec ssa (x : VersionedBlob) i :
  get_output_producers ssa !! x = Some i
  ↔ ∃ ins outs, ssa !! i = Some (ins, outs) ∧ x ∈ outs
      ∧ ∀ k ins1 outs1, i < k → ssa !! k = Some (ins1, outs1) → x ∉ outs1.
Proof.
  unfold get_output_producers. rewrite get_output_producers_from_spec. split.
  - intros [(j & ins & outs & -> & ? & ? & ?)|[H _]]; [|done].
    by exists ins, outs.
  - intros (ins & outs & ? & ? & ?). left. by exists i, ins, outs.
Qed.

Lemma count_out_app b l1 l2 :
  count_out b (l1 ++ l2) = count_out b l1 + count_out b l2.
Proof.
  induction l1 as [|o l1 IH]; [done|].
  simpl. rewrite !count_out_cons, IH. lia.
Qed.

Lemma count_out_take_le b ops i j :
  i ≤ j → count_out b (take i ops) ≤ count_out b (take j ops).
Proof.
  intros Hij. rewrite <- (take_drop i (take j ops)), take_take, count_out_app.
  replace (i `min` j) with i by lia. lia.
Qed.

Lemma count_out_take_S b ops k o :
  ops !! k = Some o →
  count_out b (take (S k) ops)
  = count_out b (take k ops) + length (filter (fun s => s = b) (output o)).
Proof. intros Hk. by rewrite (take_S_r _ _ _ Hk), count_out_snoc. Qed.

Lemma filter_eq_length_pos (b : string) (outs : list string) :
  b ∈ outs → 0 < length (filter (fun s => s = b) outs).
Proof.
  intros Hin. assert (b ∈ filter (fun s => s = b) outs) as H.
  { by apply list_elem_of_filter. }
  destruct (filter _ outs); [by apply elem_of_nil in H|simpl; lia].
Qed.

(** X14.  [get_ssa] never raises.  It returns one entry per operator; the
    i-th entry gives every input of the i-th operator at its starting
    version plus the number of times the operators before it list the blob
    as an output, and every output at its starting version plus that
    number for the operators up to and including the i-th; the returned
    map holds for every blob its starting version plus the number of
    times the net lists it as an output.  A blob absent from the given
    map starts at version 0. *)
Theorem get_ssa_versions (proto : NetDef)
  (blob_versions : option (gmap string nat)) :
  ∃ ssa bv,
    get_ssa proto blob_versions = Ok (ssa, bv)
    ∧ length ssa = length (net_op proto)
    ∧ (∀ b, version_of bv b
            = version_of (default ∅ blob_versions) b
              + count_out b (net_op proto))
    ∧ ∀ i o, net_op proto !! i = Some o →
        ssa !! i
        = Some (map (fun n => (n, version_of (default ∅ blob_versions) n
                                  + count_out n (take i (net_op proto))))
                  (input o),
                map (fun n => (n, version_of (default ∅ blob_versions) n
                                  + count_out n (take (S i) (net_op proto))))
                  (output o)).
Proof.
  destruct (get_ssa_spec proto blob_versions)
    as (ssa & bv & Hrun & Hlen & Hver & _ & Hent).
  by exists ssa, bv.
Qed.

(** X15.  The keys of the map that [get_ssa] returns are the keys of the
    map it was given, the external inputs of the net and the outputs of
    its operators; the inputs of the operators are keys as well only when
    the net declares no external input. *)
Theorem get_ssa_keys (proto : NetDef)
  (blob_versions : option (gmap string nat)) :
  ∃ ssa bv,
    get_ssa proto blob_versions = Ok (ssa, bv)
    ∧ ∀ b, is_Some (bv !! b)
           ↔ is_Some (default ∅ blob_versions !! b)
             ∨ b ∈ external_input proto
             ∨ ∃ o, o ∈ net_op proto
                    ∧ (b ∈ output o
                       ∨ (external_input proto = [] ∧ b ∈ input o)).
Proof.
  destruct (get_ssa_spec proto blob_versions)
    as (ssa & bv & Hrun & _ & _ & Hkeys & _).
  by exists ssa, bv.
Qed.

(** X16.  The undefined blobs of the SSA form of a net are the blobs that
    some operator reads at version 0: the blobs that start at version 0
    and are an input of an operator that no earlier operator's output
    list names. *)
Theorem undefined_blobs_of_get_ssa (proto : NetDef)
  (blob_versions : option (gmap string nat)) :
  ∃ ssa bv,
    get_ssa proto blob_versions = Ok (ssa, bv)
    ∧ ∀ b, b ∈ get_undefined_blobs ssa
           ↔ ∃ i o, net_op proto !! i = Some o
                    ∧ b ∈ input o
                    ∧ version_of (default ∅ blob_versions) b = 0
                    ∧ count_out b (take i (net_op proto)) = 0.
Proof.
  destruct (get_ssa_spec proto blob_versions)
    as (ssa & bv & Hrun & Hlen & _ & _ & Hent).
  exists ssa, bv. split; [done|]. intros b.
  unfold get_undefined_blobs. rewrite get_undefined_blobs_from_spec. split.
  - intros [Hb|(ins & outs & Hin & Hb)]; [by apply elem_of_empty in Hb|].
    apply list_elem_of_lookup in Hin as [i Hi].
    destruct (lookup_lt_is_Some_2 (net_op proto) i) as [o Ho].
    { rewrite <- Hlen. by eapply lookup_lt_Some. }
    rewrite (Hent i o Ho) in Hi. injection Hi as <- <-.
    apply list_elem_of_fmap in Hb as (n & [= <- Hv] & Hn).
    exists i, o. split; [done|]. split; [done|]. lia.
  - intros (i & o & Ho & Hb & Hv & Hc). right.
    eexists _, _. split.
    + eapply list_elem_of_lookup_2. apply (Hent i o Ho).
    + apply list_elem_of_fmap. exists b. split; [|done]. f_equal. lia.
Qed.

(** X17.  On the SSA form of a net, [get_output_producers] maps a blob at
    a version to operator [i] exactly when operator [i] lists the blob as
    an output and the version is the one the blob has after it: no two
    operators produce the same version of a blob. *)
Theorem output_producers_of_get_ssa (proto : NetDef)
  (blob_versions : option (gmap string nat)) :
  ∃ ssa bv,
    get_ssa proto blob_versions = Ok (ssa, bv)
    ∧ ∀ b v i,
        get_output_producers ssa !! (b, v) = Some i
        ↔ ∃ o, net_op proto !! i = Some o
               ∧ b ∈ output o
               ∧ v = version_of (default ∅ blob_versions) b
                     + count_out b (take (S i) (net_op proto)).
Proof.
  destruct (get_ssa_spec proto blob_versions)
    as (ssa & bv & Hrun & Hlen & _ & _ & Hent).
  exists ssa, bv. split; [done|]. intros b v i.
  rewrite get_output_producers_spec. split.
  - intros (ins & outs & Hi & Hb & _).
    destruct (lookup_lt_is_Some_2 (net_op proto) i) as [o Ho].
    { rewrite <- Hlen. by eapply lookup_lt_Some. }
    rewrite (Hent i o Ho) in Hi. injection Hi as <- <-.
    apply list_elem_of_fmap in Hb as (n & [= <- Hv] & Hn).
    by exists o.
  - intros (o & Ho & Hb & ->). eexists _, _. split; [apply (Hent i o Ho)|].
    split.
    + apply list_elem_of_fmap. by exists b.
    + intros k ins1 outs1 Hlt Hk Hin.
      destruct (lookup_lt_is_Some_2 (net_op proto) k) as [o1 Ho1].
      { rewrite <- Hlen. by eapply lookup_lt_Some. }
      rewrite (Hent k o1 Ho1) in Hk. injection Hk as <- <-.
      apply list_elem_of_fmap in Hin as (n & [= <- Hv] & Hn).
      rewrite (count_out_take_S b _ k o1 Ho1) in Hv.
      pose proof (filter_eq_length_pos b (output o1) Hn).
      pose proof (count_out_take_le b (net_op proto) (S i) k). lia.
Qed.

(** * The traversal of get_op_ids_in_path *)

Lemma pending_from_ext ssa : ∀ i0 (used1 used2 : gset nat),
  (∀ k, i0 ≤ k → k ∈ used1 ↔ k ∈ used2) →
  pending_from i0 ssa used1 = pending_from i0 ssa used2.
Proof.
  induction ssa as [|e ssa IH]; intros i0 used1 used2 Heq; simpl; [done|].
  rewrite (IH (S i0) used1 used2) by (intros k Hk; apply Heq; lia).
  f_equal. destruct (decide (i0 ∈ used1)) as [H1|H1];
    destruct (decide (i0 ∈ used2)) as [H2|H2]; try done.
  - exfalso. apply H2, Heq; [lia|done].
  - exfalso. apply H1, Heq; [lia|done].
Qed.

Lemma pending_from_step ssa : ∀ i0 j ins outs (used : gset nat),
  ssa !! j = Some (ins, outs) →
  i0 + j ∉ used →
  pending_from i0 ssa (used ∪ {[i0 + j]}) + length ins
  = pending_from i0 ssa used.
Proof.
  induction ssa as [|e ssa IH]; intros i0 j ins outs used Hj Hnew; [done|].
  destruct j as [|j]; simpl.
  - injection Hj as ->. rewrite Nat.add_0_r in *.
    rewrite decide_True by set_solver. rewrite decide_False by done.
    rewrite (pending_from_ext ssa (S i0) (used ∪ {[i0]}) used); [simpl; lia|].
    intros k Hk. rewrite elem_of_union, elem_of_singleton. split; [|by left].
    intros [?|?]; [done|lia].
  - rewrite lookup_cons in Hj.
    replace (i0 + S j) with (S i0 + j) in * by lia.
    rewrite <- (IH (S i0) j ins outs used Hj Hnew).
    destruct (decide (i0 ∈ used)) as [Hin|Hout].
    + rewrite decide_True by set_solver. lia.
    + rewrite decide_False; [lia|].
      rewrite elem_of_union, elem_of_singleton. intros [?|?]; [done|lia].
Qed.

Lemma pending_from_le ssa : ∀ i0 (used : gset nat),
  pending_from i0 ssa used
  ≤ sum_list (map (fun e : list VersionedBlob * list VersionedBlob =>
                     length e.1) ssa).
Proof.
  induction ssa as [|e ssa IH]; intros i0 used; simpl; [done|].
  specialize (IH (S i0) used). destruct (decide _); lia.
Qed.

Lemma settled_mono inputs_set producers (used1 used2 : gset nat) x :
  used1 ⊆ used2 →
  settled inputs_set producers used1 x → settled inputs_set producers used2 x.
Proof.
  intros Hsub [?|[?|(i & ? & ?)]]; [by left|by right; left|].
  right; right. exists i. set_solver.
Qed.

Section traversal.
Variable ssa : SSA.
Variable inputs_set : gset VersionedBlob.
Variable producers : gmap VersionedBlob nat.
Variable queue0 : list VersionedBlob.

Lemma traversal_inv_skip o queue used :
  traversal_inv ssa inputs_set producers queue0 (o :: queue) used →
  settled inputs_set producers used o →
  traversal_inv ssa inputs_set producers queue0 queue used.
Proof.
  intros (Ha & Hb & Hc & Hd) Hs. split; [|split; [done|split]].
  - intros x Hx. apply Ha. set_solver.
  - intros x Hx. destruct (Hc x Hx) as [[->|?]%elem_of_cons|?];
      [by right|by left|by right].
  - intros i ins outs x Hi Hssa Hx.
    destruct (Hd i ins outs x Hi Hssa Hx) as [[->|?]%elem_of_cons|?];
      [by right|by left|by right].
Qed.

Lemma traversal_inv_push o queue used i ins outs :
  traversal_inv ssa inputs_set producers queue0 (o :: queue) used →
  o ∉ inputs_set →
  producers !! o = Some i →
  ssa !! i = Some (ins, outs) →
  traversal_inv ssa inputs_set producers queue0 (rev ins ++ queue) (used ∪ {[i]}).
Proof.
  intros (Ha & Hb & Hc & Hd) Hnot Hp Hssa.
  assert (wanted ssa inputs_set producers queue0 o) as Hwo.
  { apply Ha. set_solver. }
  assert (settled inputs_set producers (used ∪ {[i]}) o) as Hso.
  { right; right. exists i. set_solver. }
  split; [|split; [|split]].
  - intros x [Hx|Hx]%elem_of_app.
    + eapply wanted_input; [exact Hwo|done|exact Hp|exact Hssa|].
      by apply list_elem_of_In, in_rev, list_elem_of_In.
    + apply Ha. set_solver.
  - intros j [Hj|Hj]%elem_of_union; [by apply Hb|].
    apply elem_of_singleton in Hj as ->. by exists o.
  - intros x Hx. destruct (Hc x Hx) as [[->|?]%elem_of_cons|Hs].
    + by right.
    + left. set_solver.
    + right. eapply settled_mono; [|exact Hs]. set_solver.
  - intros j ins1 outs1 x [Hj|Hj]%elem_of_union Hj1 Hx.
    + destruct (Hd j ins1 outs1 x Hj Hj1 Hx) as [[->|?]%elem_of_cons|Hs].
      * by right.
      * left. set_solver.
      * right. eapply settled_mono; [|exact Hs]. set_solver.
    + apply elem_of_singleton in Hj as ->.
      rewrite Hssa in Hj1. injection Hj1 as <- <-. left.
      apply elem_of_app. left.
      by apply list_elem_of_In, in_rev; rewrite rev_involutive; apply list_elem_of_In.
Qed.

(** Once the queue is empty, the set holds the needed operators. *)
Lemma traversal_inv_done used :
  traversal_inv ssa inputs_set producers queue0 [] used →
  ∀ i, i ∈ used ↔ needed_op ssa inputs_set producers queue0 i.
Proof.
  intros (_ & Hb & Hc & Hd) i. split; [apply Hb|].
  assert (∀ x, wanted ssa inputs_set producers queue0 x →
               settled inputs_set producers used x) as Hall.
  { intros x Hw. induction Hw as [x Hx|o j ins outs x Hw IH Hnot Hp Hssa Hx].
    - destruct (Hc x Hx) as [Hq|?]; [by apply elem_of_nil in Hq|done].
    - destruct IH as [?|[Hn|(k & Hk & Hused)]]; [done|congruence|].
      rewrite Hp in Hk. injection Hk as <-.
      destruct (Hd j ins outs x Hused Hssa Hx) as [Hq|?];
        [by apply elem_of_nil in Hq|done]. }
  intros (o & Hw & Hnot & Hp).
  destruct (Hall o Hw) as [?|[Hn|(k & Hk & Hused)]]; [done|congruence|].
  rewrite Hp in Hk. by injection Hk as <-.
Qed.

Hypothesis producers_in_ssa :
  ∀ o i, producers !! o = Some i → is_Some (ssa !! i).

Lemma get_op_ids_in_path_loop_spec : ∀ fuel queue used,
  traversal_inv ssa inputs_set producers queue0 queue used →
  length queue + pending_from 0 ssa used < fuel →
  ∃ res, get_op_ids_in_path_loop fuel ssa inputs_set producers queue used
         = Some (Ok res)
         ∧ ∀ i, i ∈ res ↔ needed_op ssa inputs_set producers queue0 i.
Proof.
  induction fuel as [|fuel IH]; intros queue used Hinv Hfuel; [lia|].
  destruct queue as [|o queue]; cbn [get_op_ids_in_path_loop].
  { exists used. split; [done|]. by apply traversal_inv_done. }
  simpl in Hfuel.
  destruct (decide (o ∈ inputs_set)) as [Hin|Hnot].
  { apply IH; [|lia]. eapply traversal_inv_skip; [exact Hinv|by left]. }
  destruct (producers !! o) as [i|] eqn:Hp.
  2:{ apply IH; [|lia]. eapply traversal_inv_skip; [exact Hinv|by right; left]. }
  destruct (decide (i ∈ used)) as [Hused|Hnew].
  { apply IH; [|lia]. eapply traversal_inv_skip; [exact Hinv|].
    right; right. by exists i. }
  destruct (producers_in_ssa o i Hp) as [[ins outs] Hssa].
  unfold index. rewrite Hssa.
  apply IH.
  - by eapply traversal_inv_push.
  - rewrite length_app, length_rev.
    pose proof (pending_from_step ssa 0 i ins outs used Hssa Hnew) as Hstep.
    simpl in Hstep. lia.
Qed.

End traversal.

Lemma wanted_ext ssa inputs_set producers (q1 q2 : list VersionedBlob) x :
  (∀ y, y ∈ q1 → y ∈ q2) →
  wanted ssa inputs_set producers q1 x → wanted ssa inputs_set producers q2 x.
Proof.
  intros Hq Hw. induction Hw as [x Hx|o j ins outs x Hw IH Hnot Hp Hssa Hx].
  - apply wanted_queue. by apply Hq.
  - by eapply wanted_input.
Qed.

Lemma needed_op_ext ssa inputs_set producers (q1 q2 : list VersionedBlob) i :
  (∀ y, y ∈ q1 ↔ y ∈ q2) →
  needed_op ssa inputs_set producers q1 i
  ↔ needed_op ssa inputs_set producers q2 i.
Proof.
  intros Hq. split; intros (o & Hw & ? & ?); exists o; (split; [|done]);
    (eapply wanted_ext; [|exact Hw]); intros y; apply Hq.
Qed.

Lemma traversal_inv_start ssa inputs_set producers queue0 :
  traversal_inv ssa inputs_set producers queue0 queue0 ∅.
Proof.
  split; [|split; [|split]].
  - intros x Hx. by apply wanted_queue.
  - intros i Hi. by apply elem_of_empty in Hi.
  - intros x Hx. by left.
  - intros i ins outs x Hi. by apply elem_of_empty in Hi.
Qed.

Lemma versioned_blobs_keys names bv l :
  versioned_blobs names bv = Ok l → ∀ n, n ∈ names → is_Some (bv !! n).
Proof.
  revert l. induction names as [|n0 names IH]; intros l Hok n Hn.
  - by apply elem_of_nil in Hn.
  - simpl in Hok. unfold getitem in Hok.
    destruct (bv !! n0) eqn:E0; cbn [bind] in Hok; [|done].
    destruct (versioned_blobs names bv) eqn:E; cbn [bind] in Hok; [|done].
    apply elem_of_cons in Hn as [->|Hn]; [by rewrite E0|by eapply IH].
Qed.

(** X18.  When every blob of [inputs] and [outputs] has a version and the
    loop is given as many iterations as there are outputs and inputs of
    entries, plus one, [get_op_ids_in_path] returns, in increasing order
    and without repetition, exactly the operators that produce a blob
    asked for that is not among the given inputs, where the blobs asked
    for are the outputs at their versions and the inputs of the operators
    so found. *)
Theorem get_op_ids_in_path_needed (fuel : nat) (ssa : SSA)
  (blob_versions : gmap string nat) (inputs outputs : list string) :
  (∀ n, n ∈ inputs ++ outputs → is_Some (blob_versions !! n)) →
  path_fuel ssa (length outputs) ≤ fuel →
  ∃ ids,
    get_op_ids_in_path fuel ssa blob_versions inputs outputs = Some (Ok ids)
    ∧ StronglySorted Nat.le ids
    ∧ NoDup ids
    ∧ ∀ i, i ∈ ids
           ↔ needed_op ssa
               (list_to_set
                  (map (fun n => (n, version_of blob_versions n)) inputs))
               (get_output_producers ssa)
               (map (fun n => (n, version_of blob_versions n)) outputs) i.
Proof.
  intros Hkeys Hfuel. unfold get_op_ids_in_path.
  rewrite !versioned_blobs_ok by (intros n Hn; apply Hkeys; set_solver).
  set (inputs_set := list_to_set _ : gset VersionedBlob).
  set (queue := map _ outputs).
  destruct (get_op_ids_in_path_loop_spec ssa inputs_set
              (get_output_producers ssa) (rev queue)) with
    (fuel := fuel) (queue := rev queue) (used := (∅ : gset nat))
    as (res & -> & Hres).
  - intros o i Hp.
    apply get_output_producers_spec in Hp as (ins & outs & Hssa & _).
    by rewrite Hssa.
  - apply traversal_inv_start.
  - rewrite length_rev. subst queue. rewrite length_map.
    pose proof (pending_from_le ssa 0 ∅). unfold path_fuel in Hfuel. lia.
  - eexists. split; [done|]. split.
    { apply StronglySorted_merge_sort; [apply _|].
      intros x y. unfold Nat.le. lia. }
    split.
    { rewrite merge_sort_Permutation. apply NoDup_elements. }
    intros i. rewrite merge_sort_Permutation, elem_of_elements, Hres.
    apply needed_op_ext. intros y.
    split; intros Hy; apply list_elem_of_In; apply list_elem_of_In in Hy.
    + by apply in_rev.
    + by apply in_rev in Hy.
Qed.

Lemma get_op_ids_in_path_needed_witness :
  ∃ ids,
    get_op_ids_in_path 10 two_consumers_ssa.1 two_consumers_ssa.2 ["T1"] ["Y"]
    = Some (Ok ids)
    ∧ ids = [1; 2].
Proof.
  destruct (get_op_ids_in_path_needed 10 two_consumers_ssa.1
              two_consumers_ssa.2 ["T1"] ["Y"]) as (ids & Hrun & _).
  - intros n Hn. simpl in Hn.
    apply elem_of_cons in Hn as [->|Hn]; [eexists; vm_compute; reflexivity|].
    apply list_elem_of_singleton in Hn as ->. eexists; vm_compute; reflexivity.
  - vm_compute. lia.
  - exists ids. split; [done|]. vm_compute in Hrun. by injection Hrun as <-.
Defined.

(** X19.  When a blob of [inputs] or [outputs] has no version in the map,
    [get_op_ids_in_path] raises a KeyError for such a blob, whatever the
    number of iterations allowed. *)
Theorem get_op_ids_in_path_missing_version (fuel : nat) (ssa : SSA)
  (blob_versions : gmap string nat) (inputs outputs : list string) :
  (∃ n, n ∈ inputs ++ outputs ∧ blob_versions !! n = None) →
  ∃ n, n ∈ inputs ++ outputs
       ∧ blob_versions !! n = None
       ∧ get_op_ids_in_path fuel ssa blob_versions inputs outputs
         = Some (Raise (KeyError n)).
Proof.
  intros (n & Hn & Hnone). unfold get_op_ids_in_path.
  destruct (versioned_blobs inputs blob_versions) as [vin|e] eqn:Ein.
  - destruct (versioned_blobs outputs blob_versions) as [vout|e] eqn:Eout.
    + exfalso. apply elem_of_app in Hn as [Hn|Hn].
      * destruct (versioned_blobs_keys _ _ _ Ein n Hn) as [v Hv]. congruence.
      * destruct (versioned_blobs_keys _ _ _ Eout n Hn) as [v Hv]. congruence.
    + apply versioned_blobs_raise in Eout as (m & Hm & Hmn & ->).
      exists m. split; [set_solver|done].
    - apply versioned_blobs_raise in Ein as (m & Hm & Hmn & ->).
      exists m. split; [set_solver|done].
Qed.

Lemma get_op_ids_in_path_missing_version_witness :
  ∃ n, n ∈ ["T1"] ++ ["Z"]
       ∧ two_consumers_ssa.2 !! n = None
       ∧ get_op_ids_in_path 0 two_consumers_ssa.1 two_consumers_ssa.2
           ["T1"] ["Z"]
         = Some (Raise (KeyError n)).
Proof.
  apply (get_op_ids_in_path_missing_version 0 two_consumers_ssa.1
           two_consumers_ssa.2 ["T1"] ["Z"]).
  exists "Z". split; [set_solver|]. by vm_compute.
Defined.

(** * The two replays of a net *)

Lemma written_first_count b operators :
  written_first b operators = true → 0 < count_out b operators.
Proof.
  induction operators as [|o l IH]; simpl; [done|].
  rewrite count_out_cons.
  destruct (decide (b ∈ input o)); [done|].
  destruct (decide (b ∈ output o)) as [Hin|Hout].
  - intros _. pose proof (filter_eq_length_pos b (output o) Hin). lia.
  - intros H. specialize (IH H). lia.
Qed.

(** X20.  The two replays of the module number the versions of a blob
    differently.  For the operators of a net and no starting versions, the
    final version that [get_ssa] gives a blob is the frontier version that
    the IR gives it, plus one when the first appearance of the blob is as
    an output of an operator that does not read it: [get_ssa] gives the
    first write of a blob version 1, the IR version 0. *)
Theorem get_ssa_and_replay_versions (proto : NetDef) :
  ∃ ssa bv,
    get_ssa proto None = Ok (ssa, bv)
    ∧ ∀ b, version_of bv b
           = frontier_value (frontier (IR_init (net_op proto))) b
             + (if written_first b (net_op proto) then 1 else 0).
Proof.
  destruct (get_ssa_spec proto None) as (ssa & bv & Hrun & _ & Hver & _).
  exists ssa, bv. split; [done|]. intros b. rewrite Hver.
  unfold frontier_value, IR_init. rewrite replay_frontier. simpl.
  rewrite lookup_empty, fr_replay_None.
  unfold version_of. rewrite lookup_empty. simpl.
  destruct (written_first b (net_op proto)) eqn:E; [|lia].
  apply written_first_count in E. lia.
Qed.
